(** * A four-stage toolchain: Lexer, Parser, CodeGenerator, VirtualMachine

    Shallow embedding of [compiler.py].  Every class of the source is a
    module below; an object is a record of its fields and a method is a
    function that takes the object and returns the outcome together with
    the object as the call leaves it (Python keeps the mutations made
    before an exception was raised).

    Conventions of the embedding:
    - a character is a code point below 256 (the Latin-1 range), held in
      [ascii]; the character classes of [re], [str.split] and [int] are
      written out for that range;
    - integers are unbounded ([Z]); the modules of the classes follow the
      language, and the limits of the interpreter (recursion depth, digits
      of a conversion between int and text) are put on top of them in the
      modules [Limits] and [Limited...];
    - floats are binary64 values of [SpecFloat] (precision 53, emax 1024);
    - the operand stack is a list whose head is the top (Python appends
      and pops at the end of its list). *)

From Stdlib Require Import ZArith Lia Ascii String.
From Stdlib Require Import Decimal DecimalFacts DecimalString DecimalPos DecimalZ.
From Stdlib Require Import Floats.SpecFloat.
From stdpp Require Import base option list strings gmap.

#[local] Open Scope string_scope.
#[local] Open Scope list_scope.

(** ** Python values and library functions used by the source *)

Module Py.

(** The exceptions the four stages can raise. *)
Inductive exn : Type :=
| SyntaxError (msg : string)
| RuntimeError (msg : string)
| IndexError
| TypeError
| ValueError
| ZeroDivisionError
| OverflowError
| RecursionError.

Inductive result (A : Type) : Type :=
| Ok (a : A)
| Raise (e : exn).
Arguments Ok {A} a.
Arguments Raise {A} e.

(** Objects that flow between the compile-side stages: token values, token
    tuples and AST tuples. *)
#[warnings="-register-all"]
Inductive obj : Type :=
| ONone
| OInt (z : Z)
| OStr (s : string)
| OTuple (items : list obj).

(** *** Character classes (code points 0..255) *)

Definition code (c : ascii) : N := N_of_ascii c.

Definition between (lo hi : N) (c : ascii) : bool :=
  ((lo <=? code c) && (code c <=? hi))%N.

(** [\d] of [re] on [str]: the decimal digits. *)
Definition is_digit (c : ascii) : bool := between 48 57 c.

(** [[a-zA-Z_]]. *)
Definition is_ident_start (c : ascii) : bool :=
  between 97 122 c || between 65 90 c || (code c =? 95)%N.

(** [\w] of [re] on [str]: alphanumeric in the Unicode sense, or [_]. *)
Definition is_word (c : ascii) : bool :=
  between 48 57 c || between 65 90 c || (code c =? 95)%N || between 97 122 c
  || (code c =? 170)%N || between 178 179 c || (code c =? 181)%N
  || between 185 186 c || between 188 190 c || between 192 214 c
  || between 216 246 c || between 248 255 c.

(** [[+\-*/]]. *)
Definition is_operator (c : ascii) : bool :=
  (code c =? 43)%N || (code c =? 45)%N || (code c =? 42)%N || (code c =? 47)%N.

(** [[ \t]]. *)
Definition is_blank (c : ascii) : bool :=
  (code c =? 32)%N || (code c =? 9)%N.

(** [.] without DOTALL: anything but the line feed. *)
Definition is_any (c : ascii) : bool := negb (code c =? 10)%N.

(** Whitespace of [str.split()]. *)
Definition is_space (c : ascii) : bool :=
  between 9 13 c || between 28 32 c || (code c =? 133)%N || (code c =? 160)%N.

(** Whitespace stripped by [int(str)]. *)
Definition is_int_space (c : ascii) : bool :=
  between 9 13 c || (code c =? 32)%N || (code c =? 133)%N || (code c =? 160)%N.

(** [str.isprintable] on one character. *)
Definition is_printable (c : ascii) : bool :=
  negb (between 0 31 c || between 127 160 c || (code c =? 173)%N).

(** *** Strings *)

Definition str1 (c : ascii) : string := String c EmptyString.

Fixpoint string_forallb (p : ascii -> bool) (s : string) : bool :=
  match s with
  | EmptyString => true
  | String c rest => p c && string_forallb p rest
  end.

Fixpoint string_existsb (p : ascii -> bool) (s : string) : bool :=
  match s with
  | EmptyString => false
  | String c rest => p c || string_existsb p rest
  end.

(** The longest prefix of characters of a class, and what follows it. *)
Fixpoint span (p : ascii -> bool) (s : string) : string * string :=
  match s with
  | EmptyString => (EmptyString, EmptyString)
  | String c rest =>
      if p c then let '(pre, post) := span p rest in (String c pre, post)
      else (EmptyString, s)
  end.

(** [s.split()]: the maximal runs of non-whitespace characters. [cur] is
    the run being read. *)
Fixpoint split_from (cur : string) (s : string) : list string :=
  match s with
  | EmptyString => if String.eqb cur "" then [] else [cur]
  | String c rest =>
      if is_space c
      then (if String.eqb cur "" then split_from "" rest
            else cur :: split_from "" rest)
      else split_from (cur +:+ str1 c) rest
  end.

Definition split (s : string) : list string := split_from "" s.

(** *** [int] and [str] on integers *)

(** [str(z)]. *)
Definition str_int (z : Z) : string := NilZero.string_of_int (Z.to_int z).

(** Digits with single underscores between them, most significant first. *)
Fixpoint digits_of (s : string) : option uint :=
  match s with
  | EmptyString => None
  | String c rest =>
      match rest with
      | EmptyString => uint_of_char c (Some Nil)
      | String u rest' =>
          if (code u =? 95)%N then uint_of_char c (digits_of rest')
          else uint_of_char c (digits_of rest)
      end
  end.

Definition lstrip (p : ascii -> bool) (s : string) : string := snd (span p s).

Fixpoint rstrip (p : ascii -> bool) (s : string) : string :=
  match s with
  | EmptyString => EmptyString
  | String c rest =>
      match rstrip p rest with
      | EmptyString => if p c then EmptyString else str1 c
      | r => String c r
      end
  end.

(** [int(s)] in base 10: surrounding whitespace, an optional sign, digits. *)
Definition int (s : string) : result Z :=
  match rstrip is_int_space (lstrip is_int_space s) with
  | EmptyString => Raise ValueError
  | String c rest =>
      if (code c =? 45)%N then
        match digits_of rest with
        | Some d => Ok (Z.of_int (Neg d))
        | None => Raise ValueError
        end
      else if (code c =? 43)%N then
        match digits_of rest with
        | Some d => Ok (Z.of_int (Pos d))
        | None => Raise ValueError
        end
      else
        match digits_of (String c rest) with
        | Some d => Ok (Z.of_int (Pos d))
        | None => Raise ValueError
        end
  end.

(** *** [repr] and [str] on objects *)

Definition hex_digit (n : N) : ascii :=
  if (n <? 10)%N then ascii_of_N (48 + n) else ascii_of_N (87 + n).

Definition repr_char (quote : ascii) (c : ascii) : string :=
  if (code c =? 92)%N then "\\"
  else if Ascii.eqb c quote then String "\" (str1 c)
  else if (code c =? 9)%N then "\t"
  else if (code c =? 10)%N then "\n"
  else if (code c =? 13)%N then "\r"
  else if is_printable c then str1 c
  else "\x" +:+ str1 (hex_digit (code c / 16)) +:+ str1 (hex_digit (code c mod 16)).

Fixpoint repr_chars (quote : ascii) (s : string) : string :=
  match s with
  | EmptyString => EmptyString
  | String c rest => repr_char quote c +:+ repr_chars quote rest
  end.

Definition repr_str (s : string) : string :=
  let quote :=
    if string_existsb (fun c => (code c =? 39)%N) s
       && negb (string_existsb (fun c => (code c =? 34)%N) s)
    then ascii_of_N 34 else ascii_of_N 39 in
  str1 quote +:+ repr_chars quote s +:+ str1 quote.

Fixpoint repr (o : obj) : string :=
  match o with
  | ONone => "None"
  | OInt z => str_int z
  | OStr s => repr_str s
  | OTuple items =>
      match items with
      | [] => "()"
      | [x] => "(" +:+ repr x +:+ ",)"
      | x :: rest =>
          "(" +:+ repr x
          +:+ fold_right (fun y acc => ", " +:+ repr y +:+ acc) "" rest
          +:+ ")"
      end
  end.

(** [str(o)], the rendering an f-string uses. *)
Definition str (o : obj) : string :=
  match o with
  | OStr s => s
  | _ => repr o
  end.

(** [o == "literal"]. *)
Definition eq_str (o : obj) (s : string) : bool :=
  match o with
  | OStr t => String.eqb t s
  | _ => false
  end.

(** *** Floats: binary64 arithmetic and [repr] *)

Definition prec : Z := 53.
Definition emax : Z := 1024.

(** An integer as an exact, not yet rounded, binary value. *)
Definition raw_of_Z (z : Z) : spec_float :=
  match z with
  | Z0 => S754_zero false
  | Zpos p => S754_finite false p 0
  | Zneg p => S754_finite true p 0
  end.

(** [float(z)] as the arithmetic operators convert an [int] operand:
    round to nearest even, [OverflowError] beyond the largest double. *)
Definition float_of_int (z : Z) : result spec_float :=
  match binary_normalize prec emax z 0 false with
  | S754_infinity _ => Raise OverflowError
  | f => Ok f
  end.

(** [a / b] on two ints: the correctly rounded quotient. *)
Definition int_truediv (a b : Z) : result spec_float :=
  if (b =? 0)%Z then Raise ZeroDivisionError
  else
    match SFdiv prec emax (raw_of_Z a) (raw_of_Z b) with
    | S754_infinity _ => Raise OverflowError
    | f => Ok f
    end.

Definition float_is_zero (f : spec_float) : bool :=
  match f with S754_zero _ => true | _ => false end.

Definition float_truediv (x y : spec_float) : result spec_float :=
  if float_is_zero y then Raise ZeroDivisionError
  else Ok (SFdiv prec emax x y).

(** [10^p <= num/den], for positive [num] and [den]. *)
Definition le_pow10 (num den p : Z) : bool :=
  if (0 <=? p)%Z then (10 ^ p * den <=? num)%Z
  else (den <=? num * 10 ^ (- p))%Z.

Fixpoint raise_exp (fuel : nat) (num den p : Z) : Z :=
  match fuel with
  | O => p
  | S fuel =>
      if le_pow10 num den (p + 1) then raise_exp fuel num den (p + 1) else p
  end.

Fixpoint lower_exp (fuel : nat) (num den p : Z) : Z :=
  match fuel with
  | O => p
  | S fuel =>
      if le_pow10 num den p then p else lower_exp fuel num den (p - 1)
  end.

(** The decimal exponent [p] with [10^p <= num/den < 10^(p+1)]. *)
Definition exp10 (num den : Z) : Z :=
  let guess := ((Z.log2 num - Z.log2 den) * 30103 / 100000)%Z in
  lower_exp 4 num den (raise_exp 4 num den guess).

(** The double nearest to [d * 10^k]. *)
Definition decimal_to_float (d k : Z) : spec_float :=
  if (0 <=? k)%Z then SFdiv prec emax (raw_of_Z (d * 10 ^ k)) (raw_of_Z 1)
  else SFdiv prec emax (raw_of_Z d) (raw_of_Z (10 ^ (- k))).

Definition float_same (x y : spec_float) : bool :=
  match SFcompare x y with Some Eq => true | _ => false end.

(** The shortest decimal [d * 10^k] that reads back as [m * 2^e], nearest
    to it among the shortest; [n] counts the digits tried. *)
Fixpoint shortest (fuel : nat) (n : Z) (m : positive) (e : Z) : Z * Z :=
  let num := if (0 <=? e)%Z then (Zpos m * 2 ^ e)%Z else Zpos m in
  let den := if (0 <=? e)%Z then 1%Z else (2 ^ (- e))%Z in
  let k := (exp10 num den - (n - 1))%Z in
  let sn := if (0 <=? k)%Z then num else (num * 10 ^ (- k))%Z in
  let sd := if (0 <=? k)%Z then (den * 10 ^ k)%Z else den in
  let lo := (sn / sd)%Z in
  let hi := (lo + 1)%Z in
  let x := S754_finite false m e in
  let ok_lo := float_same (decimal_to_float lo k) x in
  let ok_hi := float_same (decimal_to_float hi k) x in
  match fuel with
  | O => (lo, k)
  | S fuel =>
      if (sn mod sd =? 0)%Z then (lo, k)
      else if ok_lo && ok_hi then
        match (2 * sn ?= (2 * lo + 1) * sd)%Z with
        | Lt => (lo, k)
        | Gt => (hi, k)
        | Eq => if Z.even lo then (lo, k) else (hi, k)
        end
      else if ok_lo then (lo, k)
      else if ok_hi then (hi, k)
      else shortest fuel (n + 1) m e
  end.

Fixpoint strip_zeros (fuel : nat) (d k : Z) : Z * Z :=
  match fuel with
  | O => (d, k)
  | S fuel =>
      if (d mod 10 =? 0)%Z then strip_zeros fuel (d / 10) (k + 1) else (d, k)
  end.

Fixpoint zeros (n : nat) : string :=
  match n with
  | O => EmptyString
  | S n => String "0" (zeros n)
  end.

Definition string_take (n : nat) (s : string) : string := substring 0 n s.
Definition string_drop (n : nat) (s : string) : string :=
  substring n (String.length s - n) s.

(** [repr] of a positive finite double from its digits [ds] and the
    position [decpt] of the decimal point ([0.ds * 10^decpt]). *)
Definition format_float (ds : string) (decpt : Z) : string :=
  let nd := Z.of_nat (String.length ds) in
  if ((-4 <? decpt) && (decpt <=? 16))%Z then
    if (decpt <=? 0)%Z then "0." +:+ zeros (Z.to_nat (- decpt)) +:+ ds
    else if (decpt <? nd)%Z then
      string_take (Z.to_nat decpt) ds +:+ "." +:+ string_drop (Z.to_nat decpt) ds
    else ds +:+ zeros (Z.to_nat (decpt - nd)) +:+ ".0"
  else
    let ex := (decpt - 1)%Z in
    let mant :=
      if (1 <? nd)%Z then string_take 1 ds +:+ "." +:+ string_drop 1 ds
      else ds in
    let exs := str_int (Z.abs ex) in
    mant +:+ "e" +:+ (if (ex <? 0)%Z then "-" else "+")
    +:+ (if (Z.abs ex <? 10)%Z then "0" else "") +:+ exs.

(** [repr(f)], which is also [str(f)]. *)
Definition repr_float (f : spec_float) : string :=
  match f with
  | S754_nan => "nan"
  | S754_infinity s => if s then "-inf" else "inf"
  | S754_zero s => if s then "-0.0" else "0.0"
  | S754_finite s m e =>
      let '(d, k) := shortest 17 1 m e in
      let '(d, k) := strip_zeros 20 d k in
      let ds := str_int d in
      (if s then "-" else "") +:+
      format_float ds (Z.of_nat (String.length ds) + k)
  end.

End Py.

Import Py.

(** A token is the Python pair [(kind, value)]. *)
Abbreviation token := (string * obj)%type.

(** ** class Lexer *)

Module Lexer.

(** The three shapes of pattern in [token_specification]. *)
Inductive pattern : Type :=
| One (cls : ascii -> bool)
| Many (cls : ascii -> bool)
| OneThenMany (first rest : ascii -> bool).

Record t : Type := mk {
  tokens : list token;
  keywords : gset string
}.

Definition __init__ : t :=
  {| tokens := []; keywords := {[ "var"; "print" ]} |}.

Definition token_specification : list (string * pattern) :=
  [ ("NUMBER", Many is_digit);
    ("IDENTIFIER", OneThenMany is_ident_start is_word);
    ("ASSIGN", One (fun c => (code c =? 61)%N));
    ("SEMICOLON", One (fun c => (code c =? 59)%N));
    ("OPERATOR", One is_operator);
    ("LPAREN", One (fun c => (code c =? 40)%N));
    ("RPAREN", One (fun c => (code c =? 41)%N));
    ("SKIP", Many is_blank);
    ("MISMATCH", One is_any) ].

(** A pattern tried at the start of [s]: the text it consumes and the
    rest. Repetitions are greedy and nothing follows them in a rule. *)
Definition match_at (p : pattern) (s : string) : option (string * string) :=
  match s with
  | EmptyString => None
  | String c rest =>
      match p with
      | One cls => if cls c then Some (str1 c, rest) else None
      | Many cls =>
          if cls c then let '(pre, post) := span cls rest in Some (String c pre, post)
          else None
      | OneThenMany first more =>
          if first c then let '(pre, post) := span more rest in Some (String c pre, post)
          else None
      end
  end.

(** The alternation of the named groups: the first rule that matches at
    the start of [s] wins. The result is ([lastgroup], [group()], rest). *)
Fixpoint first_match (rules : list (string * pattern)) (s : string)
  : option (string * string * string) :=
  match rules with
  | [] => None
  | (name, p) :: rules' =>
      match match_at p s with
      | Some (value, rest) => Some (name, value, rest)
      | None => first_match rules' s
      end
  end.

(** The body of [for match in re.finditer(token_regex, code)], from the
    position where [code] starts; [toks] is [self.tokens]. *)
Fixpoint scan (fuel : nat) (code : string) (toks : list token)
  : option (result unit * list token) :=
  match fuel with
  | O => None
  | S fuel =>
      match code with
      | EmptyString => Some (Ok tt, toks)
      | String _ next =>
          match first_match token_specification code with
          | None => scan fuel next toks
          | Some (kind, value, rest) =>
              if String.eqb kind "NUMBER" then
                match int value with
                | Ok n => scan fuel rest (toks ++ [(kind, OInt n)])
                | Raise e => Some (Raise e, toks)
                end
              else if String.eqb kind "SKIP" then scan fuel rest toks
              else if String.eqb kind "MISMATCH" then
                Some (Raise (SyntaxError ("Unexpected character: " +:+ value)), toks)
              else scan fuel rest (toks ++ [(kind, OStr value)])
          end
      end
  end.

(** [tokenize(self, code)]: the value returned (or the exception) and the
    object afterwards. The list returned is [self.tokens] itself. *)
Definition tokenize (self : t) (code : string)
  : option (result (list token) * t) :=
  match scan (S (String.length code)) code (tokens self) with
  | None => None
  | Some (Raise e, toks) =>
      Some (Raise e, {| tokens := toks; keywords := keywords self |})
  | Some (Ok _, toks) =>
      let toks := toks ++ [("EOF", ONone)] in
      Some (Ok toks, {| tokens := toks; keywords := keywords self |})
  end.

End Lexer.

(** ** class Parser *)

Module Parser.

Record t : Type := mk {
  tokens : list token;
  pos : nat
}.

Definition __init__ (tokens : list token) : t :=
  {| tokens := tokens; pos := 0 |}.

(** A method: from the object to the outcome and the object afterwards;
    [None] when the recursion budget [fuel] of a recursive method ran out. *)
Definition M (A : Type) : Type := t -> option (result A * t).

Definition ret {A} (a : A) : M A := fun self => Some (Ok a, self).
Definition throw {A} (e : exn) : M A := fun self => Some (Raise e, self).
Definition starved {A} : M A := fun _ => None.

Definition bind {A B} (m : M A) (k : A -> M B) : M B :=
  fun self =>
    match m self with
    | None => None
    | Some (Raise e, self') => Some (Raise e, self')
    | Some (Ok a, self') => k a self'
    end.

#[local] Notation "'do' x <- m ; k" := (bind m (fun x => k))
  (at level 10, x name, m at level 100, k at level 200).

(** The tuple an AST leaf is: the token itself. *)
Definition tok_obj (tk : token) : obj := OTuple [OStr (fst tk); snd tk].

Definition peek : M token :=
  fun self =>
    match tokens self !! pos self with
    | Some tk => Some (Ok tk, self)
    | None => Some (Raise IndexError, self)
    end.

Definition advance : M token :=
  fun self =>
    let self' := {| tokens := tokens self; pos := pos self + 1 |} in
    match tokens self !! pos self with
    | Some tk => Some (Ok tk, self')
    | None => Some (Raise IndexError, self')
    end.

Definition expect (token_type : string) : M token :=
  do tk <- peek ;
  if String.eqb (fst tk) token_type then advance
  else
    do tk' <- peek ;
    throw (SyntaxError ("Expected " +:+ token_type +:+ ", found " +:+ fst tk')).

Fixpoint expression (fuel : nat) : M obj :=
  match fuel with
  | O => starved
  | S fuel =>
      do left <- term fuel ;
      expression_loop fuel left
  end

(** The [while] loop of [expression], with [left] built so far. *)
with expression_loop (fuel : nat) (left : obj) : M obj :=
  match fuel with
  | O => starved
  | S fuel =>
      do tk <- peek ;
      if String.eqb (fst tk) "OPERATOR" then
        do op <- advance ;
        do right <- term fuel ;
        expression_loop fuel (OTuple [OStr "bin_op"; snd op; left; right])
      else ret left
  end

with term (fuel : nat) : M obj :=
  match fuel with
  | O => starved
  | S fuel =>
      do tk <- peek ;
      if String.eqb (fst tk) "NUMBER" then
        do a <- advance ; ret (tok_obj a)
      else if String.eqb (fst tk) "IDENTIFIER" then
        do a <- advance ; ret (tok_obj a)
      else if String.eqb (fst tk) "LPAREN" then
        do _ <- advance ;
        do expr <- expression fuel ;
        do _ <- expect "RPAREN" ;
        ret expr
      else throw (SyntaxError ("Unexpected token: " +:+ fst tk))
  end.

Definition variable_declaration (fuel : nat) : M obj :=
  do _ <- expect "IDENTIFIER" ;
  do name <- expect "IDENTIFIER" ;
  do _ <- expect "ASSIGN" ;
  do value <- expression fuel ;
  do _ <- expect "SEMICOLON" ;
  ret (OTuple [OStr "var_decl"; snd name; value]).

Definition print_statement (fuel : nat) : M obj :=
  do _ <- expect "IDENTIFIER" ;
  do value <- expression fuel ;
  do _ <- expect "SEMICOLON" ;
  ret (OTuple [OStr "print"; value]).

Definition statement (fuel : nat) : M obj :=
  do tk <- peek ;
  if String.eqb (fst tk) "IDENTIFIER" && eq_str (snd tk) "var"
  then variable_declaration fuel
  else if String.eqb (fst tk) "IDENTIFIER" && eq_str (snd tk) "print"
  then print_statement fuel
  else throw (SyntaxError ("Unknown statement: " +:+ str (snd tk))).

(** The [while] loop of [parse], with the list [statements] built so far. *)
Fixpoint parse_loop (fuel : nat) (statements : list obj) : M (list obj) :=
  match fuel with
  | O => starved
  | S fuel =>
      do tk <- peek ;
      if negb (String.eqb (fst tk) "EOF") then
        do s <- statement fuel ;
        parse_loop fuel (statements ++ [s])
      else ret statements
  end.

(** Every call of a recursive method consumes a token first or is one of
    two calls per token, so twice the length and a little is enough. *)
Definition budget (self : t) : nat := 2 * length (tokens self) + 3.

Definition parse : M (list obj) :=
  fun self => parse_loop (budget self) [] self.

End Parser.

(** ** class CodeGenerator *)

Module CodeGenerator.

Record t : Type := mk {
  instructions : list string
}.

Definition __init__ : t := {| instructions := [] |}.

(** A method: the outcome and the object afterwards. *)
Definition M (A : Type) : Type := t -> result A * t.

Definition ret {A} (a : A) : M A := fun self => (Ok a, self).
Definition throw {A} (e : exn) : M A := fun self => (Raise e, self).

Definition bind {A B} (m : M A) (k : A -> M B) : M B :=
  fun self =>
    match m self with
    | (Raise e, self') => (Raise e, self')
    | (Ok a, self') => k a self'
    end.

#[local] Notation "'do' x <- m ; k" := (bind m (fun x => k))
  (at level 10, x name, m at level 100, k at level 200).

(** [self.instructions.append(line)]. *)
Definition emit (line : string) : M unit :=
  fun self => (Ok tt, {| instructions := instructions self ++ [line] |}).

Fixpoint generate_expression (expr : obj) : M unit :=
  match expr with
  | OTuple items =>
      match items with
      | [] => throw IndexError
      | tag :: fields =>
          if eq_str tag "bin_op" then
            match fields with
            | [op; left_; right_] =>
                do _ <- generate_expression left_ ;
                do _ <- generate_expression right_ ;
                emit ("OP " +:+ str op)
            | _ => throw ValueError
            end
          else if eq_str tag "NUMBER" then
            match fields with
            | x :: _ => emit ("PUSH " +:+ str x)
            | [] => throw IndexError
            end
          else if eq_str tag "IDENTIFIER" then
            match fields with
            | x :: _ => emit ("LOAD " +:+ str x)
            | [] => throw IndexError
            end
          else ret tt
      end
  | OInt z => emit ("PUSH " +:+ str (OInt z))
  | _ => ret tt
  end.

(** [statement[0]] on the objects of the embedding. *)
Definition head_of (statement : obj) : result obj :=
  match statement with
  | OTuple (x :: _) => Ok x
  | OTuple [] => Raise IndexError
  | OStr (String c _) => Ok (OStr (str1 c))
  | OStr EmptyString => Raise IndexError
  | OInt _ | ONone => Raise TypeError
  end.

(** The fields of a statement after its tag; only a tuple has a tag that
    equals a word of several letters. *)
Definition fields_of (statement : obj) : list obj :=
  match statement with
  | OTuple (_ :: fields) => fields
  | _ => []
  end.

Definition generate_statement (statement : obj) : M unit :=
  match head_of statement with
  | Raise e => throw e
  | Ok tag =>
      if eq_str tag "var_decl" then
        match fields_of statement with
        | [var_name; value] =>
            do _ <- emit ("ALLOC " +:+ str var_name) ;
            do _ <- generate_expression value ;
            emit ("STORE " +:+ str var_name)
        | _ => throw ValueError
        end
      else if eq_str tag "print" then
        match fields_of statement with
        | [value] =>
            do _ <- generate_expression value ;
            emit "PRINT"
        | _ => throw ValueError
        end
      else throw (RuntimeError ("Unknown statement type: " +:+ str tag))
  end.

Fixpoint generate_loop (ast : list obj) : M unit :=
  match ast with
  | [] => ret tt
  | statement :: rest =>
      do _ <- generate_statement statement ;
      generate_loop rest
  end.

(** [generate(self, ast)]; the list returned is [self.instructions]. *)
Definition generate (ast : list obj) : M (list string) :=
  do _ <- generate_loop ast ;
  fun self => (Ok (instructions self), self).

End CodeGenerator.

(** ** class VirtualMachine *)

Module VirtualMachine.

(** What the operand stack and the variables can hold: [None], an [int]
    or a [float]. *)
Inductive value : Type :=
| VNone
| VInt (z : Z)
| VFloat (f : spec_float).

(** [str(v)], the text [print] writes. *)
Definition str_value (v : value) : string :=
  match v with
  | VNone => "None"
  | VInt z => str_int z
  | VFloat f => repr_float f
  end.

(** The object, and the lines written to standard output so far. *)
Record t : Type := mk {
  stack : list value;
  variables : gmap string value;
  stdout : list string
}.

Definition __init__ : t :=
  {| stack := []; variables := ∅; stdout := [] |}.

Definition M (A : Type) : Type := t -> result A * t.

Definition ret {A} (a : A) : M A := fun self => (Ok a, self).
Definition throw {A} (e : exn) : M A := fun self => (Raise e, self).

Definition bind {A B} (m : M A) (k : A -> M B) : M B :=
  fun self =>
    match m self with
    | (Raise e, self') => (Raise e, self')
    | (Ok a, self') => k a self'
    end.

#[local] Notation "'do' x <- m ; k" := (bind m (fun x => k))
  (at level 10, x name, m at level 100, k at level 200).

Definition lift {A} (r : result A) : M A :=
  match r with
  | Ok a => ret a
  | Raise e => throw e
  end.

(** [self.stack.append(v)]. *)
Definition push (v : value) : M unit :=
  fun self =>
    (Ok tt, {| stack := v :: stack self; variables := variables self;
               stdout := stdout self |}).

(** [self.stack.pop()]. *)
Definition pop : M value :=
  fun self =>
    match stack self with
    | [] => (Raise IndexError, self)
    | v :: rest =>
        (Ok v, {| stack := rest; variables := variables self;
                  stdout := stdout self |})
    end.

(** [self.variables[name] = v]. *)
Definition set_var (name : string) (v : value) : M unit :=
  fun self =>
    (Ok tt, {| stack := stack self; variables := <[name := v]> (variables self);
               stdout := stdout self |}).

(** [self.variables.get(name)]. *)
Definition get_var (name : string) : M value :=
  fun self => (Ok (default VNone (variables self !! name)), self).

(** [print(v)]. *)
Definition print (v : value) : M unit :=
  fun self =>
    (Ok tt, {| stack := stack self; variables := variables self;
               stdout := stdout self ++ [str_value v] |}).

(** [parts[i]]. *)
Definition part (parts : list string) (i : nat) : M string :=
  match parts !! i with
  | Some p => ret p
  | None => throw IndexError
  end.

(** [+], [-] and [*] on two values: exact on two ints, in binary64 as soon
    as one operand is a float, [TypeError] on [None]. *)
Definition arith (on_int : Z -> Z -> Z)
    (on_float : spec_float -> spec_float -> spec_float)
    (left right : value) : result value :=
  match left, right with
  | VInt a, VInt b => Ok (VInt (on_int a b))
  | VInt a, VFloat y =>
      match float_of_int a with
      | Ok x => Ok (VFloat (on_float x y))
      | Raise e => Raise e
      end
  | VFloat x, VInt b =>
      match float_of_int b with
      | Ok y => Ok (VFloat (on_float x y))
      | Raise e => Raise e
      end
  | VFloat x, VFloat y => Ok (VFloat (on_float x y))
  | _, _ => Raise TypeError
  end.

(** [left / right]. *)
Definition truediv (left right : value) : result value :=
  match left, right with
  | VInt a, VInt b =>
      match int_truediv a b with
      | Ok f => Ok (VFloat f)
      | Raise e => Raise e
      end
  | VInt a, VFloat y =>
      match float_of_int a with
      | Ok x =>
          match float_truediv x y with
          | Ok f => Ok (VFloat f)
          | Raise e => Raise e
          end
      | Raise e => Raise e
      end
  | VFloat x, VInt b =>
      match float_of_int b with
      | Ok y =>
          match float_truediv x y with
          | Ok f => Ok (VFloat f)
          | Raise e => Raise e
          end
      | Raise e => Raise e
      end
  | VFloat x, VFloat y =>
      match float_truediv x y with
      | Ok f => Ok (VFloat f)
      | Raise e => Raise e
      end
  | _, _ => Raise TypeError
  end.

Definition execute_instruction (instruction : string) : M unit :=
  let parts := split instruction in
  do op <- part parts 0 ;
  if String.eqb op "ALLOC" then
    do var_name <- part parts 1 ;
    set_var var_name VNone
  else if String.eqb op "PUSH" then
    do text <- part parts 1 ;
    do value <- lift (int text) ;
    push (VInt value)
  else if String.eqb op "LOAD" then
    do var_name <- part parts 1 ;
    do value <- get_var var_name ;
    push value
  else if String.eqb op "STORE" then
    do var_name <- part parts 1 ;
    do value <- pop ;
    set_var var_name value
  else if String.eqb op "OP" then
    do operator <- part parts 1 ;
    do right <- pop ;
    do left <- pop ;
    if String.eqb operator "+" then
      do v <- lift (arith Z.add (SFadd prec emax) left right) ; push v
    else if String.eqb operator "-" then
      do v <- lift (arith Z.sub (SFsub prec emax) left right) ; push v
    else if String.eqb operator "*" then
      do v <- lift (arith Z.mul (SFmul prec emax) left right) ; push v
    else if String.eqb operator "/" then
      do v <- lift (truediv left right) ; push v
    else ret tt
  else if String.eqb op "PRINT" then
    do v <- pop ;
    print v
  else ret tt.

Fixpoint execute (instructions : list string) : M unit :=
  match instructions with
  | [] => ret tt
  | instruction :: rest =>
      do _ <- execute_instruction instruction ;
      execute rest
  end.

End VirtualMachine.

(** ** The run of the example driver: fresh objects, one call each *)

Inductive run_result : Type :=
| Finished (vm : VirtualMachine.t)
| Failed (stage : string) (e : exn)
| Starved.

Definition run (code : string) : run_result :=
  match Lexer.tokenize Lexer.__init__ code with
  | None => Starved
  | Some (Raise e, _) => Failed "tokenize" e
  | Some (Ok tokens, _) =>
      match Parser.parse (Parser.__init__ tokens) with
      | None => Starved
      | Some (Raise e, _) => Failed "parse" e
      | Some (Ok ast, _) =>
          match CodeGenerator.generate ast CodeGenerator.__init__ with
          | (Raise e, _) => Failed "generate" e
          | (Ok instructions, _) =>
              match VirtualMachine.execute instructions VirtualMachine.__init__ with
              | (Raise e, _) => Failed "execute" e
              | (Ok _, vm) => Finished vm
              end
          end
      end
  end.

(** ** Vocabulary of the properties *)

(** Induction on objects that reaches the items of a tuple. *)
Section ObjInduction.
Variable P : obj -> Prop.
Hypothesis HNone : P ONone.
Hypothesis HInt : forall z, P (OInt z).
Hypothesis HStr : forall s, P (OStr s).
Hypothesis HTuple : forall items, Forall P items -> P (OTuple items).

Fixpoint obj_induction (o : obj) : P o :=
  match o with
  | ONone => HNone
  | OInt z => HInt z
  | OStr s => HStr s
  | OTuple items =>
      HTuple items
        ((fix all (l : list obj) : Forall P l :=
            match l with
            | [] => @List.Forall_nil obj P
            | x :: l' => @List.Forall_cons obj P x l' (obj_induction x) (all l')
            end) items)
  end.
End ObjInduction.

(** A word that [split] returns whole: not empty, no whitespace. *)
Definition is_name (w : string) : bool :=
  negb (String.eqb w "") && string_forallb (fun c => negb (is_space c)) w.

(** The four operators of the language. *)
Definition is_op (o : string) : bool :=
  String.eqb o "+" || String.eqb o "-" || String.eqb o "*" || String.eqb o "/".

(** The shape of the tokens [tokenize] emits, as far as the later stages
    depend on it. *)
Definition token_ok (tk : token) : bool :=
  if String.eqb (fst tk) "NUMBER" then
    match snd tk with OInt _ => true | _ => false end
  else if String.eqb (fst tk) "IDENTIFIER" then
    match snd tk with OStr s => is_name s | _ => false end
  else if String.eqb (fst tk) "OPERATOR" then
    match snd tk with OStr o => is_op o | _ => false end
  else true.

(** The expressions and statements the parser builds from such tokens. *)
Inductive wf_expr : obj -> Prop :=
| wf_number z : wf_expr (OTuple [OStr "NUMBER"; OInt z])
| wf_identifier s :
    is_name s = true -> wf_expr (OTuple [OStr "IDENTIFIER"; OStr s])
| wf_bin_op o l r :
    is_op o = true -> wf_expr l -> wf_expr r ->
    wf_expr (OTuple [OStr "bin_op"; OStr o; l; r]).

Inductive wf_stmt : obj -> Prop :=
| wf_var_decl s e :
    is_name s = true -> wf_expr e ->
    wf_stmt (OTuple [OStr "var_decl"; OStr s; e])
| wf_print e : wf_expr e -> wf_stmt (OTuple [OStr "print"; e]).

(** [("bin_op", op, left, right)]. *)
Definition bin_op (acc : obj) (p : obj * obj) : obj :=
  OTuple [OStr "bin_op"; fst p; acc; snd p].

(** The parser object one token further. *)
Definition stepped (s : Parser.t) : Parser.t :=
  {| Parser.tokens := Parser.tokens s; Parser.pos := Parser.pos s + 1 |}.

(** [op_terms s l s']: from [s] the tokens read as a run of
    (OPERATOR, Term) pairs, whose operator values and term trees are [l],
    and leave the parser at [s']. *)
Inductive op_terms : Parser.t -> list (obj * obj) -> Parser.t -> Prop :=
| op_terms_nil s : op_terms s [] s
| op_terms_cons s tk fuel e s1 l s2 :
    Parser.tokens s !! Parser.pos s = Some tk ->
    fst tk = "OPERATOR" ->
    Parser.term fuel (stepped s) = Some (Ok e, s1) ->
    op_terms s1 l s2 ->
    op_terms s ((snd tk, e) :: l) s2.

(** The tree [Parser.expression] builds for a source text on fresh
    objects. *)
Definition parse_expression (code : string) : option (result obj) :=
  match Lexer.tokenize Lexer.__init__ code with
  | None => None
  | Some (Raise e, _) => Some (Raise e)
  | Some (Ok tokens, _) =>
      match Parser.expression (2 * length tokens + 3) (Parser.__init__ tokens) with
      | None => None
      | Some (r, _) => Some r
      end
  end.

(** The lines a source text prints when the whole run succeeds. *)
Definition prints (code : string) (lines : list string) : Prop :=
  match run code with
  | Finished vm => VirtualMachine.stdout vm = lines
  | _ => False
  end.

(** A token sequence that ends with the EOF sentinel. *)
Definition eof_terminated (tokens : list token) : Prop :=
  exists front v, tokens = front ++ [("EOF", v)].

(** The characters the lexer specification names: digits, letters and the
    underscore of ASCII, the punctuation of the language, space, tab and
    line feed. *)
Definition named_char (c : ascii) : bool :=
  is_digit c || is_ident_start c
  || (code c =? 61)%N || (code c =? 59)%N || is_operator c
  || (code c =? 40)%N || (code c =? 41)%N
  || is_blank c || (code c =? 10)%N.



(** The kinds of the tokens of a source text, when it lexes. *)
Definition lexes_to (code : string) (toks : list token) : Prop :=
  exists lx, Lexer.tokenize Lexer.__init__ code = Some (Ok toks, lx).

(** What the scan does at one position that holds the character [c]
    before [rest]: append a token and go on, go on without a token, or
    stop with an exception. *)
Inductive action : Type :=
| Emit (tk : token) (rest : string)
| Skip (rest : string)
| Stop (e : exn).

Definition lex_step (c : ascii) (rest : string) : action :=
  match Lexer.first_match Lexer.token_specification (String c rest) with
  | None => Skip rest
  | Some (kind, value, rest') =>
      if String.eqb kind "NUMBER" then
        match int value with
        | Ok n => Emit (kind, OInt n) rest'
        | Raise e => Stop e
        end
      else if String.eqb kind "SKIP" then Skip rest'
      else if String.eqb kind "MISMATCH" then
        Stop (SyntaxError ("Unexpected character: " +:+ value))
      else Emit (kind, OStr value) rest'
  end.

(** The kinds of token the lexer appends. *)
Definition emitted_kind (tk : token) : bool :=
  String.eqb (fst tk) "NUMBER" || String.eqb (fst tk) "IDENTIFIER"
  || String.eqb (fst tk) "ASSIGN" || String.eqb (fst tk) "SEMICOLON"
  || String.eqb (fst tk) "OPERATOR" || String.eqb (fst tk) "LPAREN"
  || String.eqb (fst tk) "RPAREN" || String.eqb (fst tk) "EOF".

(** An EOF token lies at or after the current position of the parser. *)
Definition guarded (s : Parser.t) : Prop :=
  exists i v, Parser.pos s <= i /\ Parser.tokens s !! i = Some ("EOF", v).

(** What a call may do to the parser: it keeps the token list; when it
    returns it has moved forward (strictly if [strict]) and not beyond
    the end; behind an EOF sentinel it stays behind it and raises
    nothing but [SyntaxError]. *)
Definition post {A} (strict : bool) (s : Parser.t) (r : result A)
    (s' : Parser.t) : Prop :=
  Parser.tokens s' = Parser.tokens s /\
  match r with
  | Ok _ =>
      (if strict then Parser.pos s < Parser.pos s'
       else Parser.pos s <= Parser.pos s')
      /\ (Parser.pos s < Parser.pos s' ->
          Parser.pos s' <= length (Parser.tokens s))
      /\ (guarded s -> guarded s')
  | Raise e => guarded s -> exists msg, e = SyntaxError msg
  end.

(** The tokens that remain to be read. *)
Definition remaining (s : Parser.t) : nat :=
  length (Parser.tokens s) - Parser.pos s.

(** What the operator of an [OP] instruction computes. *)
Definition apply_op (o : string) (left right : VirtualMachine.value)
  : result VirtualMachine.value :=
  if String.eqb o "+" then
    VirtualMachine.arith Z.add (SFadd prec emax) left right
  else if String.eqb o "-" then
    VirtualMachine.arith Z.sub (SFsub prec emax) left right
  else if String.eqb o "*" then
    VirtualMachine.arith Z.mul (SFmul prec emax) left right
  else VirtualMachine.truediv left right.

(** The outcome of a scan, seen from a lexer that already holds [pre]. *)
Definition prefixed {A} (pre : list token)
    (o : option (result A * list token)) : option (result A * list token) :=
  match o with
  | Some (r, toks) => Some (r, pre ++ toks)
  | None => None
  end.

(** A character the lexer specification does not name. *)
Definition unnamed (c : ascii) : bool := negb (named_char c).

(** The outcome of a method on a fresh generator, seen from an object that
    already holds instructions. *)
Definition shifted {A} (self : CodeGenerator.t)
    (o : result A * CodeGenerator.t) : result A * CodeGenerator.t :=
  (fst o, {| CodeGenerator.instructions :=
               CodeGenerator.instructions self
               ++ CodeGenerator.instructions (snd o) |}).

Definition appends {A} (m : CodeGenerator.M A) : Prop :=
  forall self, m self = shifted self (m CodeGenerator.__init__).

(** Instructions that, when they all execute, leave one more value. *)
Definition grows (ins : list string) : Prop :=
  forall vm vm', VirtualMachine.execute ins vm = (Ok tt, vm') ->
    exists v, VirtualMachine.stack vm' = v :: VirtualMachine.stack vm.

(** Instructions that, when they all execute, leave the stack as it was. *)
Definition neutral (ins : list string) : Prop :=
  forall vm vm', VirtualMachine.execute ins vm = (Ok tt, vm') ->
    VirtualMachine.stack vm' = VirtualMachine.stack vm.

(** *** A typed view of the trees the parser builds *)

Inductive expr : Type :=
| Num (z : Z)
| Ident (s : string)
| BinOp (o : string) (l r : expr).

Inductive stmt : Type :=
| VarDecl (s : string) (e : expr)
| PrintStmt (e : expr).

(** The tuples of the source for a typed tree. *)
Fixpoint expr_obj (e : expr) : obj :=
  match e with
  | Num z => OTuple [OStr "NUMBER"; OInt z]
  | Ident s => OTuple [OStr "IDENTIFIER"; OStr s]
  | BinOp o l r => OTuple [OStr "bin_op"; OStr o; expr_obj l; expr_obj r]
  end.

Definition stmt_obj (st : stmt) : obj :=
  match st with
  | VarDecl s e => OTuple [OStr "var_decl"; OStr s; expr_obj e]
  | PrintStmt e => OTuple [OStr "print"; expr_obj e]
  end.

(** Names and operators as the lexer produces them. *)
Fixpoint expr_ok (e : expr) : bool :=
  match e with
  | Num _ => true
  | Ident s => is_name s
  | BinOp o l r => is_op o && expr_ok l && expr_ok r
  end.

Definition stmt_ok (st : stmt) : bool :=
  match st with
  | VarDecl s e => is_name s && expr_ok e
  | PrintStmt e => expr_ok e
  end.

(** The instruction text of a tree: operands first, left before right,
    then the operator. *)
Fixpoint code_expr (e : expr) : list string :=
  match e with
  | Num z => ["PUSH " +:+ str_int z]
  | Ident s => ["LOAD " +:+ s]
  | BinOp o l r => code_expr l ++ code_expr r ++ ["OP " +:+ o]
  end.

Definition code_stmt (st : stmt) : list string :=
  match st with
  | VarDecl s e => ["ALLOC " +:+ s] ++ code_expr e ++ ["STORE " +:+ s]
  | PrintStmt e => code_expr e ++ ["PRINT"]
  end.

Definition code_program (p : list stmt) : list string :=
  flat_map code_stmt p.

(** The value of a tree by direct evaluation in a variable store: a
    missing name reads as [None], the left operand is evaluated first, and
    the first exception wins. *)
Fixpoint value_of (vars : gmap string VirtualMachine.value) (e : expr)
  : result VirtualMachine.value :=
  match e with
  | Num z => Ok (VirtualMachine.VInt z)
  | Ident s => Ok (default VirtualMachine.VNone (vars !! s))
  | BinOp o l r =>
      match value_of vars l with
      | Raise err => Raise err
      | Ok vl =>
          match value_of vars r with
          | Raise err => Raise err
          | Ok vr => apply_op o vl vr
          end
      end
  end.

(** A statement run directly on the variables and the output of a
    machine: a declaration first resets its name, then evaluates. *)
Definition interp_stmt (st : stmt) : VirtualMachine.M unit :=
  fun vm =>
    match st with
    | VarDecl s e =>
        let vars := <[s := VirtualMachine.VNone]> (VirtualMachine.variables vm) in
        match value_of vars e with
        | Ok v =>
            (Ok tt, {| VirtualMachine.stack := VirtualMachine.stack vm;
                       VirtualMachine.variables := <[s := v]> vars;
                       VirtualMachine.stdout := VirtualMachine.stdout vm |})
        | Raise err =>
            (Raise err, {| VirtualMachine.stack := VirtualMachine.stack vm;
                           VirtualMachine.variables := vars;
                           VirtualMachine.stdout := VirtualMachine.stdout vm |})
        end
    | PrintStmt e =>
        match value_of (VirtualMachine.variables vm) e with
        | Ok v =>
            (Ok tt, {| VirtualMachine.stack := VirtualMachine.stack vm;
                       VirtualMachine.variables := VirtualMachine.variables vm;
                       VirtualMachine.stdout :=
                         VirtualMachine.stdout vm ++ [VirtualMachine.str_value v] |})
        | Raise err => (Raise err, vm)
        end
    end.

Fixpoint interp (p : list stmt) : VirtualMachine.M unit :=
  match p with
  | [] => VirtualMachine.ret tt
  | st :: rest => VirtualMachine.bind (interp_stmt st) (fun _ => interp rest)
  end.

(** Two outcomes of a machine that differ at most in the operand stack
    left behind by an exception. *)
Definition same_run (a b : result unit * VirtualMachine.t) : Prop :=
  fst a = fst b
  /\ VirtualMachine.variables (snd a) = VirtualMachine.variables (snd b)
  /\ VirtualMachine.stdout (snd a) = VirtualMachine.stdout (snd b)
  /\ (fst a = Ok tt -> VirtualMachine.stack (snd a) = VirtualMachine.stack (snd b)).

(** The exceptions arithmetic can raise. *)
Definition arithmetic_error (e : exn) : bool :=
  match e with
  | TypeError | ZeroDivisionError | OverflowError => true
  | _ => false
  end.

(** No division in the tree. *)
Fixpoint division_free (e : expr) : bool :=
  match e with
  | Num _ | Ident _ => true
  | BinOp o l r => negb (String.eqb o "/") && division_free l && division_free r
  end.

(** Every name the tree reads holds an int. *)
Fixpoint reads_ints (vars : gmap string VirtualMachine.value) (e : expr) : bool :=
  match e with
  | Num _ => true
  | Ident s =>
      match vars !! s with Some (VirtualMachine.VInt _) => true | _ => false end
  | BinOp _ l r => reads_ints vars l && reads_ints vars r
  end.

(** The number of [print] statements of a program. *)
Fixpoint prints_of (p : list stmt) : nat :=
  match p with
  | [] => 0
  | PrintStmt _ :: rest => S (prints_of rest)
  | VarDecl _ _ :: rest => prints_of rest
  end.

(** The exact shape of a token of the lexer, by kind. *)
Definition token_shape (tk : token) : bool :=
  match snd tk with
  | OInt z => String.eqb (fst tk) "NUMBER" && (0 <=? z)%Z
  | OStr s =>
      (String.eqb (fst tk) "IDENTIFIER"
       && match s with
          | String c more => is_ident_start c && string_forallb is_word more
          | EmptyString => false
          end)
      || (String.eqb (fst tk) "ASSIGN" && String.eqb s "=")
      || (String.eqb (fst tk) "SEMICOLON" && String.eqb s ";")
      || (String.eqb (fst tk) "OPERATOR" && is_op s)
      || (String.eqb (fst tk) "LPAREN" && String.eqb s "(")
      || (String.eqb (fst tk) "RPAREN" && String.eqb s ")")
  | ONone => String.eqb (fst tk) "EOF"
  | OTuple _ => false
  end.

Definition is_eof (tk : token) : bool := String.eqb (fst tk) "EOF".

(** The first word of an instruction that the machine acts on. *)
Definition is_opcode (w : string) : bool :=
  String.eqb w "ALLOC" || String.eqb w "PUSH" || String.eqb w "LOAD"
  || String.eqb w "STORE" || String.eqb w "OP" || String.eqb w "PRINT".

(** The same parser over a longer token list. *)
Definition extended (extra : list token) (s : Parser.t) : Parser.t :=
  {| Parser.tokens := Parser.tokens s ++ extra; Parser.pos := Parser.pos s |}.

(** A method whose outcome, unless it is the [IndexError] of reading past
    the end, is the same when [extra] follows the tokens. *)
Definition unread {A} (extra : list token) (m : Parser.M A) : Prop :=
  forall s r s', m s = Some (r, s') -> r <> Raise IndexError ->
    m (extended extra s) = Some (r, extended extra s').

(** The tokens between the positions of two parser objects. *)
Definition consumed (s s' : Parser.t) : list token :=
  take (Parser.pos s' - Parser.pos s) (drop (Parser.pos s) (Parser.tokens s)).

Definition is_semicolon (tk : token) : bool := String.eqb (fst tk) "SEMICOLON".

Fixpoint semicolons (l : list token) : nat :=
  match l with
  | [] => 0
  | tk :: rest => (if is_semicolon tk then 1 else 0) + semicolons rest
  end.

(** From [s] to [s'] the parser has moved forward over [n] semicolons. *)
Definition spent (n : nat) (s s' : Parser.t) : Prop :=
  Parser.tokens s' = Parser.tokens s
  /\ Parser.pos s <= Parser.pos s'
  /\ semicolons (consumed s s') = n.

(** ** The program under the limits of the interpreter *)

(** The modules above follow the language: an int of any size converts to
    text and back, and calls nest without bound. CPython, as configured by
    default, refuses to convert between an int and decimal text of more
    than 4300 digits ([ValueError]) and to nest more than 1000 calls
    ([RecursionError]). The modules below are the same methods under these
    two limits; where a limit is not reached they do what the methods
    above do. *)
Module Limits.

(** [sys.get_int_max_str_digits()]. *)
Definition int_max_str_digits : nat := 4300.

(** [sys.getrecursionlimit()]. *)
Definition recursion_limit : nat := 1000.

Fixpoint digit_count (s : string) : nat :=
  match s with
  | EmptyString => 0
  | String c rest => (if is_digit c then 1 else 0) + digit_count rest
  end.

(** [int(s)]: a literal of more digits than the limit is refused. *)
Definition int (s : string) : result Z :=
  match Py.int s with
  | Ok z =>
      if (digit_count s <=? int_max_str_digits)%nat then Ok z else Raise ValueError
  | Raise e => Raise e
  end.

(** [str(z)]: a text of more digits than the limit is refused. *)
Definition str_int (z : Z) : result string :=
  if (digit_count (Py.str_int z) <=? int_max_str_digits)%nat
  then Ok (Py.str_int z) else Raise ValueError.

(** Every int inside the object converts to text. *)
Fixpoint within (o : obj) : bool :=
  match o with
  | OInt z => (digit_count (Py.str_int z) <=? int_max_str_digits)%nat
  | OTuple items => forallb within items
  | ONone | OStr _ => true
  end.

(** [str(o)], the rendering an f-string uses. *)
Definition str (o : obj) : result string :=
  if within o then Ok (Py.str o) else Raise ValueError.

End Limits.

Module LimitedLexer.
Import Lexer.

(** [Lexer.scan] with the [int] of the interpreter. *)
Fixpoint scan (fuel : nat) (code : string) (toks : list token)
  : option (result unit * list token) :=
  match fuel with
  | O => None
  | S fuel =>
      match code with
      | EmptyString => Some (Ok tt, toks)
      | String _ next =>
          match first_match token_specification code with
          | None => scan fuel next toks
          | Some (kind, value, rest) =>
              if String.eqb kind "NUMBER" then
                match Limits.int value with
                | Ok n => scan fuel rest (toks ++ [(kind, OInt n)])
                | Raise e => Some (Raise e, toks)
                end
              else if String.eqb kind "SKIP" then scan fuel rest toks
              else if String.eqb kind "MISMATCH" then
                Some (Raise (SyntaxError ("Unexpected character: " +:+ value)), toks)
              else scan fuel rest (toks ++ [(kind, OStr value)])
          end
      end
  end.

Definition tokenize (self : t) (code : string)
  : option (result (list token) * t) :=
  match scan (S (String.length code)) code (tokens self) with
  | None => None
  | Some (Raise e, toks) =>
      Some (Raise e, {| tokens := toks; keywords := keywords self |})
  | Some (Ok _, toks) =>
      let toks := toks ++ [("EOF", ONone)] in
      Some (Ok toks, {| tokens := toks; keywords := keywords self |})
  end.

End LimitedLexer.

Module LimitedParser.
Import Parser.

#[local] Notation "'do' x <- m ; k" := (bind m (fun x => k))
  (at level 10, x name, m at level 100, k at level 200).

(** A call of a method when [frames] more calls may nest: with none left
    the call raises [RecursionError] and the method does not run;
    otherwise the method runs with one less for its own calls. A builtin
    or the constructor of an exception also takes a level while it runs;
    in the parser each of them follows a call of a method made from the
    same level, so it finds the level that call found. *)
Definition call {A} (frames : nat) (method : nat -> M A) : M A :=
  match frames with
  | O => throw RecursionError
  | S frames => method frames
  end.

Definition peek (frames : nat) : M token :=
  call frames (fun _ => Parser.peek).

Definition advance (frames : nat) : M token :=
  call frames (fun _ => Parser.advance).

Definition expect (token_type : string) (frames : nat) : M token :=
  call frames (fun frames =>
    do tk <- peek frames ;
    if String.eqb (fst tk) token_type then advance frames
    else
      do tk' <- peek frames ;
      throw (SyntaxError ("Expected " +:+ token_type +:+ ", found " +:+ fst tk'))).

Fixpoint expression (fuel frames : nat) : M obj :=
  match fuel with
  | O => starved
  | S fuel =>
      call frames (fun frames =>
        do left <- term fuel frames ;
        expression_loop fuel frames left)
  end

(** The [while] loop of [expression]; it runs in the frame of
    [expression], and [frames] is what the calls it makes may use. *)
with expression_loop (fuel frames : nat) (left : obj) : M obj :=
  match fuel with
  | O => starved
  | S fuel =>
      do tk <- peek frames ;
      if String.eqb (fst tk) "OPERATOR" then
        do op <- advance frames ;
        do right <- term fuel frames ;
        expression_loop fuel frames (OTuple [OStr "bin_op"; snd op; left; right])
      else ret left
  end

with term (fuel frames : nat) : M obj :=
  match fuel with
  | O => starved
  | S fuel =>
      call frames (fun frames =>
        do tk <- peek frames ;
        if String.eqb (fst tk) "NUMBER" then
          do a <- advance frames ; ret (tok_obj a)
        else if String.eqb (fst tk) "IDENTIFIER" then
          do a <- advance frames ; ret (tok_obj a)
        else if String.eqb (fst tk) "LPAREN" then
          do _ <- advance frames ;
          do expr <- expression fuel frames ;
          do _ <- expect "RPAREN" frames ;
          ret expr
        else throw (SyntaxError ("Unexpected token: " +:+ fst tk)))
  end.

Definition variable_declaration (fuel frames : nat) : M obj :=
  call frames (fun frames =>
    do _ <- expect "IDENTIFIER" frames ;
    do name <- expect "IDENTIFIER" frames ;
    do _ <- expect "ASSIGN" frames ;
    do value <- expression fuel frames ;
    do _ <- expect "SEMICOLON" frames ;
    ret (OTuple [OStr "var_decl"; snd name; value])).

Definition print_statement (fuel frames : nat) : M obj :=
  call frames (fun frames =>
    do _ <- expect "IDENTIFIER" frames ;
    do value <- expression fuel frames ;
    do _ <- expect "SEMICOLON" frames ;
    ret (OTuple [OStr "print"; value])).

Definition statement (fuel frames : nat) : M obj :=
  call frames (fun frames =>
    do tk <- peek frames ;
    if String.eqb (fst tk) "IDENTIFIER" && eq_str (snd tk) "var"
    then variable_declaration fuel frames
    else if String.eqb (fst tk) "IDENTIFIER" && eq_str (snd tk) "print"
    then print_statement fuel frames
    else throw (SyntaxError ("Unknown statement: " +:+ str (snd tk)))).

(** The [while] loop of [parse], in the frame of [parse]. *)
Fixpoint parse_loop (fuel frames : nat) (statements : list obj) : M (list obj) :=
  match fuel with
  | O => starved
  | S fuel =>
      do tk <- peek frames ;
      if negb (String.eqb (fst tk) "EOF") then
        do s <- statement fuel frames ;
        parse_loop fuel frames (statements ++ [s])
      else ret statements
  end.

Definition parse (frames : nat) : M (list obj) :=
  call frames (fun frames self => parse_loop (budget self) frames [] self).

End LimitedParser.

Module LimitedCodeGenerator.
Import CodeGenerator.

#[local] Notation "'do' x <- m ; k" := (bind m (fun x => k))
  (at level 10, x name, m at level 100, k at level 200).

(** A call when [frames] more calls may nest, as in the parser. The
    level a builtin takes is counted where a method calls nothing else:
    at [append]. *)
Definition call {A} (frames : nat) (method : nat -> M A) : M A :=
  match frames with
  | O => throw RecursionError
  | S frames => method frames
  end.

(** [self.instructions.append(f"{opcode} {operand}")]: the text is built
    first, then [append] is called. *)
Definition append_formatted (opcode : string) (operand : obj) (frames : nat)
  : M unit :=
  match Limits.str operand with
  | Ok text => call frames (fun _ => emit (opcode +:+ " " +:+ text))
  | Raise e => throw e
  end.

Fixpoint generate_expression (expr : obj) (frames : nat) : M unit :=
  call frames (fun frames =>
    match expr with
    | OTuple items =>
        match items with
        | [] => throw IndexError
        | tag :: fields =>
            if eq_str tag "bin_op" then
              match fields with
              | [op; left_; right_] =>
                  do _ <- generate_expression left_ frames ;
                  do _ <- generate_expression right_ frames ;
                  append_formatted "OP" op frames
              | _ => throw ValueError
              end
            else if eq_str tag "NUMBER" then
              match fields with
              | x :: _ => append_formatted "PUSH" x frames
              | [] => throw IndexError
              end
            else if eq_str tag "IDENTIFIER" then
              match fields with
              | x :: _ => append_formatted "LOAD" x frames
              | [] => throw IndexError
              end
            else ret tt
        end
    | OInt z => append_formatted "PUSH" (OInt z) frames
    | _ => ret tt
    end).

Definition generate_statement (statement : obj) (frames : nat) : M unit :=
  call frames (fun frames =>
    match head_of statement with
    | Raise e => throw e
    | Ok tag =>
        if eq_str tag "var_decl" then
          match fields_of statement with
          | [var_name; value] =>
              do _ <- append_formatted "ALLOC" var_name frames ;
              do _ <- generate_expression value frames ;
              append_formatted "STORE" var_name frames
          | _ => throw ValueError
          end
        else if eq_str tag "print" then
          match fields_of statement with
          | [value] =>
              do _ <- generate_expression value frames ;
              call frames (fun _ => emit "PRINT")
          | _ => throw ValueError
          end
        else
          match Limits.str tag with
          | Ok text => throw (RuntimeError ("Unknown statement type: " +:+ text))
          | Raise e => throw e
          end
    end).

(** The [for] loop of [generate], in the frame of [generate]. *)
Fixpoint generate_loop (ast : list obj) (frames : nat) : M unit :=
  match ast with
  | [] => ret tt
  | statement :: rest =>
      do _ <- generate_statement statement frames ;
      generate_loop rest frames
  end.

Definition generate (ast : list obj) (frames : nat) : M (list string) :=
  call frames (fun frames =>
    do _ <- generate_loop ast frames ;
    fun self => (Ok (instructions self), self)).

End LimitedCodeGenerator.

Module LimitedVirtualMachine.
Import VirtualMachine.

#[local] Notation "'do' x <- m ; k" := (bind m (fun x => k))
  (at level 10, x name, m at level 100, k at level 200).

(** [str(v)], the text [print] writes. *)
Definition str_value (v : value) : result string :=
  match v with
  | VInt z => Limits.str_int z
  | _ => Ok (VirtualMachine.str_value v)
  end.

(** [print(v)]: nothing is written when the text is refused. *)
Definition print (v : value) : M unit :=
  fun self =>
    match str_value v with
    | Ok text =>
        (Ok tt, {| stack := stack self; variables := variables self;
                   stdout := stdout self ++ [text] |})
    | Raise e => (Raise e, self)
    end.

Definition execute_instruction (instruction : string) : M unit :=
  let parts := split instruction in
  do op <- part parts 0 ;
  if String.eqb op "ALLOC" then
    do var_name <- part parts 1 ;
    set_var var_name VNone
  else if String.eqb op "PUSH" then
    do text <- part parts 1 ;
    do value <- lift (Limits.int text) ;
    push (VInt value)
  else if String.eqb op "LOAD" then
    do var_name <- part parts 1 ;
    do value <- get_var var_name ;
    push value
  else if String.eqb op "STORE" then
    do var_name <- part parts 1 ;
    do value <- pop ;
    set_var var_name value
  else if String.eqb op "OP" then
    do operator <- part parts 1 ;
    do right <- pop ;
    do left <- pop ;
    if String.eqb operator "+" then
      do v <- lift (arith Z.add (SFadd prec emax) left right) ; push v
    else if String.eqb operator "-" then
      do v <- lift (arith Z.sub (SFsub prec emax) left right) ; push v
    else if String.eqb operator "*" then
      do v <- lift (arith Z.mul (SFmul prec emax) left right) ; push v
    else if String.eqb operator "/" then
      do v <- lift (truediv left right) ; push v
    else ret tt
  else if String.eqb op "PRINT" then
    do v <- pop ;
    print v
  else ret tt.

Fixpoint execute (instructions : list string) : M unit :=
  match instructions with
  | [] => ret tt
  | instruction :: rest =>
      do _ <- execute_instruction instruction ;
      execute rest
  end.

End LimitedVirtualMachine.

(** The main block under the limits: it runs in the frame of the module,
    so each of its calls may nest [recursion_limit - 1] calls. *)
Definition limited_run (code : string) : run_result :=
  let frames := Limits.recursion_limit - 1 in
  match LimitedLexer.tokenize Lexer.__init__ code with
  | None => Starved
  | Some (Raise e, _) => Failed "tokenize" e
  | Some (Ok tokens, _) =>
      match LimitedParser.parse frames (Parser.__init__ tokens) with
      | None => Starved
      | Some (Raise e, _) => Failed "parse" e
      | Some (Ok ast, _) =>
          match LimitedCodeGenerator.generate ast frames CodeGenerator.__init__ with
          | (Raise e, _) => Failed "generate" e
          | (Ok instructions, _) =>
              match LimitedVirtualMachine.execute instructions VirtualMachine.__init__ with
              | (Raise e, _) => Failed "execute" e
              | (Ok _, vm) => Finished vm
              end
          end
      end
  end.

(** *** Vocabulary for the limits *)

(** The longest run of digits of a text, [run] digits being already
    counted. *)
Fixpoint digit_runs (run : nat) (s : string) : nat :=
  match s with
  | EmptyString => run
  | String c rest =>
      if is_digit c then digit_runs (S run) rest
      else Nat.max run (digit_runs 0 rest)
  end.

Definition longest_number (code : string) : nat := digit_runs 0 code.


(** The height of a tree: the calls of [generate_expression] that nest. *)
Fixpoint height (e : expr) : nat :=
  match e with
  | Num _ | Ident _ => 1
  | BinOp _ l r => S (Nat.max (height l) (height r))
  end.

Definition stmt_height (st : stmt) : nat :=
  match st with
  | VarDecl _ e | PrintStmt e => height e
  end.

Fixpoint program_height (p : list stmt) : nat :=
  match p with
  | [] => 0
  | st :: rest => Nat.max (stmt_height st) (program_height rest)
  end.

(** An int whose text is within the limit. *)
Definition convertible (z : Z) : bool :=
  (Limits.digit_count (str_int z) <=? Limits.int_max_str_digits)%nat.

(** Every literal of the tree is. *)
Fixpoint literals_within (e : expr) : bool :=
  match e with
  | Num z => convertible z
  | Ident _ => true
  | BinOp _ l r => literals_within l && literals_within r
  end.

Definition stmt_within (st : stmt) : bool :=
  match st with
  | VarDecl _ e | PrintStmt e => literals_within e
  end.

(** A line of output within the limit. *)
Definition line_within (line : string) : bool :=
  (Limits.digit_count line <=? Limits.int_max_str_digits)%nat.

(** A method under the limit does what the method without it does, or
    raises [RecursionError]. *)
Definition tracks {A} (limited unlimited : Parser.M A) : Prop :=
  forall s, limited s = unlimited s
            \/ exists s', limited s = Some (Raise RecursionError, s').




(** It returned the tokens [toks]. *)
Definition accepts (code : string) (toks : list token) : Prop :=
  exists lx, LimitedLexer.tokenize Lexer.__init__ code = Some (Ok toks, lx).


(** One of the two exceptions of the limits; the [ValueError] only when
    [within] does not hold. *)
Definition limit_error (within : bool) {A} (r : result A) : Prop :=
  r = Raise RecursionError \/ (r = Raise ValueError /\ within = false).

(** * Proofs *)

(** ** Strings *)

Lemma append_cons (c : ascii) (s t : string) :
  String c s +:+ t = String c (s +:+ t).
Proof. reflexivity. Qed.

Lemma append_empty_l (t : string) : "" +:+ t = t.
Proof. reflexivity. Qed.

Lemma append_empty_r (s : string) : s +:+ "" = s.
Proof.
  induction s as [|c s IH]; [reflexivity |].
  now rewrite append_cons, IH.
Qed.

Lemma append_assoc (a b c : string) : (a +:+ b) +:+ c = a +:+ (b +:+ c).
Proof.
  induction a as [|x a IH]; [reflexivity |].
  now rewrite !append_cons, IH.
Qed.

Lemma append_is_empty (a b : string) :
  String.eqb (a +:+ b) "" = String.eqb a "" && String.eqb b "".
Proof. destruct a; [now destruct b | reflexivity]. Qed.

Lemma forallb_append p (a b : string) :
  string_forallb p (a +:+ b) = string_forallb p a && string_forallb p b.
Proof.
  induction a as [|x a IH]; [reflexivity |].
  rewrite append_cons. simpl. rewrite IH. now rewrite andb_assoc.
Qed.

Lemma span_forallb p (s : string) : string_forallb p (fst (span p s)) = true.
Proof.
  induction s as [|c s IH]; simpl; [reflexivity |].
  destruct (p c) eqn:Hc; [| reflexivity].
  destruct (span p s) as [pre post]. simpl in *. now rewrite Hc, IH.
Qed.

Lemma span_append p (s : string) : fst (span p s) +:+ snd (span p s) = s.
Proof.
  induction s as [|c s IH]; simpl; [reflexivity |].
  destruct (p c); [| reflexivity].
  destruct (span p s) as [pre post]. simpl in *. now rewrite append_cons, IH.
Qed.

Lemma span_length p (s : string) :
  String.length (snd (span p s)) <= String.length s.
Proof.
  induction s as [|c s IH]; simpl; [lia |].
  destruct (p c); [| simpl; lia].
  destruct (span p s) as [pre post]. simpl in *. lia.
Qed.

Lemma forallb_weaken (p q : ascii -> bool) (s : string) :
  (forall c, p c = true -> q c = true) ->
  string_forallb p s = true -> string_forallb q s = true.
Proof.
  intros Hpq. induction s as [|c s IH]; simpl; [reflexivity |].
  intros [Hc Hs]%andb_prop. now rewrite (Hpq _ Hc), IH.
Qed.

(** ** [split] on the words the code generator writes *)

Lemma split_from_word (w cur rest : string) :
  string_forallb (fun c => negb (is_space c)) w = true ->
  split_from cur (w +:+ rest) = split_from (cur +:+ w) rest.
Proof.
  revert cur. induction w as [|c w IH]; intros cur Hw; simpl in *.
  - now rewrite append_empty_l, append_empty_r.
  - apply andb_prop in Hw as [Hc Hw].
    apply negb_true_iff in Hc. rewrite ?append_cons. simpl.
    rewrite Hc, IH by assumption.
    now rewrite append_assoc.
Qed.

Lemma split_name (w : string) : is_name w = true -> split w = [w].
Proof.
  unfold is_name, split. intros [Hne Hw]%andb_prop.
  rewrite <- (append_empty_r w) at 1.
  rewrite split_from_word, append_empty_l by assumption. simpl.
  apply negb_true_iff in Hne. now rewrite Hne.
Qed.

Lemma split_two (kw w : string) :
  is_name kw = true -> is_name w = true ->
  split (kw +:+ " " +:+ w) = [kw; w].
Proof.
  unfold is_name, split. intros [Hk1 Hk2]%andb_prop Hw.
  rewrite split_from_word, append_empty_l, append_cons by assumption. simpl.
  apply negb_true_iff in Hk1. rewrite Hk1, append_empty_l.
  f_equal. now apply split_name.
Qed.

Lemma split_one (kw : string) : is_name kw = true -> split kw = [kw].
Proof. apply split_name. Qed.

(** ** [int] reads back what [str] wrote *)

Lemma uint_of_char_digit (c : ascii) (d d' : uint) :
  uint_of_char c (Some d) = Some d' -> is_digit c = true.
Proof.
  intros H. apply uint_of_char_spec in H.
  repeat (destruct H as [[-> _] | H]; [reflexivity |]).
  destruct H as [-> _]. reflexivity.
Qed.

Lemma string_of_uint_digits (d : uint) :
  string_forallb is_digit (NilEmpty.string_of_uint d) = true.
Proof. induction d; simpl; auto. Qed.

Lemma digits_of_string_of_uint (d : uint) :
  d <> Nil -> digits_of (NilEmpty.string_of_uint d) = Some d.
Proof.
  induction d as [|d IH|d IH|d IH|d IH|d IH|d IH|d IH|d IH|d IH|d IH];
    intros Hd; [congruence | ..];
    (destruct d; [reflexivity | ..];
     cbn [NilEmpty.string_of_uint digits_of] in *;
     cbn [code N_of_ascii N_of_digits N.eqb N.add N.mul Pos.eqb Pos.add Pos.mul];
     (rewrite IH by discriminate); reflexivity).
Qed.

Lemma lstrip_id p (s : string) :
  string_forallb (fun c => negb (p c)) s = true -> lstrip p s = s.
Proof.
  unfold lstrip. destruct s as [|c s]; simpl; [reflexivity |].
  intros [Hc _]%andb_prop. apply negb_true_iff in Hc. now rewrite Hc.
Qed.

Lemma rstrip_id p (s : string) :
  string_forallb (fun c => negb (p c)) s = true -> rstrip p s = s.
Proof.
  induction s as [|c s IH]; simpl; [reflexivity |].
  intros [Hc Hs]%andb_prop. apply negb_true_iff in Hc.
  rewrite (IH Hs), Hc. now destruct s.
Qed.

Lemma digit_not_int_space (c : ascii) :
  is_digit c = true -> negb (is_int_space c) = true.
Proof.
  destruct c as [[] [] [] [] [] [] [] []]; vm_compute; congruence.
Qed.

Lemma digit_not_space (c : ascii) :
  is_digit c = true -> negb (is_space c) = true.
Proof.
  destruct c as [[] [] [] [] [] [] [] []]; vm_compute; congruence.
Qed.

Lemma digit_not_sign (c : ascii) :
  is_digit c = true -> (code c =? 45)%N = false /\ (code c =? 43)%N = false.
Proof.
  destruct c as [[] [] [] [] [] [] [] []]; vm_compute; intuition congruence.
Qed.

Lemma uint_of_digit (c : ascii) (d : uint) :
  is_digit c = true -> exists d', uint_of_char c (Some d) = Some d'.
Proof.
  destruct c as [[] [] [] [] [] [] [] []]; vm_compute; intros H;
    try discriminate; eauto.
Qed.

Lemma digit_not_underscore (c : ascii) :
  is_digit c = true -> (code c =? 95)%N = false.
Proof.
  destruct c as [[] [] [] [] [] [] [] []]; vm_compute; congruence.
Qed.

(** A nonempty run of digits is a number. *)
Lemma digits_of_digits (s : string) :
  s <> "" -> string_forallb is_digit s = true -> exists d, digits_of s = Some d.
Proof.
  induction s as [|c s IH]; [congruence |]. intros _ Hs.
  simpl in Hs. apply andb_prop in Hs as [Hc Hs].
  destruct s as [|u s'].
  - simpl. now apply uint_of_digit.
  - destruct (IH ltac:(discriminate) Hs) as [d Hd].
    assert (Hu : is_digit u = true) by (simpl in Hs; now apply andb_prop in Hs).
    change (digits_of (String c (String u s')))
      with (if (code u =? 95)%N then uint_of_char c (digits_of s')
            else uint_of_char c (digits_of (String u s'))).
    rewrite (digit_not_underscore u Hu), Hd. now apply uint_of_digit.
Qed.

Lemma int_of_digits (s : string) (d : uint) :
  string_forallb is_digit s = true -> digits_of s = Some d ->
  int s = Ok (Z.of_int (Pos d)).
Proof.
  intros Hs Hd. unfold int.
  assert (Hsp : string_forallb (fun c => negb (is_int_space c)) s = true)
    by (eapply forallb_weaken; [apply digit_not_int_space | exact Hs]).
  rewrite (lstrip_id _ _ Hsp), (rstrip_id _ _ Hsp).
  destruct s as [|c s]; [discriminate |].
  simpl in Hs. apply andb_prop in Hs as [Hc _].
  destruct (digit_not_sign c Hc) as [-> ->]. now rewrite Hd.
Qed.

Lemma int_digits_ok (s : string) :
  s <> "" -> string_forallb is_digit s = true -> exists n, int s = Ok n.
Proof.
  intros Hne Hs. destruct (digits_of_digits s Hne Hs) as [d Hd].
  exists (Z.of_int (Pos d)). apply int_of_digits; assumption.
Qed.

Lemma int_str_int (z : Z) : int (str_int z) = Ok z.
Proof.
  unfold str_int. rewrite <- (DecimalZ.of_to z) at 2.
  destruct z as [|p|p]; [reflexivity | |]; simpl Z.to_int.
  - pose proof (Unsigned.to_uint_nonnil p) as Hnn.
    unfold NilZero.string_of_int, NilZero.string_of_uint.
    destruct (Pos.to_uint p) eqn:E; try congruence; rewrite <- E in *;
      (apply int_of_digits;
       [apply string_of_uint_digits | now apply digits_of_string_of_uint]).
  - pose proof (Unsigned.to_uint_nonnil p) as Hnn.
    unfold NilZero.string_of_int, NilZero.string_of_uint.
    assert (Hs : NilEmpty.string_of_uint (Pos.to_uint p) <> ""
                 /\ string_forallb is_digit (NilEmpty.string_of_uint (Pos.to_uint p)) = true
                 /\ digits_of (NilEmpty.string_of_uint (Pos.to_uint p)) = Some (Pos.to_uint p)).
    { split; [| split; [apply string_of_uint_digits | now apply digits_of_string_of_uint]].
      destruct (Pos.to_uint p); try congruence; discriminate. }
    destruct Hs as (Hne & Hdig & Hd).
    destruct (Pos.to_uint p) eqn:E; try congruence; rewrite <- E in *;
    set (s := NilEmpty.string_of_uint (Pos.to_uint p)) in *;
    (unfold int;
     assert (Hsp : string_forallb (fun c => negb (is_int_space c)) (String "-" s) = true)
       by (simpl; eapply forallb_weaken; [apply digit_not_int_space | exact Hdig]);
     rewrite (lstrip_id _ _ Hsp), (rstrip_id _ _ Hsp);
     change (code "-" =? 45)%N with true; cbv iota; now rewrite Hd).
Qed.

Lemma str_int_name (z : Z) : is_name (str_int z) = true.
Proof.
  unfold str_int, is_name.
  assert (H : forall d, d <> Nil ->
     is_name (NilEmpty.string_of_uint d) = true).
  { intros d Hd. unfold is_name. apply andb_true_intro. split.
    - destruct d; try congruence; reflexivity.
    - eapply forallb_weaken; [apply digit_not_space | apply string_of_uint_digits]. }
  destruct z as [|p|p]; [reflexivity | |]; simpl Z.to_int;
    pose proof (Unsigned.to_uint_nonnil p) as Hnn;
    specialize (H _ Hnn); unfold is_name in H;
    unfold NilZero.string_of_int, NilZero.string_of_uint.
  - destruct (Pos.to_uint p); try congruence; exact H.
  - apply andb_prop in H as [_ H].
    destruct (Pos.to_uint p); try congruence; simpl; exact H.
Qed.

(** ** One instruction of the virtual machine *)

Section Instructions.
Import VirtualMachine.

Lemma exec_ALLOC (n : string) (vm : t) :
  is_name n = true ->
  execute_instruction ("ALLOC " +:+ n) vm = set_var n VNone vm.
Proof.
  intros Hn. unfold execute_instruction.
  change ("ALLOC " +:+ n) with ("ALLOC" +:+ " " +:+ n).
  now rewrite split_two.
Qed.

Lemma exec_PUSH (z : Z) (vm : t) :
  execute_instruction ("PUSH " +:+ str_int z) vm = push (VInt z) vm.
Proof.
  unfold execute_instruction.
  change ("PUSH " +:+ str_int z) with ("PUSH" +:+ " " +:+ str_int z).
  rewrite split_two by (reflexivity || apply str_int_name).
  cbn. unfold bind at 1. cbn. now rewrite int_str_int.
Qed.

Lemma exec_LOAD (n : string) (vm : t) :
  is_name n = true ->
  execute_instruction ("LOAD " +:+ n) vm
  = push (default VNone (variables vm !! n)) vm.
Proof.
  intros Hn. unfold execute_instruction.
  change ("LOAD " +:+ n) with ("LOAD" +:+ " " +:+ n).
  now rewrite split_two.
Qed.

Lemma exec_STORE (n : string) (vm : t) :
  is_name n = true ->
  execute_instruction ("STORE " +:+ n) vm
  = bind pop (fun value => set_var n value) vm.
Proof.
  intros Hn. unfold execute_instruction.
  change ("STORE " +:+ n) with ("STORE" +:+ " " +:+ n).
  now rewrite split_two.
Qed.

Lemma exec_PRINT (vm : t) :
  execute_instruction "PRINT" vm = bind pop print vm.
Proof. reflexivity. Qed.

Lemma is_op_cases (o : string) :
  is_op o = true -> o = "+" \/ o = "-" \/ o = "*" \/ o = "/".
Proof.
  unfold is_op. intros H.
  repeat (apply orb_prop in H as [H | H]);
    apply String.eqb_eq in H; auto.
Qed.

Lemma is_op_name (o : string) : is_op o = true -> is_name o = true.
Proof.
  intros H. destruct (is_op_cases o H) as [-> | [-> | [-> | ->]]]; reflexivity.
Qed.

Lemma exec_OP (o : string) (vm : t) :
  is_op o = true ->
  execute_instruction ("OP " +:+ o) vm
  = bind pop (fun right => bind pop (fun left =>
      bind (lift (apply_op o left right)) push)) vm.
Proof.
  intros Ho. unfold execute_instruction.
  change ("OP " +:+ o) with ("OP" +:+ " " +:+ o).
  rewrite split_two by (reflexivity || now apply is_op_name).
  destruct (is_op_cases o Ho) as [-> | [-> | [-> | ->]]]; reflexivity.
Qed.
End Instructions.

(** ** The claims about single instructions *)

Section MachineClaims.
Import VirtualMachine.

(** C5. [STORE name] pops the top of the stack and binds [name] to it,
  whatever the variable store holds: no earlier [ALLOC] of the name is
  asked for, and the binding is there afterwards. *)
Theorem C5_store_without_alloc
  (vm : VirtualMachine.t) (name : string) (v : value) (rest : list value) :
is_name name = true ->
stack vm = v :: rest ->
execute_instruction ("STORE " +:+ name) vm
= (Ok tt, {| stack := rest;
             variables := <[name := v]> (variables vm);
             stdout := stdout vm |})
/\ forall vm', execute_instruction ("STORE " +:+ name) vm = (Ok tt, vm') ->
     variables vm' !! name = Some v.
Proof.
intros Hn Hs.
assert (E : execute_instruction ("STORE " +:+ name) vm
  = (Ok tt, {| stack := rest; variables := <[name := v]> (variables vm);
               stdout := stdout vm |})).
{ rewrite exec_STORE by assumption. unfold bind, pop. now rewrite Hs. }
split; [exact E |].
intros vm' E'. rewrite E in E'. injection E' as <-. simpl.
apply lookup_insert_eq.
Qed.

Lemma C5_witness :
let vm := {| stack := [VInt 7]; variables := ∅; stdout := [] |} in
is_name "x" = true /\ stack vm = [VInt 7] /\ variables vm !! "x" = None
/\ execute_instruction "STORE x" vm
   = (Ok tt, {| stack := []; variables := <["x" := VInt 7]> ∅; stdout := [] |}).
Proof.
intros vm. split; [reflexivity |]. split; [reflexivity |].
split; [reflexivity |].
exact (proj1 (C5_store_without_alloc vm "x" (VInt 7) [] eq_refl eq_refl)).
Defined.

(** C8. [ALLOC name] binds the name to [None] whatever it held before;
  the [PUSH] and [STORE] that follow it in a declaration then bind it to
  the new initializer; the program with two declarations of [x] prints
  the second value. *)
Theorem C8_redeclaration_resets
  (vm : VirtualMachine.t) (name : string) (z : Z) :
is_name name = true ->
execute_instruction ("ALLOC " +:+ name) vm
= (Ok tt, {| stack := stack vm;
             variables := <[name := VNone]> (variables vm);
             stdout := stdout vm |})
/\ execute ["ALLOC " +:+ name; "PUSH " +:+ str_int z; "STORE " +:+ name] vm
   = (Ok tt, {| stack := stack vm;
                variables := <[name := VInt z]> (variables vm);
                stdout := stdout vm |})
/\ prints "var x = 10; var x = 20; print x;" ["20"].
Proof.
intros Hn. split; [| split].
- now rewrite exec_ALLOC.
- cbn [execute]. unfold bind at 1. rewrite exec_ALLOC by assumption.
  unfold set_var at 1. unfold bind at 1. rewrite exec_PUSH. unfold push at 1.
  unfold bind at 1. rewrite exec_STORE by assumption.
  unfold bind, pop, set_var, ret. cbn. now rewrite insert_insert_eq.
- vm_compute. reflexivity.
Qed.

Lemma C8_witness :
let vm := {| stack := []; variables := <["x" := VInt 10]> ∅; stdout := [] |} in
is_name "x" = true
/\ execute_instruction "ALLOC x" vm
   = (Ok tt, {| stack := []; variables := <["x" := VNone]> (<["x" := VInt 10]> ∅);
                stdout := [] |}).
Proof.
intros vm. split; [reflexivity |].
exact (proj1 (C8_redeclaration_resets vm "x" 20 eq_refl)).
Defined.

(** C3 (as stated) fails: [print y;] without a declaration of [y] runs to
  the end and writes [None]. *)
Lemma C3_counterexample : prints "print y;" ["None"].
Proof. vm_compute. reflexivity. Qed.

Lemma arith_none (fi : Z -> Z -> Z) ff (l r : value) :
l = VNone \/ r = VNone -> arith fi ff l r = Raise TypeError.
Proof. intros [-> | ->]; [reflexivity | now destruct l]. Qed.

Lemma truediv_none (l r : value) :
l = VNone \/ r = VNone -> truediv l r = Raise TypeError.
Proof. intros [-> | ->]; [reflexivity | now destruct l]. Qed.

Lemma apply_op_none (o : string) (l r : value) :
l = VNone \/ r = VNone -> apply_op o l r = Raise TypeError.
Proof.
intros H. unfold apply_op.
repeat (destruct (String.eqb o _)); auto using arith_none, truediv_none.
Qed.

(** C3 (amended). [LOAD] of a name that was never allocated raises
  nothing and pushes [None]; an arithmetic [OP] with [None] as an operand
  raises [TypeError]; [PRINT] writes the text of the value it pops, which
  is [None] for an uninitialized one, and raises [IndexError] on an empty
  stack. *)
Theorem C3_machine_errors (vm : VirtualMachine.t) :
(forall name, is_name name = true -> variables vm !! name = None ->
   execute_instruction ("LOAD " +:+ name) vm
   = (Ok tt, {| stack := VNone :: stack vm; variables := variables vm;
                stdout := stdout vm |}))
/\ (forall o l r rest, is_op o = true -> stack vm = r :: l :: rest ->
      l = VNone \/ r = VNone ->
      fst (execute_instruction ("OP " +:+ o) vm) = Raise TypeError)
/\ (forall v rest, stack vm = v :: rest ->
      execute_instruction "PRINT" vm
      = (Ok tt, {| stack := rest; variables := variables vm;
                   stdout := stdout vm ++ [str_value v] |}))
/\ (stack vm = [] ->
      fst (execute_instruction "PRINT" vm) = Raise IndexError)
/\ str_value VNone = "None"
/\ prints "print y;" ["None"].
Proof.
refine (conj _ (conj _ (conj _ (conj _ (conj eq_refl _))))).
- intros name Hn Hv. rewrite exec_LOAD by assumption. now rewrite Hv.
- intros o l r rest Ho Hs Hnone. rewrite exec_OP by assumption.
  unfold bind, pop. rewrite Hs. cbn. now rewrite apply_op_none.
- intros v rest Hs. rewrite exec_PRINT. unfold bind, pop. now rewrite Hs.
- intros Hs. rewrite exec_PRINT. unfold bind, pop. now rewrite Hs.
- vm_compute. reflexivity.
Qed.

Lemma C3_witness :
let vm := {| stack := [VInt 1; VNone]; variables := ∅; stdout := [] |} in
is_name "y" = true /\ variables vm !! "y" = None
/\ execute_instruction "LOAD y" vm
   = (Ok tt, {| stack := [VNone; VInt 1; VNone]; variables := ∅; stdout := [] |})
/\ fst (execute_instruction "OP +" vm) = Raise TypeError.
Proof.
intros vm. split; [reflexivity |]. split; [reflexivity |]. split.
- exact (proj1 (C3_machine_errors vm) "y" eq_refl eq_refl).
- exact (proj1 (proj2 (C3_machine_errors vm)) "+" VNone (VInt 1) []
           eq_refl eq_refl (or_introl eq_refl)).
Defined.

Lemma truediv_float (l r v : value) :
truediv l r = Ok v -> exists f, v = VFloat f.
Proof.
unfold truediv, float_truediv. intros H.
destruct l as [|a|x], r as [|b|y]; try discriminate;
  repeat match type of H with
  | context [match ?e with _ => _ end] => destruct e eqn:?; try discriminate
  end; injection H as <-; eauto.
Qed.

(** C2. Whenever [OP /] returns, the value it leaves on the stack is a
  float, also for an exact quotient; [OP +], [OP -] and [OP *] on two ints
  leave the exact int. The three programs print [2.0], [2.5] and [3]. *)
Theorem C2_division_is_float
  (vm : VirtualMachine.t) (l r : value) (rest : list value) :
stack vm = r :: l :: rest ->
(forall vm', execute_instruction "OP /" vm = (Ok tt, vm') ->
   exists f, stack vm' = VFloat f :: rest)
/\ (forall a b, l = VInt a -> r = VInt b ->
      let leaves z :=
        (Ok tt, {| stack := VInt z :: rest; variables := variables vm;
                   stdout := stdout vm |}) in
      execute_instruction "OP +" vm = leaves (a + b)%Z
      /\ execute_instruction "OP -" vm = leaves (a - b)%Z
      /\ execute_instruction "OP *" vm = leaves (a * b)%Z)
/\ prints "print(4/2);" ["2.0"]
/\ prints "print(5/2);" ["2.5"]
/\ prints "print(5-2);" ["3"].
Proof.
intros Hs. refine (conj _ (conj _ (conj _ (conj _ _))));
  [| | vm_compute; reflexivity ..].
- intros vm'. rewrite (exec_OP "/") by reflexivity.
  unfold bind, pop. rewrite Hs. cbn.
  change (apply_op "/" l r) with (truediv l r).
  destruct (truediv l r) as [v|e] eqn:E; cbn; [| discriminate].
  intros [= <-]. cbn. destruct (truediv_float _ _ _ E) as [f ->]. eauto.
- intros a b -> ->.
  rewrite (exec_OP "+"), (exec_OP "-"), (exec_OP "*") by reflexivity.
  unfold bind, pop. rewrite Hs. cbn. auto.
Qed.

Lemma C2_witness :
let vm := {| stack := [VInt 2; VInt 4]; variables := ∅; stdout := [] |} in
stack vm = [VInt 2; VInt 4]
/\ (exists f, stack (snd (execute_instruction "OP /" vm)) = [VFloat f])
/\ execute_instruction "OP -" vm
   = (Ok tt, {| stack := [VInt 2]; variables := ∅; stdout := [] |}).
Proof.
intros vm. split; [reflexivity |].
pose proof (C2_division_is_float vm (VInt 4) (VInt 2) [] eq_refl) as H.
split.
- exact (proj1 H (snd (execute_instruction "OP /" vm)) eq_refl).
- exact (proj1 (proj2 (proj1 (proj2 H) 4%Z 2%Z eq_refl eq_refl))).
Defined.
End MachineClaims.

(** ** The lexer *)

Section LexerFacts.
Import Lexer.

Lemma first_match_spec (c : ascii) (rest : string) :
  first_match token_specification (String c rest) =
  if is_digit c then
    Some ("NUMBER", String c (fst (span is_digit rest)), snd (span is_digit rest))
  else if is_ident_start c then
    Some ("IDENTIFIER", String c (fst (span is_word rest)), snd (span is_word rest))
  else if (code c =? 61)%N then Some ("ASSIGN", str1 c, rest)
  else if (code c =? 59)%N then Some ("SEMICOLON", str1 c, rest)
  else if is_operator c then Some ("OPERATOR", str1 c, rest)
  else if (code c =? 40)%N then Some ("LPAREN", str1 c, rest)
  else if (code c =? 41)%N then Some ("RPAREN", str1 c, rest)
  else if is_blank c then
    Some ("SKIP", String c (fst (span is_blank rest)), snd (span is_blank rest))
  else if is_any c then Some ("MISMATCH", str1 c, rest)
  else None.
Proof.
  unfold token_specification, first_match, match_at.
  destruct (is_digit c); [now destruct (span is_digit rest) |].
  destruct (is_ident_start c); [now destruct (span is_word rest) |].
  destruct (code c =? 61)%N; [reflexivity |].
  destruct (code c =? 59)%N; [reflexivity |].
  destruct (is_operator c); [reflexivity |].
  destruct (code c =? 40)%N; [reflexivity |].
  destruct (code c =? 41)%N; [reflexivity |].
  destruct (is_blank c); [now destruct (span is_blank rest) |].
  now destruct (is_any c).
Qed.

Lemma scan_step (fuel : nat) (c : ascii) (rest : string) (toks : list token) :
  scan (S fuel) (String c rest) toks =
  match lex_step c rest with
  | Emit tk rest' => scan fuel rest' (toks ++ [tk])
  | Skip rest' => scan fuel rest' toks
  | Stop e => Some (Raise e, toks)
  end.
Proof.
  cbn [scan]. unfold lex_step.
  destruct (first_match token_specification (String c rest))
    as [[[kind value] rest']|]; [| reflexivity].
  destruct (String.eqb kind "NUMBER"); [now destruct (int value) |].
  destruct (String.eqb kind "SKIP"); [reflexivity |].
  now destruct (String.eqb kind "MISMATCH").
Qed.

(** The cases of one step, by the class of the character. *)
Lemma lex_step_spec (c : ascii) (rest : string) :
  lex_step c rest =
  if is_digit c then
    match int (String c (fst (span is_digit rest))) with
    | Ok n => Emit ("NUMBER", OInt n) (snd (span is_digit rest))
    | Raise e => Stop e
    end
  else if is_ident_start c then
    Emit ("IDENTIFIER", OStr (String c (fst (span is_word rest))))
         (snd (span is_word rest))
  else if (code c =? 61)%N then Emit ("ASSIGN", OStr (str1 c)) rest
  else if (code c =? 59)%N then Emit ("SEMICOLON", OStr (str1 c)) rest
  else if is_operator c then Emit ("OPERATOR", OStr (str1 c)) rest
  else if (code c =? 40)%N then Emit ("LPAREN", OStr (str1 c)) rest
  else if (code c =? 41)%N then Emit ("RPAREN", OStr (str1 c)) rest
  else if is_blank c then Skip (snd (span is_blank rest))
  else if is_any c then
    Stop (SyntaxError ("Unexpected character: " +:+ str1 c))
  else Skip rest.
Proof.
  unfold lex_step. rewrite first_match_spec.
  repeat (match goal with
          | |- context [if ?b then _ else _] => destruct b; [reflexivity |]
          end).
  reflexivity.
Qed.

Lemma int_digit_run (c : ascii) (rest : string) :
  is_digit c = true ->
  exists n, int (String c (fst (span is_digit rest))) = Ok n.
Proof.
  intros Hc. apply int_digits_ok; [discriminate |].
  simpl. now rewrite Hc, span_forallb.
Qed.

Lemma lex_step_shorter (c : ascii) (rest : string) :
  match lex_step c rest with
  | Emit _ rest' | Skip rest' => String.length rest' <= String.length rest
  | Stop _ => True
  end.
Proof.
  rewrite lex_step_spec.
  repeat (match goal with
          | |- context [if ?b then _ else _] => destruct b eqn:?
          | |- context [match int ?s with _ => _ end] => destruct (int s)
          end; try apply span_length; try exact I; try lia).
Qed.

Lemma scan_terminates (fuel : nat) (code : string) (toks : list token) :
  String.length code < fuel -> is_Some (scan fuel code toks).
Proof.
  revert code toks. induction fuel as [|fuel IH]; intros code toks Hf; [lia |].
  destruct code as [|c rest]; [cbn; eauto |].
  rewrite scan_step. pose proof (lex_step_shorter c rest) as Hs.
  simpl in Hf. destruct (lex_step c rest); [apply IH; lia | apply IH; lia | eauto].
Qed.


Lemma tokenize_terminates (self : t) (code : string) :
  is_Some (tokenize self code).
Proof.
  unfold tokenize.
  destruct (scan_terminates (S (String.length code)) code (tokens self))
    as [[[u|e] toks] ->]; [lia | eauto ..].
Qed.

(** *** What a lexer object carries over to its next call *)

Lemma scan_prefix (fuel : nat) (code : string) (pre toks : list token) :
  scan fuel code (pre ++ toks) = prefixed pre (scan fuel code toks).
Proof.
  revert code toks. induction fuel as [|fuel IH]; intros code toks;
    [reflexivity |].
  destruct code as [|c rest]; [reflexivity |].
  rewrite !scan_step. destruct (lex_step c rest); [| apply IH | reflexivity].
  rewrite <- app_assoc. apply IH.
Qed.

(** *** The shape of the tokens *)

Lemma word_not_space (c : ascii) : is_word c = true -> negb (is_space c) = true.
Proof. destruct c as [[] [] [] [] [] [] [] []]; vm_compute; congruence. Qed.

Lemma ident_start_not_space (c : ascii) :
  is_ident_start c = true -> negb (is_space c) = true.
Proof. destruct c as [[] [] [] [] [] [] [] []]; vm_compute; congruence. Qed.

Lemma operator_is_op (c : ascii) : is_operator c = true -> is_op (str1 c) = true.
Proof. destruct c as [[] [] [] [] [] [] [] []]; vm_compute; congruence. Qed.

Lemma lex_step_token (c : ascii) (rest rest' : string) (tk : token) :
  lex_step c rest = Emit tk rest' ->
  token_ok tk = true /\ emitted_kind tk = true.
Proof.
  rewrite lex_step_spec.
  repeat (match goal with
          | |- context [if ?b then _ else _] => destruct b eqn:?
          | |- context [match int ?s with _ => _ end] => destruct (int s)
          end; try discriminate);
    intros [= <- _]; split; try reflexivity.
  - unfold token_ok, is_name. simpl.
    rewrite ident_start_not_space by assumption. simpl.
    eapply forallb_weaken; [apply word_not_space | apply span_forallb].
  - unfold token_ok. simpl. now apply operator_is_op.
Qed.

Lemma scan_tokens (fuel : nat) (code : string) (toks toks' : list token) r
    (P : token -> bool) :
  (forall c rest rest' tk, lex_step c rest = Emit tk rest' -> P tk = true) ->
  forallb P toks = true ->
  scan fuel code toks = Some (r, toks') -> forallb P toks' = true.
Proof.
  intros HP. revert code toks. induction fuel as [|fuel IH];
    intros code toks Ht H; [discriminate |].
  destruct code as [|c rest]; [now injection H as <- <- |].
  rewrite scan_step in H. destruct (lex_step c rest) as [tk rest'| rest'| e] eqn:E.
  - apply IH in H; [exact H |]. rewrite forallb_app, Ht. simpl.
    now rewrite (HP _ _ _ _ E).
  - eapply IH; eauto.
  - now injection H as <- <-.
Qed.
End LexerFacts.

Section LexerErrors.
Import Lexer.










Lemma span_snd_cons p (c : ascii) (rest : string) :
  snd (span p (String c rest))
  = if p c then snd (span p rest) else String c rest.
Proof. simpl. destruct (p c); [now destruct (span p rest) | reflexivity]. Qed.





Lemma tokenize_accumulates (self : t) (code : string) :
  tokenize self code =
  match tokenize __init__ code with
  | Some (Ok toks, _) =>
      Some (Ok (tokens self ++ toks),
            {| tokens := tokens self ++ toks; keywords := keywords self |})
  | Some (Raise e, lx) =>
      Some (Raise e,
            {| tokens := tokens self ++ tokens lx; keywords := keywords self |})
  | None => None
  end.
Proof.
  unfold tokenize. rewrite <- (app_nil_r (tokens self)) at 1.
  rewrite scan_prefix. simpl tokens.
  destruct (scan _ code []) as [[[u|e] toks]|]; simpl; [| reflexivity ..].
  now rewrite app_assoc.
Qed.
End LexerErrors.



(** ** The parser: progress, the EOF sentinel, termination *)

Section ParserFacts.
Import Parser.

Lemma bind_Some {A B} (m : M A) (k : A -> M B) s r s' :
  bind m k s = Some (r, s') ->
  (exists e, m s = Some (Raise e, s') /\ r = Raise e)
  \/ (exists a s1, m s = Some (Ok a, s1) /\ k a s1 = Some (r, s')).
Proof.
  unfold bind. destruct (m s) as [[[a|e] s1]|]; [| | discriminate].
  - right. eauto.
  - intros [= <- <-]. left. eauto.
Qed.



Lemma expect_Some ty s r s' :
  expect ty s = Some (r, s') ->
  (exists tk, tokens s !! pos s = Some tk /\ fst tk = ty
              /\ r = Ok tk /\ s' = stepped s)
  \/ (exists tk, tokens s !! pos s = Some tk /\ fst tk <> ty
              /\ r = Raise (SyntaxError
                     ("Expected " +:+ ty +:+ ", found " +:+ fst tk))
              /\ s' = s)
  \/ (tokens s !! pos s = None /\ r = Raise IndexError /\ s' = s).
Proof.
  unfold expect, bind, peek, advance, throw.
  destruct (tokens s !! pos s) as [tk|] eqn:E.
  - destruct (String.eqb_spec (fst tk) ty) as [Hty|Hty].
    + rewrite E. intros [= <- <-]. left. eauto.
    + rewrite E. intros [= <- <-]. right. left. eauto 10.
  - intros [= <- <-]. auto.
Qed.

Lemma lookup_in_range (s : t) tk :
  tokens s !! pos s = Some tk -> pos s < length (tokens s).
Proof. apply lookup_lt_Some. Qed.

Lemma guarded_lookup (s : t) :
  guarded s -> exists tk, tokens s !! pos s = Some tk.
Proof.
  intros (i & v & Hi & Hl). apply lookup_lt_Some in Hl.
  apply lookup_lt_is_Some_2. lia.
Qed.

Lemma guarded_stepped (s : t) tk :
  guarded s -> tokens s !! pos s = Some tk -> fst tk <> "EOF" ->
  guarded (stepped s).
Proof.
  intros (i & v & Hi & Hl) Htk Hne. exists i, v. split; [| exact Hl].
  simpl. destruct (decide (i = pos s)) as [->|]; [| lia].
  rewrite Hl in Htk. injection Htk as <-. now destruct Hne.
Qed.

Lemma post_expect ty s r s' :
  ty <> "EOF" -> expect ty s = Some (r, s') -> post true s r s'.
Proof.
  intros Hty H. apply expect_Some in H
    as [(tk & Hl & Hk & -> & ->) | [(tk & Hl & Hk & -> & ->) | (Hl & -> & ->)]].
  - split; [reflexivity |]. simpl. repeat split; try lia.
    + intros _. apply lookup_in_range in Hl. lia.
    + intros G. apply (guarded_stepped s tk); congruence.
  - split; [reflexivity |]. eauto.
  - split; [reflexivity |]. intros G.
    apply guarded_lookup in G as [tk Htk]. congruence.
Qed.

Lemma post_trans {A B} (b1 b2 : bool) s (a : A) s1 (r : result B) s2 :
  post b1 s (Ok a) s1 -> post b2 s1 r s2 -> post (b1 || b2) s r s2.
Proof.
  intros (Ht1 & Hp1 & Hb1 & Hg1) (Ht2 & H2).
  split; [congruence |]. destruct r as [b|e].
  - destruct H2 as (Hp2 & Hb2 & Hg2). rewrite Ht1 in *.
    repeat split; [| | tauto].
    + destruct b1, b2; simpl; lia.
    + intros Hlt. destruct b1, b2; simpl in *; lia.
  - tauto.
Qed.

Lemma post_weaken {A} (b : bool) s (r : result A) s' :
  post true s r s' -> post b s r s'.
Proof.
  intros (Ht & H). split; [exact Ht |]. destruct r; [| exact H].
  destruct H as (Hp & Hb & Hg). repeat split; auto. destruct b; simpl in *; lia.
Qed.

Lemma post_raise_first {A B} b s e s' :
  @post A true s (Raise e) s' -> @post B b s (Raise e) s'.
Proof. intros (Ht & H). split; assumption. Qed.

Lemma post_refl {A} s (a : A) : post false s (Ok a) s.
Proof. split; [reflexivity |]. simpl. repeat split; auto; lia. Qed.

Lemma post_index_error {A} b s :
  tokens s !! pos s = None -> @post A b s (Raise IndexError) s.
Proof.
  intros Hl. split; [reflexivity |]. intros G.
  apply guarded_lookup in G as [tk Htk]. congruence.
Qed.

Lemma post_syntax_error {A} b s msg : @post A b s (Raise (SyntaxError msg)) s.
Proof. split; [reflexivity |]. eauto. Qed.

Lemma post_stepped s tk :
  tokens s !! pos s = Some tk -> fst tk <> "EOF" ->
  post true s (Ok tk) (stepped s).
Proof.
  intros Hl Hk. split; [reflexivity |]. simpl. repeat split; try lia.
  - intros _. apply lookup_in_range in Hl. lia.
  - intros G. now apply (guarded_stepped s tk).
Qed.

Lemma bind_peek {B} (k : token -> M B) s r s' :
  bind peek k s = Some (r, s') ->
  (tokens s !! pos s = None /\ r = Raise IndexError /\ s' = s)
  \/ (exists tk, tokens s !! pos s = Some tk /\ k tk s = Some (r, s')).
Proof.
  unfold bind, peek. destruct (tokens s !! pos s) as [tk|]; eauto.
  intros [= <- <-]. auto.
Qed.

Lemma bind_advance {B} (k : token -> M B) s tk r s' :
  tokens s !! pos s = Some tk ->
  bind advance k s = Some (r, s') -> k tk (stepped s) = Some (r, s').
Proof. unfold bind, advance. now intros ->. Qed.

Lemma post_bind {A B} (b1 b2 : bool) (m : M A) (k : A -> M B) s r s' :
  bind m k s = Some (r, s') ->
  (forall r1 s1, m s = Some (r1, s1) -> post b1 s r1 s1) ->
  (forall a s1, m s = Some (Ok a, s1) -> k a s1 = Some (r, s') ->
     post b2 s1 r s') ->
  post (b1 || b2) s r s'.
Proof.
  intros H Hm Hk. apply bind_Some in H as [(e & H & ->) | (a & s1 & H & H')].
  - destruct (Hm _ _ H) as [Ht Hr]. split; assumption.
  - eapply post_trans; eauto.
Qed.

Lemma post_ret {A} s (a : A) r s' : ret a s = Some (r, s') -> post false s r s'.
Proof. intros [= <- <-]. apply post_refl. Qed.

Lemma eqb_EOF_ne (k ty : string) :
  String.eqb k ty = true -> ty <> "EOF" -> k <> "EOF".
Proof. intros ->%String.eqb_eq. auto. Qed.

Lemma post_methods (fuel : nat) :
  (forall s r s', expression fuel s = Some (r, s') -> post true s r s')
  /\ (forall left s r s',
        expression_loop fuel left s = Some (r, s') -> post false s r s')
  /\ (forall s r s', term fuel s = Some (r, s') -> post true s r s').
Proof.
  induction fuel as [|fuel (IHe & IHl & IHt)];
    [repeat split; intros; discriminate |].
  split; [| split].
  - intros s r s' H. cbn [expression] in H.
    change true with (true || false). eapply post_bind; eauto.
  - intros left s r s' H. cbn [expression_loop] in H.
    apply bind_peek in H as [(Hl & -> & ->) | (tk & Hl & H)];
      [now apply post_index_error |].
    destruct (String.eqb (fst tk) "OPERATOR") eqn:Hk; [| now apply post_ret in H].
    apply (bind_advance _ _ tk) in H; [| exact Hl].
    apply post_weaken.
    apply (post_trans true true s tk (stepped s));
      [apply post_stepped; [exact Hl | eapply eqb_EOF_ne; eauto; discriminate] |].
    change true with (true || false).
    eapply post_bind; eauto. intros a s1 _ H1. cbv beta in H1. eauto.
  - intros s r s' H. cbn [term] in H.
    apply bind_peek in H as [(Hl & -> & ->) | (tk & Hl & H)];
      [now apply post_index_error |].
    destruct (String.eqb (fst tk) "NUMBER") eqn:Hn;
      [| destruct (String.eqb (fst tk) "IDENTIFIER") eqn:Hi;
         [| destruct (String.eqb (fst tk) "LPAREN") eqn:Hp]].
    + apply (bind_advance _ _ tk) in H; [| exact Hl]. injection H as <- <-.
      split; [reflexivity |].
      apply (post_stepped s tk Hl). eapply eqb_EOF_ne; eauto; discriminate.
    + apply (bind_advance _ _ tk) in H; [| exact Hl]. injection H as <- <-.
      split; [reflexivity |].
      apply (post_stepped s tk Hl). eapply eqb_EOF_ne; eauto; discriminate.
    + apply (bind_advance _ _ tk) in H; [| exact Hl].
      apply (post_trans true true s tk (stepped s));
        [apply post_stepped; [exact Hl | eapply eqb_EOF_ne; eauto; discriminate] |].
      change true with (true || (true || false)).
      eapply post_bind; eauto. intros e s1 _ H1. cbv beta in H1.
      eapply post_bind; eauto.
      * intros r1 s2. apply post_expect. discriminate.
      * intros a s2 _. apply post_ret.
    + injection H as <- <-. apply post_syntax_error.
Qed.

Lemma post_bind_strict {A B} (m : M A) (k : A -> M B) s r s' :
  bind m k s = Some (r, s') ->
  (forall r1 s1, m s = Some (r1, s1) -> post true s r1 s1) ->
  (forall a s1, m s = Some (Ok a, s1) -> k a s1 = Some (r, s') ->
     post false s1 r s') ->
  post true s r s'.
Proof. intros. change true with (true || false). eapply post_bind; eauto. Qed.

Ltac post_leaf :=
  lazymatch goal with
  | Hm : expect _ _ = Some _ |- _ =>
      eapply post_expect; [| exact Hm]; discriminate
  | Hm : expression _ _ = Some _ |- _ =>
      eapply (proj1 (post_methods _)); exact Hm
  end.

Ltac post_auto :=
  lazymatch goal with
  | H : ret _ _ = Some _ |- post false _ _ _ => eapply post_ret; exact H
  | H : bind _ _ _ = Some _ |- post false _ _ _ =>
      apply post_weaken; post_auto
  | H : bind _ _ _ = Some _ |- post true _ _ _ =>
      eapply post_bind_strict;
      [ exact H
      | let Hm := fresh "Hm" in intros ? ? Hm; clear H; post_leaf
      | let Hk := fresh "Hk" in
        intros ? ? _ Hk; cbv beta in Hk; clear H; post_auto ]
  end.

Lemma post_statement (fuel : nat) s r s' :
  statement fuel s = Some (r, s') -> post true s r s'.
Proof.
  intros H. unfold statement in H.
  apply bind_peek in H as [(Hl & -> & ->) | (tk & Hl & H)];
    [now apply post_index_error |].
  destruct (_ && _) in H; [| destruct (_ && _) in H].
  - unfold variable_declaration in H. post_auto.
  - unfold print_statement in H. post_auto.
  - unfold throw in H. injection H as <- <-. apply post_syntax_error.
Qed.

Lemma post_parse_loop (fuel : nat) statements s r s' :
  parse_loop fuel statements s = Some (r, s') -> post false s r s'.
Proof.
  revert statements s. induction fuel as [|fuel IH]; intros statements s H;
    [discriminate |].
  cbn [parse_loop] in H.
  apply bind_peek in H as [(Hl & -> & ->) | (tk & Hl & H)];
    [now apply post_index_error |].
  destruct (negb _) in H; [| now apply post_ret in H].
  apply post_weaken. eapply post_bind_strict; [exact H | |].
  - intros r1 s1. apply post_statement.
  - intros a s1 _. apply IH.
Qed.

(** *** Enough fuel *)

Lemma bind_is_Some {A B} (m : M A) (k : A -> M B) s :
  is_Some (m s) ->
  (forall a s1, m s = Some (Ok a, s1) -> is_Some (k a s1)) ->
  is_Some (bind m k s).
Proof.
  unfold bind. intros [[[a|e] s1] Hm] Hk; rewrite Hm; eauto.
Qed.

Lemma expect_is_Some ty s : is_Some (expect ty s).
Proof.
  unfold expect, bind, peek, advance, throw.
  destruct (tokens s !! pos s) as [tk|] eqn:E; [| eauto].
  destruct (String.eqb (fst tk) ty); rewrite E; eauto.
Qed.

Lemma post_remaining {A} s (a : A) s' :
  post true s (Ok a) s' -> remaining s' < remaining s.
Proof.
  unfold remaining. intros (Ht & Hp & Hb & _). rewrite Ht.
  specialize (Hb Hp). lia.
Qed.

Lemma post_remaining_le {A} b s (a : A) s' :
  post b s (Ok a) s' -> remaining s' <= remaining s.
Proof.
  unfold remaining. intros (Ht & Hp & Hb & _). rewrite Ht.
  destruct b; lia.
Qed.

Lemma remaining_stepped s tk :
  tokens s !! pos s = Some tk -> S (remaining (stepped s)) = remaining s.
Proof. intros Hl%lookup_in_range. unfold remaining. simpl. lia. Qed.

Lemma methods_terminate (fuel : nat) :
  (forall s, 2 * remaining s + 2 <= fuel -> is_Some (expression fuel s))
  /\ (forall left s, 2 * remaining s + 1 <= fuel ->
        is_Some (expression_loop fuel left s))
  /\ (forall s, 2 * remaining s + 1 <= fuel -> is_Some (term fuel s)).
Proof.
  induction fuel as [|fuel (IHe & IHl & IHt)]; [repeat split; intros; lia |].
  split; [| split].
  - intros s Hf. cbn [expression]. apply bind_is_Some; [apply IHt; lia |].
    intros a s1 H1. apply (proj2 (proj2 (post_methods _))) in H1.
    apply post_remaining in H1. apply IHl. lia.
  - intros left s Hf. cbn [expression_loop]. unfold bind at 1, peek.
    destruct (tokens s !! pos s) as [tk|] eqn:Hl; [| eauto].
    destruct (String.eqb (fst tk) "OPERATOR"); [| unfold ret; eauto].
    unfold bind at 1, advance. rewrite Hl.
    pose proof (remaining_stepped s tk Hl) as Hr.
    apply bind_is_Some; [apply IHt; fold (stepped s); lia |].
    intros a s1 H1. apply (proj2 (proj2 (post_methods _))) in H1.
    apply post_remaining in H1. apply IHl. fold (stepped s) in H1. lia.
  - intros s Hf. cbn [term]. unfold bind at 1, peek.
    destruct (tokens s !! pos s) as [tk|] eqn:Hl; [| eauto].
    pose proof (remaining_stepped s tk Hl) as Hr.
    destruct (String.eqb (fst tk) "NUMBER");
      [| destruct (String.eqb (fst tk) "IDENTIFIER");
         [| destruct (String.eqb (fst tk) "LPAREN")]].
    + unfold bind, advance, ret. rewrite Hl. eauto.
    + unfold bind, advance, ret. rewrite Hl. eauto.
    + unfold bind at 1, advance. rewrite Hl. fold (stepped s).
      apply bind_is_Some; [apply IHe; lia |].
      intros a s1 _. apply bind_is_Some; [apply expect_is_Some |].
      intros; unfold ret; eauto.
    + unfold throw. eauto.
Qed.

Lemma expect_Ok ty s tk s' :
  expect ty s = Some (Ok tk, s') ->
  s' = stepped s /\ tokens s !! pos s = Some tk.
Proof.
  intros H. apply expect_Some in H
    as [(tk' & Hl & Hk & [= ->] & ->) | [(tk' & _ & _ & [=] & _) | (_ & [=] & _)]].
  auto.
Qed.

Lemma statement_terminates (fuel : nat) s :
  2 * remaining s <= fuel -> is_Some (statement fuel s).
Proof.
  intros Hf. unfold statement. unfold bind at 1, peek.
  destruct (tokens s !! pos s) as [tk|] eqn:Hl; [| eauto].
  destruct (_ && _); [| destruct (_ && _); [| unfold throw; eauto]].
  - unfold variable_declaration.
    apply bind_is_Some; [apply expect_is_Some |].
    intros a1 s1 [-> H1]%expect_Ok.
    apply bind_is_Some; [apply expect_is_Some |].
    intros a2 s2 [-> H2]%expect_Ok.
    apply bind_is_Some; [apply expect_is_Some |].
    intros a3 s3 [-> H3]%expect_Ok.
    apply remaining_stepped in H1, H2, H3.
    apply bind_is_Some; [apply (proj1 (methods_terminate _)); lia |].
    intros e s4 _. apply bind_is_Some; [apply expect_is_Some |].
    intros; unfold ret; eauto.
  - unfold print_statement.
    apply bind_is_Some; [apply expect_is_Some |].
    intros a1 s1 [-> H1]%expect_Ok. apply remaining_stepped in H1.
    apply bind_is_Some; [apply (proj1 (methods_terminate _)); lia |].
    intros e s4 _. apply bind_is_Some; [apply expect_is_Some |].
    intros; unfold ret; eauto.
Qed.

Lemma parse_loop_terminates (fuel : nat) statements s :
  2 * remaining s + 1 <= fuel -> is_Some (parse_loop fuel statements s).
Proof.
  revert statements s. induction fuel as [|fuel IH]; intros statements s Hf;
    [lia |].
  cbn [parse_loop]. unfold bind at 1, peek.
  destruct (tokens s !! pos s) as [tk|] eqn:Hl; [| eauto].
  destruct (negb _); [| unfold ret; eauto].
  apply bind_is_Some; [apply statement_terminates; lia |].
  intros a s1 H1%post_statement%post_remaining. apply IH. lia.
Qed.

Lemma parse_terminates s : is_Some (parse s).
Proof.
  unfold parse, budget. apply parse_loop_terminates.
  unfold remaining. lia.
Qed.

Lemma eof_terminated_guarded (tokens : list token) :
  eof_terminated tokens -> guarded (__init__ tokens).
Proof.
  intros (front & v & ->). exists (length front), v. simpl. split; [lia |].
  rewrite lookup_app_r by lia. now rewrite Nat.sub_diag.
Qed.
End ParserFacts.

(** Without the recursion limit: behind an EOF sentinel [parse] returns a
    statement list or raises [SyntaxError], and successful calls advance. *)
Lemma parse_outcome (tokens : list token) :
  eof_terminated tokens ->
  (exists r s', Parser.parse (Parser.__init__ tokens) = Some (r, s')
     /\ ((exists statements, r = Ok statements)
         \/ (exists msg, r = Raise (SyntaxError msg))))
  /\ (forall fuel s a s',
        Parser.statement fuel s = Some (Ok a, s')
        \/ Parser.expression fuel s = Some (Ok a, s')
        \/ Parser.term fuel s = Some (Ok a, s') ->
        Parser.pos s < Parser.pos s').
Proof.
  intros Heof. split.
  - destruct (parse_terminates (Parser.__init__ tokens)) as [[r s'] Hp].
    exists r, s'. split; [exact Hp |].
    apply post_parse_loop in Hp as [_ Hr].
    destruct r as [statements | e]; [eauto |].
    right. destruct Hr as [msg ->]; [now apply eof_terminated_guarded |].
    now exists msg.
  - intros fuel s a s' [H | [H | H]].
    + now apply post_statement in H as (_ & H & _).
    + now apply (proj1 (post_methods _)) in H as (_ & H & _).
    + now apply (proj2 (proj2 (post_methods _))) in H as (_ & H & _).
Qed.

Section ParserFuel.
Import Parser.

Lemma bind_mono {A B} (m m' : M A) (k k' : A -> M B) s r :
  bind m k s = Some r ->
  (forall r1, m s = Some r1 -> m' s = Some r1) ->
  (forall a s1 r', m s = Some (Ok a, s1) -> k a s1 = Some r' ->
     k' a s1 = Some r') ->
  bind m' k' s = Some r.
Proof.
  unfold bind. intros H Hm Hk.
  destruct (m s) as [[[a|e] s1]|] eqn:E; [| | discriminate].
  - rewrite (Hm _ eq_refl). eauto.
  - now rewrite (Hm _ eq_refl).
Qed.

(** More fuel does not change an outcome. *)
Lemma fuel_mono (fuel : nat) :
  (forall s r, expression fuel s = Some r ->
     forall fuel', fuel <= fuel' -> expression fuel' s = Some r)
  /\ (forall left s r, expression_loop fuel left s = Some r ->
        forall fuel', fuel <= fuel' -> expression_loop fuel' left s = Some r)
  /\ (forall s r, term fuel s = Some r ->
        forall fuel', fuel <= fuel' -> term fuel' s = Some r).
Proof.
  induction fuel as [|fuel (IHe & IHl & IHt)];
    [repeat split; intros; discriminate |].
  assert (Hle : forall fuel', S fuel <= fuel' ->
            exists f, fuel' = S f /\ fuel <= f).
  { intros [|f] ?; [lia |]. exists f. split; [reflexivity | lia]. }
  split; [| split].
  - intros s r H fuel' (f & -> & Hf)%Hle. cbn [expression] in *.
    eapply bind_mono; [exact H | |]; cbv beta; eauto.
  - intros left s r H fuel' (f & -> & Hf)%Hle. cbn [expression_loop] in *.
    eapply bind_mono; [exact H | auto |]. cbv beta.
    intros tk s1 r' _. destruct (String.eqb (fst tk) "OPERATOR"); [| auto].
    intros H1. eapply bind_mono; [exact H1 | auto |]. cbv beta.
    intros op s2 r2 _ H2. eapply bind_mono; [exact H2 | |]; cbv beta; eauto.
  - intros s r H fuel' (f & -> & Hf)%Hle. cbn [term] in *.
    eapply bind_mono; [exact H | auto |]. cbv beta.
    intros tk s1 r' _.
    destruct (String.eqb (fst tk) "NUMBER"); [auto |].
    destruct (String.eqb (fst tk) "IDENTIFIER"); [auto |].
    destruct (String.eqb (fst tk) "LPAREN"); [| auto].
    intros H1. eapply bind_mono; [exact H1 | auto |]. cbv beta.
    intros op s2 r2 _ H2. eapply bind_mono; [exact H2 | |]; cbv beta; eauto.
Qed.

Lemma loop_folds s1 l s2 tk :
  op_terms s1 l s2 ->
  tokens s2 !! pos s2 = Some tk -> fst tk <> "OPERATOR" ->
  forall left, exists fuel, forall fuel', fuel <= fuel' ->
    expression_loop fuel' left s1 = Some (Ok (fold_left bin_op l left), s2).
Proof.
  intros Hops Hl Hk. induction Hops as [s | s tk' fuelT e s1 l s2 Hl' Hk' Ht Hops IH];
    intros left.
  - exists 1. intros [|f] Hf; [lia |]. cbn [expression_loop]. unfold bind, peek.
    rewrite Hl. apply String.eqb_neq in Hk. now rewrite Hk.
  - destruct (IH Hl (bin_op left (snd tk', e))) as [fuelL HL].
    exists (S (Nat.max fuelT fuelL)). intros [|f] Hf; [lia |].
    cbn [expression_loop]. unfold bind at 1, peek. rewrite Hl'.
    apply String.eqb_eq in Hk'. rewrite Hk'.
    unfold bind at 1, advance. rewrite Hl'. fold (stepped s).
    unfold bind.
    rewrite (proj2 (proj2 (fuel_mono _)) _ _ Ht f) by lia.
    apply HL. lia.
Qed.
End ParserFuel.

(** C1. [Parser.expression] reads [Term (OPERATOR Term)*] as one left
    fold: whatever the operators are, the tree is the left-nested chain of
    [bin_op] nodes over the terms in source order. So [2+3*4] gets the tree
    of [(2+3)*4], not that of [2+(3*4)], and printing it gives 20. *)
Theorem C1_left_to_right :
  (forall s fuel0 e0 s1 l s2 tk,
     Parser.term fuel0 s = Some (Ok e0, s1) ->
     op_terms s1 l s2 ->
     Parser.tokens s2 !! Parser.pos s2 = Some tk ->
     fst tk <> "OPERATOR" ->
     exists fuel, forall fuel', fuel <= fuel' ->
       Parser.expression fuel' s = Some (Ok (fold_left bin_op l e0), s2))
  /\ parse_expression "2+3*4"
     = Some (Ok (OTuple [OStr "bin_op"; OStr "*";
                   OTuple [OStr "bin_op"; OStr "+";
                           OTuple [OStr "NUMBER"; OInt 2];
                           OTuple [OStr "NUMBER"; OInt 3]];
                   OTuple [OStr "NUMBER"; OInt 4]]))
  /\ parse_expression "2+3*4" = parse_expression "(2+3)*4"
  /\ parse_expression "2+3*4" <> parse_expression "2+(3*4)"
  /\ prints "print 2+3*4;" ["20"].
Proof.
  refine (conj _ (conj _ (conj _ (conj _ _)))).
  - intros s fuel0 e0 s1 l s2 tk Ht Hops Hl Hk.
    destruct (loop_folds s1 l s2 tk Hops Hl Hk e0) as [fuelL HL].
    exists (S (Nat.max fuel0 fuelL)). intros [|f] Hf; [lia |].
    cbn [Parser.expression]. unfold Parser.bind.
    rewrite (proj2 (proj2 (fuel_mono _)) _ _ Ht f) by lia.
    apply HL. lia.
  - vm_compute. reflexivity.
  - vm_compute. reflexivity.
  - vm_compute. discriminate.
  - vm_compute. reflexivity.
Qed.

Lemma C1_witness :
  let tokens := [("NUMBER", OInt 2); ("OPERATOR", OStr "+"); ("NUMBER", OInt 3);
                 ("OPERATOR", OStr "*"); ("NUMBER", OInt 4); ("EOF", ONone)] in
  exists fuel, forall fuel', fuel <= fuel' ->
    Parser.expression fuel' (Parser.__init__ tokens)
    = Some (Ok (fold_left bin_op
                  [(OStr "+", OTuple [OStr "NUMBER"; OInt 3]);
                   (OStr "*", OTuple [OStr "NUMBER"; OInt 4])]
                  (OTuple [OStr "NUMBER"; OInt 2])),
            {| Parser.tokens := tokens; Parser.pos := 5 |}).
Proof.
  intros tokens.
  refine (proj1 C1_left_to_right (Parser.__init__ tokens) 1 _
            {| Parser.tokens := tokens; Parser.pos := 1 |} _
            {| Parser.tokens := tokens; Parser.pos := 5 |}
            ("EOF", ONone) eq_refl _ eq_refl _).
  - eapply (op_terms_cons _ ("OPERATOR", OStr "+") 1);
      [reflexivity | reflexivity | reflexivity |].
    eapply (op_terms_cons _ ("OPERATOR", OStr "*") 1);
      [reflexivity | reflexivity | reflexivity |].
    apply op_terms_nil.
  - discriminate.
Defined.

(** ** The parser builds well-formed trees from the lexer's tokens *)

Section ParserTrees.
Import Parser.

Lemma token_ok_number (tk : token) :
  token_ok tk = true -> fst tk = "NUMBER" -> exists z, snd tk = OInt z.
Proof.
  unfold token_ok. intros H E. rewrite E in H. simpl in H.
  destruct (snd tk); try discriminate; eauto.
Qed.

Lemma token_ok_identifier (tk : token) :
  token_ok tk = true -> fst tk = "IDENTIFIER" ->
  exists s, snd tk = OStr s /\ is_name s = true.
Proof.
  unfold token_ok. intros H E. rewrite E in H. simpl in H.
  destruct (snd tk); try discriminate; eauto.
Qed.

Lemma token_ok_operator (tk : token) :
  token_ok tk = true -> fst tk = "OPERATOR" ->
  exists o, snd tk = OStr o /\ is_op o = true.
Proof.
  unfold token_ok. intros H E. rewrite E in H. simpl in H.
  destruct (snd tk); try discriminate; eauto.
Qed.

Lemma lookup_token_ok (s : t) (tk : token) :
  forallb token_ok (tokens s) = true ->
  tokens s !! pos s = Some tk -> token_ok tk = true.
Proof.
  intros Hall Hl. rewrite forallb_forall in Hall. apply Hall.
  apply list_elem_of_In. eapply list_elem_of_lookup_2. exact Hl.
Qed.

Lemma expect_Ok_kind ty s tk s' :
  expect ty s = Some (Ok tk, s') ->
  s' = stepped s /\ tokens s !! pos s = Some tk /\ fst tk = ty.
Proof.
  intros H. apply expect_Some in H
    as [(tk' & Hl & Hk & [= ->] & ->) | [(tk' & _ & _ & [=] & _) | (_ & [=] & _)]].
  auto.
Qed.

Lemma methods_wf (fuel : nat) :
  (forall s e s', forallb token_ok (tokens s) = true ->
     expression fuel s = Some (Ok e, s') -> wf_expr e)
  /\ (forall left s e s', forallb token_ok (tokens s) = true ->
        wf_expr left ->
        expression_loop fuel left s = Some (Ok e, s') -> wf_expr e)
  /\ (forall s e s', forallb token_ok (tokens s) = true ->
        term fuel s = Some (Ok e, s') -> wf_expr e).
Proof.
  induction fuel as [|fuel (IHe & IHl & IHt)];
    [repeat split; intros; discriminate |].
  split; [| split].
  - intros s e s' Hall H. cbn [expression] in H.
    apply bind_Some in H as [(? & _ & [=]) | (left & s1 & Ht & H)].
    pose proof (proj1 (proj2 (proj2 (post_methods _)) _ _ _ Ht)) as Hs.
    eapply IHl; [| | exact H]; [congruence | eauto].
  - intros left s e s' Hall Hleft H. cbn [expression_loop] in H.
    apply bind_peek in H as [(_ & [=] & _) | (tk & Hl & H)].
    destruct (String.eqb (fst tk) "OPERATOR") eqn:Hk;
      [| now injection H as <- <-].
    apply (bind_advance _ _ tk) in H; [| exact Hl].
    apply bind_Some in H as [(? & _ & [=]) | (right & s1 & Ht & H)].
    pose proof (proj1 (proj2 (proj2 (post_methods _)) _ _ _ Ht)) as Hs.
    apply String.eqb_eq in Hk.
    destruct (token_ok_operator tk (lookup_token_ok s tk Hall Hl) Hk)
      as (o & Ho & Hop).
    eapply IHl; [| | exact H]; [simpl in Hs; congruence |].
    rewrite Ho. apply wf_bin_op; [assumption .. |].
    eapply IHt; [| exact Ht]. exact Hall.
  - intros s e s' Hall H. cbn [term] in H.
    apply bind_peek in H as [(_ & [=] & _) | (tk & Hl & H)].
    pose proof (lookup_token_ok s tk Hall Hl) as Hok.
    destruct (String.eqb (fst tk) "NUMBER") eqn:Hn;
      [| destruct (String.eqb (fst tk) "IDENTIFIER") eqn:Hi;
         [| destruct (String.eqb (fst tk) "LPAREN") eqn:Hp]].
    + apply (bind_advance _ _ tk) in H; [| exact Hl]. injection H as <- <-.
      apply String.eqb_eq in Hn.
      destruct (token_ok_number tk Hok Hn) as [z Hz].
      unfold tok_obj. rewrite Hn, Hz. constructor.
    + apply (bind_advance _ _ tk) in H; [| exact Hl]. injection H as <- <-.
      apply String.eqb_eq in Hi.
      destruct (token_ok_identifier tk Hok Hi) as (x & Hx & Hname).
      unfold tok_obj. rewrite Hi, Hx. now constructor.
    + apply (bind_advance _ _ tk) in H; [| exact Hl].
      apply bind_Some in H as [(? & _ & [=]) | (expr & s1 & He & H)].
      apply bind_Some in H as [(? & _ & [=]) | (a & s2 & _ & H)].
      injection H as <- <-. eapply IHe; [| exact He]. exact Hall.
    + discriminate.
Qed.

Lemma statement_wf (fuel : nat) s e s' :
  forallb token_ok (tokens s) = true ->
  statement fuel s = Some (Ok e, s') -> wf_stmt e.
Proof.
  intros Hall H. unfold statement in H.
  apply bind_peek in H as [(_ & [=] & _) | (tk & Hl & H)].
  destruct (_ && _) in H; [| destruct (_ && _) in H; [| discriminate]].
  - unfold variable_declaration in H.
    apply bind_Some in H as [(? & _ & [=]) | (a1 & s1 & (-> & _)%expect_Ok_kind & H)].
    apply bind_Some in H as [(? & _ & [=]) | (name & s2 & (-> & Hn & Hk)%expect_Ok_kind & H)].
    apply bind_Some in H as [(? & _ & [=]) | (a3 & s3 & (-> & _)%expect_Ok_kind & H)].
    apply bind_Some in H as [(? & _ & [=]) | (value & s4 & He & H)].
    apply bind_Some in H as [(? & _ & [=]) | (a5 & s5 & _ & H)].
    injection H as <- <-.
    destruct (token_ok_identifier name
                (lookup_token_ok (stepped s) name Hall Hn) Hk)
      as (x & -> & Hname).
    constructor; [assumption |].
    eapply (proj1 (methods_wf _)); [| exact He]. exact Hall.
  - unfold print_statement in H.
    apply bind_Some in H as [(? & _ & [=]) | (a1 & s1 & (-> & _)%expect_Ok_kind & H)].
    apply bind_Some in H as [(? & _ & [=]) | (value & s4 & He & H)].
    apply bind_Some in H as [(? & _ & [=]) | (a5 & s5 & _ & H)].
    injection H as <- <-. constructor.
    eapply (proj1 (methods_wf _)); [| exact He]. exact Hall.
Qed.

Lemma parse_loop_wf (fuel : nat) statements s ast s' :
  forallb token_ok (tokens s) = true ->
  Forall wf_stmt statements ->
  parse_loop fuel statements s = Some (Ok ast, s') -> Forall wf_stmt ast.
Proof.
  revert statements s. induction fuel as [|fuel IH];
    intros statements s Hall Hst H; [discriminate |].
  cbn [parse_loop] in H.
  apply bind_peek in H as [(_ & [=] & _) | (tk & Hl & H)].
  destruct (negb _) in H; [| now injection H as <- <-].
  apply bind_Some in H as [(? & _ & [=]) | (st & s1 & Hs & H)].
  pose proof (proj1 (post_statement _ _ _ _ Hs)) as Ht.
  eapply IH; [| | exact H]; [congruence |].
  apply Forall_app. split; [assumption |].
  constructor; [| constructor]. eapply statement_wf; eauto.
Qed.

(** After a parse that returned, the parser stands on an EOF token. *)
Lemma parse_loop_at_eof (fuel : nat) statements s ast s' :
  parse_loop fuel statements s = Some (Ok ast, s') ->
  exists tk, tokens s' !! pos s' = Some tk /\ fst tk = "EOF".
Proof.
  revert statements s. induction fuel as [|fuel IH];
    intros statements s H; [discriminate |].
  cbn [parse_loop] in H.
  apply bind_peek in H as [(_ & [=] & _) | (tk & Hl & H)].
  destruct (String.eqb (fst tk) "EOF") eqn:Hk; simpl in H.
  - injection H as <- <-. apply String.eqb_eq in Hk. eauto.
  - apply bind_Some in H as [(? & _ & [=]) | (st & s1 & Hs & H)]. eauto.
Qed.

Lemma parse_again s ast s' :
  parse s = Some (Ok ast, s') -> parse s' = Some (Ok [], s').
Proof.
  unfold parse. intros H. apply parse_loop_at_eof in H as (tk & Hl & Hk).
  unfold budget. rewrite Nat.add_comm. cbn [Nat.add parse_loop].
  unfold bind, peek. rewrite Hl, Hk. reflexivity.
Qed.
End ParserTrees.

(** ** The code generator appends to what the object already holds *)

Section GeneratorFacts.
Import CodeGenerator.

Lemma appends_ret {A} (a : A) : appends (ret a).
Proof. intros [ins]. unfold shifted, ret. simpl. now rewrite app_nil_r. Qed.

Lemma appends_throw {A} (e : exn) : appends (@throw A e).
Proof. intros [ins]. unfold shifted, throw. simpl. now rewrite app_nil_r. Qed.

Lemma appends_emit (line : string) : appends (emit line).
Proof. intros [ins]. reflexivity. Qed.

Lemma appends_bind {A B} (m : M A) (k : A -> M B) :
  appends m -> (forall a, appends (k a)) -> appends (bind m k).
Proof.
  intros Hm Hk self. unfold bind. rewrite (Hm self).
  destruct (m __init__) as [[a|e] g]; unfold shifted; simpl; [| reflexivity].
  rewrite (Hk a {| instructions := instructions self ++ instructions g |}).
  rewrite (Hk a g). unfold shifted. simpl. now rewrite app_assoc.
Qed.

Lemma appends_generate_expression (expr : obj) :
  appends (generate_expression expr).
Proof.
  induction expr as [| z | s | items IH] using obj_induction;
    try apply appends_ret; try apply appends_emit.
  cbn [generate_expression].
  destruct items as [|tag fields]; [apply appends_throw |].
  apply Forall_cons in IH as [_ IH].
  destruct (eq_str tag "bin_op").
  { destruct fields as [|op [|l [|r [|]]]]; try apply appends_throw.
    apply Forall_cons in IH as [_ IH].
    apply Forall_cons in IH as [Hl IH].
    apply Forall_cons in IH as [Hr _].
    apply appends_bind; [exact Hl |]. intros _.
    apply appends_bind; [exact Hr |]. intros _. apply appends_emit. }
  destruct (eq_str tag "NUMBER");
    [destruct fields; [apply appends_throw | apply appends_emit] |].
  destruct (eq_str tag "IDENTIFIER");
    [destruct fields; [apply appends_throw | apply appends_emit] |].
  apply appends_ret.
Qed.

Lemma appends_generate_statement (statement : obj) :
  appends (generate_statement statement).
Proof.
  unfold generate_statement.
  destruct (head_of statement) as [tag|e]; [| apply appends_throw].
  destruct (eq_str tag "var_decl").
  { destruct (fields_of statement) as [|n [|v [|]]]; try apply appends_throw.
    apply appends_bind; [apply appends_emit |]. intros _.
    apply appends_bind; [apply appends_generate_expression |]. intros _.
    apply appends_emit. }
  destruct (eq_str tag "print"); [| apply appends_throw].
  destruct (fields_of statement) as [|v [|]]; try apply appends_throw.
  apply appends_bind; [apply appends_generate_expression |]. intros _.
  apply appends_emit.
Qed.

Lemma appends_generate_loop (ast : list obj) : appends (generate_loop ast).
Proof.
  induction ast as [|st ast IH]; [apply appends_ret |].
  cbn [generate_loop]. apply appends_bind; [apply appends_generate_statement |].
  intros _. exact IH.
Qed.

(** [generate] on an object that already holds instructions returns
    them followed by what a fresh generator returns. *)
Lemma generate_accumulates (ast : list obj) (self : t) :
  generate ast self =
  match generate ast __init__ with
  | (Ok ins, _) =>
      (Ok (instructions self ++ ins),
       {| instructions := instructions self ++ ins |})
  | (Raise e, g) =>
      (Raise e, {| instructions := instructions self ++ instructions g |})
  end.
Proof.
  unfold generate, bind. rewrite (appends_generate_loop ast self).
  destruct (generate_loop ast __init__) as [[u|e] g]; reflexivity.
Qed.
End GeneratorFacts.

(** ** The stack effect of generated code *)

Section StackEffect.
Import VirtualMachine.

Lemma execute_app (a b : list string) (vm : t) :
  execute (a ++ b) vm = bind (execute a) (fun _ => execute b) vm.
Proof.
  revert vm. induction a as [|i a IH]; intros vm; [reflexivity |].
  change (execute ((i :: a) ++ b) vm)
    with (bind (execute_instruction i) (fun _ => execute (a ++ b)) vm).
  change (execute (i :: a))
    with (bind (execute_instruction i) (fun _ => execute a)).
  unfold bind.
  destruct (execute_instruction i vm) as [[u|e] vm1]; [| reflexivity].
  rewrite IH. reflexivity.
Qed.

Lemma execute_app_Ok (a b : list string) (vm vm' : t) :
  execute (a ++ b) vm = (Ok tt, vm') ->
  exists vm1, execute a vm = (Ok tt, vm1) /\ execute b vm1 = (Ok tt, vm').
Proof.
  rewrite execute_app. unfold bind.
  destruct (execute a vm) as [[[]|e] vm1]; [eauto | discriminate].
Qed.

Lemma execute_one (i : string) (vm : t) :
  execute [i] vm = execute_instruction i vm.
Proof.
  cbn [execute]. unfold bind, ret.
  destruct (execute_instruction i vm) as [[[]|e] vm1]; reflexivity.
Qed.

Lemma grows_PUSH (z : Z) : grows ["PUSH " +:+ str_int z].
Proof.
  intros vm vm'. rewrite execute_one, exec_PUSH. intros [= <-]. simpl. eauto.
Qed.

Lemma grows_LOAD (n : string) : is_name n = true -> grows ["LOAD " +:+ n].
Proof.
  intros Hn vm vm'. rewrite execute_one, exec_LOAD by assumption.
  intros [= <-]. simpl. eauto.
Qed.

Lemma OP_effect (o : string) (vm vm' : t) :
  is_op o = true ->
  execute ["OP " +:+ o] vm = (Ok tt, vm') ->
  exists r l rest v, stack vm = r :: l :: rest /\ stack vm' = v :: rest.
Proof.
  intros Ho. rewrite execute_one, exec_OP by assumption.
  unfold bind, pop. destruct (stack vm) as [|r [|l rest]]; try discriminate.
  cbn. destruct (apply_op o l r) as [v|e]; [| discriminate]. cbn.
  intros [= <-]. simpl. eauto 10.
Qed.

Lemma STORE_effect (n : string) (vm vm' : t) :
  is_name n = true ->
  execute ["STORE " +:+ n] vm = (Ok tt, vm') ->
  exists v, stack vm = v :: stack vm'.
Proof.
  intros Hn. rewrite execute_one, exec_STORE by assumption.
  unfold bind, pop. destruct (stack vm) as [|v rest]; [discriminate |].
  intros [= <-]. simpl. eauto.
Qed.

Lemma PRINT_effect (vm vm' : t) :
  execute ["PRINT"] vm = (Ok tt, vm') ->
  exists v, stack vm = v :: stack vm'.
Proof.
  rewrite execute_one, exec_PRINT.
  unfold bind, pop. destruct (stack vm) as [|v rest]; [discriminate |].
  intros [= <-]. simpl. eauto.
Qed.

Lemma ALLOC_effect (n : string) (vm vm' : t) :
  is_name n = true ->
  execute ["ALLOC " +:+ n] vm = (Ok tt, vm') -> stack vm' = stack vm.
Proof.
  intros Hn. rewrite execute_one, exec_ALLOC by assumption.
  now intros [= <-].
Qed.

(** The code of a well-formed expression leaves exactly its value. *)
Lemma expression_code (e : obj) :
  wf_expr e ->
  exists ins,
    CodeGenerator.generate_expression e CodeGenerator.__init__
    = (Ok tt, {| CodeGenerator.instructions := ins |})
    /\ grows ins.
Proof.
  induction 1 as [z | s Hs | o l r Ho Hl (il & El & Gl) Hr (ir & Er & Gr)].
  - eexists. split; [reflexivity | apply grows_PUSH].
  - eexists. split; [reflexivity | now apply grows_LOAD].
  - exists (il ++ ir ++ ["OP " +:+ o]). split.
    + cbn [CodeGenerator.generate_expression eq_str String.eqb Ascii.eqb
           Bool.eqb].
      unfold CodeGenerator.bind at 1. rewrite El.
      unfold CodeGenerator.bind at 1.
      rewrite (appends_generate_expression r), Er.
      unfold shifted, CodeGenerator.emit. cbn. now rewrite <- app_assoc.
    + intros vm vm' H.
      apply execute_app_Ok in H as (vm1 & H1 & H).
      apply execute_app_Ok in H as (vm2 & H2 & H).
      apply Gl in H1 as [v1 E1]. apply Gr in H2 as [v2 E2].
      apply OP_effect in H as (x & y & rest & v & E & E'); [| assumption].
      rewrite E2, E1 in E. injection E as _ _ <-. eauto.
Qed.

Lemma statement_code (st : obj) :
  wf_stmt st ->
  exists ins,
    CodeGenerator.generate_statement st CodeGenerator.__init__
    = (Ok tt, {| CodeGenerator.instructions := ins |})
    /\ neutral ins.
Proof.
  intros [s e Hs He | e He];
    destruct (expression_code e He) as (ie & Ee & Ge).
  - exists (["ALLOC " +:+ s] ++ ie ++ ["STORE " +:+ s]). split.
    + change (CodeGenerator.generate_statement
                (OTuple [OStr "var_decl"; OStr s; e]) CodeGenerator.__init__)
        with (CodeGenerator.bind (CodeGenerator.emit ("ALLOC " +:+ s))
                (fun _ => CodeGenerator.bind
                   (CodeGenerator.generate_expression e)
                   (fun _ => CodeGenerator.emit ("STORE " +:+ s)))
                CodeGenerator.__init__).
      unfold CodeGenerator.bind.
      change (CodeGenerator.emit ("ALLOC " +:+ s) CodeGenerator.__init__)
        with (@Ok unit tt,
              {| CodeGenerator.instructions := ["ALLOC " +:+ s] |}).
      cbv iota beta.
      rewrite (appends_generate_expression e), Ee.
      unfold shifted, CodeGenerator.emit. cbn. reflexivity.
    + intros vm vm' H.
      apply execute_app_Ok in H as (vm1 & H1 & H).
      apply execute_app_Ok in H as (vm2 & H2 & H).
      apply ALLOC_effect in H1; [| assumption].
      apply Ge in H2 as [v E2].
      apply STORE_effect in H as [v' E]; [| assumption].
      rewrite E2, H1 in E. now injection E.
  - exists (ie ++ ["PRINT"]). split.
    + change (CodeGenerator.generate_statement
                (OTuple [OStr "print"; e]) CodeGenerator.__init__)
        with (CodeGenerator.bind (CodeGenerator.generate_expression e)
                (fun _ => CodeGenerator.emit "PRINT") CodeGenerator.__init__).
      unfold CodeGenerator.bind. rewrite Ee. reflexivity.
    + intros vm vm' H.
      apply execute_app_Ok in H as (vm1 & H1 & H).
      apply Ge in H1 as [v E1].
      apply PRINT_effect in H as [v' E].
      rewrite E1 in E. now injection E.
Qed.

Lemma neutral_app (a b : list string) :
  neutral a -> neutral b -> neutral (a ++ b).
Proof.
  intros Ha Hb vm vm' H. apply execute_app_Ok in H as (vm1 & H1 & H2).
  rewrite (Hb _ _ H2). now apply Ha.
Qed.

Lemma program_code (ast : list obj) :
  Forall wf_stmt ast ->
  exists ins,
    CodeGenerator.generate_loop ast CodeGenerator.__init__
    = (Ok tt, {| CodeGenerator.instructions := ins |})
    /\ neutral ins.
Proof.
  induction 1 as [|st ast Hst _ (ins & E & N)].
  - exists []. split; [reflexivity |]. now intros vm vm' [= <-].
  - destruct (statement_code st Hst) as (is1 & E1 & N1).
    exists (is1 ++ ins). split; [| now apply neutral_app].
    cbn [CodeGenerator.generate_loop]. unfold CodeGenerator.bind. rewrite E1.
    rewrite (appends_generate_loop ast), E. reflexivity.
Qed.
End StackEffect.

Lemma tokenize_token_ok (code : string) (toks : list token) :
  lexes_to code toks -> forallb token_ok toks = true.
Proof.
  intros [lx H]. unfold Lexer.tokenize in H.
  destruct (Lexer.scan _ code _) as [[[u|e] toks']|] eqn:E; [| discriminate ..].
  injection H as <- _. rewrite forallb_app. simpl.
  eapply scan_tokens in E; [now rewrite E | | reflexivity].
  intros c rest rest' tk Hs. now apply lex_step_token in Hs.
Qed.

(** C6. When a source text lexes, parses, generates and executes without
    error, the operand stack is empty at the end: the instructions of
    every statement the parser built leave the stack as they found it. *)
Theorem C6_stack_empty (code : string) (vm : VirtualMachine.t) :
  run code = Finished vm ->
  VirtualMachine.stack vm = []
  /\ forall toks s' ast, lexes_to code toks ->
       Parser.parse (Parser.__init__ toks) = Some (Ok ast, s') ->
       Forall (fun st => exists ins,
                 CodeGenerator.generate_statement st CodeGenerator.__init__
                 = (Ok tt, {| CodeGenerator.instructions := ins |})
                 /\ neutral ins) ast.
Proof.
  intros Hrun.
  assert (Hwf : forall toks s' ast, lexes_to code toks ->
            Parser.parse (Parser.__init__ toks) = Some (Ok ast, s') ->
            Forall wf_stmt ast).
  { intros toks s' ast Hlex Hp. eapply parse_loop_wf; [| | exact Hp].
    - simpl. now apply (tokenize_token_ok code).
    - constructor. }
  split.
  - unfold run in Hrun.
    destruct (Lexer.tokenize Lexer.__init__ code) as [[[toks|e] lx]|] eqn:Hlex;
      try discriminate.
    destruct (Parser.parse (Parser.__init__ toks)) as [[[ast|e] s']|] eqn:Hp;
      try discriminate.
    assert (Hast : Forall wf_stmt ast) by (eapply Hwf; [exists lx |]; eauto).
    destruct (program_code ast Hast) as (ins & E & N).
    unfold CodeGenerator.generate, CodeGenerator.bind in Hrun. rewrite E in Hrun.
    cbn in Hrun.
    destruct (VirtualMachine.execute ins VirtualMachine.__init__)
      as [[[]|e] vm1] eqn:Hex; try discriminate.
    injection Hrun as <-. now apply N in Hex.
  - intros toks s' ast Hlex Hp. specialize (Hwf toks s' ast Hlex Hp).
    eapply Forall_impl; [exact Hwf |]. intros st. apply statement_code.
Qed.

Lemma C6_witness :
  exists vm, run "var x = 20; print(x + (5 + 2));" = Finished vm
             /\ VirtualMachine.stack vm = [].
Proof.
  destruct (run "var x = 20; print(x + (5 + 2));") as [vm| |] eqn:E;
    [| vm_compute in E; discriminate ..].
  exists vm. split; [reflexivity |].
  exact (proj1 (C6_stack_empty _ vm E)).
Defined.

(** C9 (as stated) fails for two successive calls on one object: the
    second [tokenize] on the same [Lexer] returns the tokens of the first
    call as well, and the second [generate] on the same [CodeGenerator]
    the instructions of the first. *)
Lemma C9_counterexample :
  match Lexer.tokenize Lexer.__init__ "1" with
  | Some (Ok first, lexer) =>
      match Lexer.tokenize lexer "1" with
      | Some (Ok second, _) =>
          first = [("NUMBER", OInt 1); ("EOF", ONone)]
          /\ second = [("NUMBER", OInt 1); ("EOF", ONone);
                       ("NUMBER", OInt 1); ("EOF", ONone)]
      | _ => False
      end
  | _ => False
  end
  /\ match CodeGenerator.generate [OTuple [OStr "print"; OInt 1]]
             CodeGenerator.__init__ with
     | (Ok first, generator) =>
         match CodeGenerator.generate [OTuple [OStr "print"; OInt 1]] generator with
         | (Ok second, _) =>
             first = ["PUSH 1"; "PRINT"]
             /\ second = ["PUSH 1"; "PRINT"; "PUSH 1"; "PRINT"]
         | _ => False
         end
     | _ => False
     end.
Proof. split; vm_compute; split; reflexivity. Qed.

(** C9 (amended). On a freshly constructed object each compile-side stage
    is a function of its input alone. The objects keep state between
    calls: [tokenize] on a lexer that already holds tokens returns them
    followed by the tokens a fresh lexer returns for the same source,
    [generate] does the same with instructions, and [parse] on a parser
    whose earlier [parse] returned gives the empty statement list. *)
Theorem C9_stage_objects_keep_state :
  (forall self code,
     Lexer.tokenize self code =
     match Lexer.tokenize Lexer.__init__ code with
     | Some (Ok toks, _) =>
         Some (Ok (Lexer.tokens self ++ toks),
               {| Lexer.tokens := Lexer.tokens self ++ toks;
                  Lexer.keywords := Lexer.keywords self |})
     | Some (Raise e, lx) =>
         Some (Raise e,
               {| Lexer.tokens := Lexer.tokens self ++ Lexer.tokens lx;
                  Lexer.keywords := Lexer.keywords self |})
     | None => None
     end)
  /\ (forall ast self,
        CodeGenerator.generate ast self =
        match CodeGenerator.generate ast CodeGenerator.__init__ with
        | (Ok ins, _) =>
            (Ok (CodeGenerator.instructions self ++ ins),
             {| CodeGenerator.instructions :=
                  CodeGenerator.instructions self ++ ins |})
        | (Raise e, g) =>
            (Raise e,
             {| CodeGenerator.instructions :=
                  CodeGenerator.instructions self
                  ++ CodeGenerator.instructions g |})
        end)
  /\ (forall s ast s',
        Parser.parse s = Some (Ok ast, s') ->
        Parser.parse s' = Some (Ok [], s')).
Proof.
  refine (conj tokenize_accumulates (conj generate_accumulates parse_again)).
Qed.

Lemma C9_witness :
  let s := Parser.__init__
             [("IDENTIFIER", OStr "print"); ("NUMBER", OInt 1);
              ("SEMICOLON", OStr ";"); ("EOF", ONone)] in
  let s' := {| Parser.tokens := Parser.tokens s; Parser.pos := 3 |} in
  Parser.parse s
  = Some (Ok [OTuple [OStr "print"; OTuple [OStr "NUMBER"; OInt 1]]], s')
  /\ Parser.parse s' = Some (Ok [], s').
Proof.
  intros s s'.
  assert (H : Parser.parse s
    = Some (Ok [OTuple [OStr "print"; OTuple [OStr "NUMBER"; OInt 1]]], s'))
    by reflexivity.
  split; [exact H |].
  exact (proj2 (proj2 C9_stage_objects_keep_state) s _ s' H).
Defined.

(** C4. A statement whose tag is unknown makes the generator raise its
    [RuntimeError]; an expression whose tag is unknown, or that is neither
    a tuple nor an int, is passed over without an instruction and without
    an error: [("print", ("STRING", "hi"))] compiles to a lone [PRINT]. *)
Theorem C4_unknown_expression_skipped :
  (forall tag fields self,
     String.eqb tag "var_decl" = false -> String.eqb tag "print" = false ->
     CodeGenerator.generate_statement (OTuple (OStr tag :: fields)) self
     = (Raise (RuntimeError ("Unknown statement type: " +:+ tag)), self))
  /\ (forall tag fields self,
        String.eqb tag "bin_op" = false -> String.eqb tag "NUMBER" = false ->
        String.eqb tag "IDENTIFIER" = false ->
        CodeGenerator.generate_expression (OTuple (OStr tag :: fields)) self
        = (Ok tt, self))
  /\ CodeGenerator.generate
       [OTuple [OStr "print"; OTuple [OStr "STRING"; OStr "hi"]]]
       CodeGenerator.__init__
     = (Ok ["PRINT"], {| CodeGenerator.instructions := ["PRINT"] |})
  /\ CodeGenerator.generate [OTuple [OStr "print"; ONone]]
       CodeGenerator.__init__
     = (Ok ["PRINT"], {| CodeGenerator.instructions := ["PRINT"] |}).
Proof.
  refine (conj _ (conj _ (conj eq_refl eq_refl))).
  - intros tag fields self H1 H2.
    unfold CodeGenerator.generate_statement. cbn [CodeGenerator.head_of eq_str].
    now rewrite H1, H2.
  - intros tag fields self H1 H2 H3.
    cbn [CodeGenerator.generate_expression eq_str]. now rewrite H1, H2, H3.
Qed.

Lemma C4_witness :
  CodeGenerator.generate_statement
    (OTuple [OStr "while"; OInt 1]) CodeGenerator.__init__
  = (Raise (RuntimeError "Unknown statement type: while"), CodeGenerator.__init__)
  /\ CodeGenerator.generate_expression
       (OTuple [OStr "STRING"; OStr "hi"]) CodeGenerator.__init__
     = (Ok tt, CodeGenerator.__init__).
Proof.
  split.
  - exact (proj1 C4_unknown_expression_skipped "while" [OInt 1]
             CodeGenerator.__init__ eq_refl eq_refl).
  - exact (proj1 (proj2 C4_unknown_expression_skipped) "STRING" [OStr "hi"]
             CodeGenerator.__init__ eq_refl eq_refl eq_refl).
Defined.

(** * Further properties of the code *)

(** ** The generated code computes what the tree denotes *)

Section CompilerCorrectness.
Import VirtualMachine.

Lemma wf_expr_typed (o : obj) :
  wf_expr o -> exists e, o = expr_obj e /\ expr_ok e = true.
Proof.
  induction 1 as [z | s Hs | op l r Ho Hl (el & -> & Hel) Hr (er & -> & Her)].
  - now exists (Num z).
  - now exists (Ident s).
  - exists (BinOp op el er). split; [reflexivity |]. simpl.
    now rewrite Ho, Hel, Her.
Qed.

Lemma wf_stmt_typed (o : obj) :
  wf_stmt o -> exists st, o = stmt_obj st /\ stmt_ok st = true.
Proof.
  intros [s e Hs He | e He]; destruct (wf_expr_typed e He) as (t & -> & Ht).
  - exists (VarDecl s t). split; [reflexivity |]. simpl. now rewrite Hs, Ht.
  - now exists (PrintStmt t).
Qed.

Lemma wf_program_typed (ast : list obj) :
  Forall wf_stmt ast ->
  exists p, ast = map stmt_obj p /\ forallb stmt_ok p = true.
Proof.
  induction 1 as [|o ast Ho _ (p & -> & Hp)]; [now exists [] |].
  destruct (wf_stmt_typed o Ho) as (st & -> & Hst).
  exists (st :: p). split; [reflexivity |]. simpl. now rewrite Hst, Hp.
Qed.

Lemma generate_expression_typed (e : expr) (self : CodeGenerator.t) :
  CodeGenerator.generate_expression (expr_obj e) self
  = (Ok tt, {| CodeGenerator.instructions :=
                 CodeGenerator.instructions self ++ code_expr e |}).
Proof.
  revert self. induction e as [z | s | o l IHl r IHr]; intros self;
    [reflexivity | reflexivity |].
  change (CodeGenerator.generate_expression (expr_obj (BinOp o l r)) self)
    with (CodeGenerator.bind (CodeGenerator.generate_expression (expr_obj l))
            (fun _ => CodeGenerator.bind
               (CodeGenerator.generate_expression (expr_obj r))
               (fun _ => CodeGenerator.emit ("OP " +:+ o))) self).
  unfold CodeGenerator.bind. rewrite IHl, IHr.
  unfold CodeGenerator.emit. cbn. now rewrite <- !app_assoc.
Qed.

Lemma generate_statement_typed (st : stmt) (self : CodeGenerator.t) :
  CodeGenerator.generate_statement (stmt_obj st) self
  = (Ok tt, {| CodeGenerator.instructions :=
                 CodeGenerator.instructions self ++ code_stmt st |}).
Proof.
  destruct st as [s e | e].
  - change (CodeGenerator.generate_statement (stmt_obj (VarDecl s e)) self)
      with (CodeGenerator.bind (CodeGenerator.emit ("ALLOC " +:+ s))
              (fun _ => CodeGenerator.bind
                 (CodeGenerator.generate_expression (expr_obj e))
                 (fun _ => CodeGenerator.emit ("STORE " +:+ s))) self).
    unfold CodeGenerator.bind.
    change (CodeGenerator.emit ("ALLOC " +:+ s) self)
      with (@Ok unit tt,
            {| CodeGenerator.instructions :=
                 CodeGenerator.instructions self ++ ["ALLOC " +:+ s] |}).
    cbv iota beta. rewrite generate_expression_typed.
    unfold CodeGenerator.emit. cbn. now rewrite <- !app_assoc.
  - change (CodeGenerator.generate_statement (stmt_obj (PrintStmt e)) self)
      with (CodeGenerator.bind (CodeGenerator.generate_expression (expr_obj e))
              (fun _ => CodeGenerator.emit "PRINT") self).
    unfold CodeGenerator.bind. rewrite generate_expression_typed.
    unfold CodeGenerator.emit. cbn. now rewrite <- !app_assoc.
Qed.

Lemma generate_loop_typed (p : list stmt) (self : CodeGenerator.t) :
  CodeGenerator.generate_loop (map stmt_obj p) self
  = (Ok tt, {| CodeGenerator.instructions :=
                 CodeGenerator.instructions self ++ code_program p |}).
Proof.
  revert self. induction p as [|st p IH]; intros [ins].
  - cbn. now rewrite app_nil_r.
  - cbn [map CodeGenerator.generate_loop]. unfold CodeGenerator.bind.
    rewrite generate_statement_typed, IH. cbn. now rewrite <- app_assoc.
Qed.

(** The machine after a push of [v]. *)
Lemma expr_exec (e : expr) :
  expr_ok e = true ->
  forall vm,
    match value_of (variables vm) e with
    | Ok v =>
        execute (code_expr e) vm
        = (Ok tt, {| stack := v :: stack vm; variables := variables vm;
                     stdout := stdout vm |})
    | Raise err =>
        fst (execute (code_expr e) vm) = Raise err
        /\ variables (snd (execute (code_expr e) vm)) = variables vm
        /\ stdout (snd (execute (code_expr e) vm)) = stdout vm
    end.
Proof.
  induction e as [z | s | o l IHl r IHr]; intros Hok vm.
  - cbn [value_of code_expr]. now rewrite execute_one, exec_PUSH.
  - cbn [value_of code_expr]. now rewrite execute_one, exec_LOAD.
  - cbn [expr_ok] in Hok. apply andb_prop in Hok as [Hok Hr].
    apply andb_prop in Hok as [Ho Hl].
    specialize (IHl Hl vm). cbn [value_of code_expr].
    rewrite execute_app. unfold bind.
    destruct (value_of (variables vm) l) as [vl | err].
    2:{ destruct (execute (code_expr l) vm) as [[[]|e1] vm1]; simpl in *;
          destruct IHl as (E & ? & ?); [discriminate |].
        injection E as ->. auto. }
    rewrite IHl. rewrite execute_app. unfold bind.
    set (vm1 := {| stack := vl :: stack vm; variables := variables vm;
                   stdout := stdout vm |}).
    specialize (IHr Hr vm1).
    change (variables vm1) with (variables vm) in IHr.
    destruct (value_of (variables vm) r) as [vr | err].
    2:{ destruct (execute (code_expr r) vm1) as [[[]|e1] vm2]; simpl in *;
          destruct IHr as (E & ? & ?); [discriminate |].
        injection E as ->. auto. }
    rewrite IHr. rewrite execute_one, exec_OP by assumption.
    unfold bind, pop. cbn. destruct (apply_op o vl vr); cbn; auto.
Qed.

Lemma stmt_exec (st : stmt) :
  stmt_ok st = true ->
  forall vm, same_run (execute (code_stmt st) vm) (interp_stmt st vm).
Proof.
  destruct st as [s e | e]; cbn [stmt_ok]; intros Hok vm.
  - apply andb_prop in Hok as [Hs He]. cbn [code_stmt interp_stmt].
    rewrite execute_app. unfold bind.
    rewrite execute_one, exec_ALLOC by assumption. unfold set_var at 1.
    rewrite execute_app. unfold bind.
    set (vm1 := {| stack := stack vm;
                   variables := <[s := VNone]> (variables vm);
                   stdout := stdout vm |}).
    pose proof (expr_exec e He vm1) as H.
    change (variables vm1) with (<[s := VNone]> (variables vm)) in H.
    destruct (value_of (<[s := VNone]> (variables vm)) e) as [v | err].
    + rewrite H, execute_one, exec_STORE by assumption.
      unfold bind, pop, set_var. cbn. repeat split.
    + destruct (execute (code_expr e) vm1) as [[[]|e1] vm2]; simpl in *;
        destruct H as (E & Hv & Ho); [discriminate |].
      injection E as ->. repeat split; [exact Hv | exact Ho | discriminate].
  - cbn [code_stmt interp_stmt]. rewrite execute_app. unfold bind.
    pose proof (expr_exec e Hok vm) as H.
    destruct (value_of (variables vm) e) as [v | err].
    + rewrite H, execute_one, exec_PRINT. unfold bind, pop, print. cbn.
      repeat split.
    + destruct (execute (code_expr e) vm) as [[[]|e1] vm2]; simpl in *;
        destruct H as (E & Hv & Ho); [discriminate |].
      injection E as ->. repeat split; [exact Hv | exact Ho | discriminate].
Qed.

Lemma same_run_Ok (a b : result unit * t) :
  same_run a b -> fst a = Ok tt -> a = b.
Proof.
  destruct a as [ra [sa va oa]], b as [rb [sb vb ob]].
  intros (Hr & Hv & Ho & Hs) Hok. simpl in *. specialize (Hs Hok).
  congruence.
Qed.

Lemma program_exec (p : list stmt) :
  forallb stmt_ok p = true ->
  forall vm, same_run (execute (code_program p) vm) (interp p vm).
Proof.
  induction p as [|st p IH]; intros Hok vm; [repeat split |].
  cbn [forallb] in Hok. apply andb_prop in Hok as [Hst Hp].
  change (code_program (st :: p)) with (code_stmt st ++ code_program p).
  rewrite execute_app. cbn [interp]. unfold bind.
  pose proof (stmt_exec st Hst vm) as H.
  destruct (execute (code_stmt st) vm) as [[[]|e1] vm1] eqn:E1.
  - apply same_run_Ok in H; [| reflexivity]. rewrite <- H. now apply IH.
  - destruct (interp_stmt st vm) as [[[]|e2] vm2];
      destruct H as (Hr & Hv & Ho & _); simpl in *; [discriminate |].
    repeat split; [exact Hr | exact Hv | exact Ho | discriminate].
Qed.

Lemma float_of_int_error (a : Z) (err : exn) :
  float_of_int a = Raise err -> err = OverflowError.
Proof.
  unfold float_of_int. destruct (binary_normalize _ _ _ _ _);
    intros [=]; congruence.
Qed.

Lemma int_truediv_error (a b : Z) (err : exn) :
  int_truediv a b = Raise err ->
  err = ZeroDivisionError \/ err = OverflowError.
Proof.
  unfold int_truediv. destruct (b =? 0)%Z; [intros [= <-]; auto |].
  destruct (SFdiv _ _ _ _); intros [=]; auto.
Qed.

Lemma float_truediv_error (x y : spec_float) (err : exn) :
  float_truediv x y = Raise err -> err = ZeroDivisionError.
Proof.
  unfold float_truediv. destruct (float_is_zero y); intros [=]; congruence.
Qed.

Lemma arith_error fi ff (l r : value) (err : exn) :
  arith fi ff l r = Raise err -> arithmetic_error err = true.
Proof.
  unfold arith. destruct l as [|a|x], r as [|b|y]; try discriminate;
    try (intros [= <-]; reflexivity).
  - destruct (float_of_int a) eqn:E; [discriminate |].
    intros [= <-]. now rewrite (float_of_int_error _ _ E).
  - destruct (float_of_int b) eqn:E; [discriminate |].
    intros [= <-]. now rewrite (float_of_int_error _ _ E).
Qed.

Lemma truediv_error (l r : value) (err : exn) :
  truediv l r = Raise err -> arithmetic_error err = true.
Proof.
  unfold truediv. destruct l as [|a|x], r as [|b|y]; try discriminate;
    try (intros [= <-]; reflexivity).
  - destruct (int_truediv a b) eqn:E; [discriminate |]. intros [= <-].
    now destruct (int_truediv_error _ _ _ E) as [-> | ->].
  - destruct (float_of_int a) eqn:E;
      [| intros [= <-]; now rewrite (float_of_int_error _ _ E)].
    destruct (float_truediv _ y) eqn:E'; [discriminate |]. intros [= <-].
    now rewrite (float_truediv_error _ _ _ E').
  - destruct (float_of_int b) eqn:E;
      [| intros [= <-]; now rewrite (float_of_int_error _ _ E)].
    destruct (float_truediv x _) eqn:E'; [discriminate |]. intros [= <-].
    now rewrite (float_truediv_error _ _ _ E').
  - destruct (float_truediv x y) eqn:E'; [discriminate |]. intros [= <-].
    now rewrite (float_truediv_error _ _ _ E').
Qed.

Lemma apply_op_error (o : string) (l r : value) (err : exn) :
  apply_op o l r = Raise err -> arithmetic_error err = true.
Proof.
  unfold apply_op.
  repeat (destruct (String.eqb o _); [apply arith_error |]).
  apply truediv_error.
Qed.

Lemma value_of_error vars (e : expr) (err : exn) :
  value_of vars e = Raise err -> arithmetic_error err = true.
Proof.
  induction e as [z | s | o l IHl r IHr]; cbn [value_of]; try discriminate.
  destruct (value_of vars l) as [vl | e1]; [| intros [= <-]; now apply IHl].
  destruct (value_of vars r) as [vr | e2]; [| intros [= <-]; now apply IHr].
  apply apply_op_error.
Qed.

Lemma interp_error (p : list stmt) vm (err : exn) vm' :
  interp p vm = (Raise err, vm') -> arithmetic_error err = true.
Proof.
  revert vm. induction p as [|st p IH]; intros vm; [discriminate |].
  cbn [interp]. unfold bind.
  destruct (interp_stmt st vm) as [[[]|e1] vm1] eqn:E1; [apply IH |].
  intros [= <- _]. destruct st as [s e | e]; cbn [interp_stmt] in E1.
  - destruct (value_of _ e) eqn:Ev; [discriminate |].
    injection E1 as <- _. eapply value_of_error; eauto.
  - destruct (value_of _ e) eqn:Ev; [discriminate |].
    injection E1 as <- _. eapply value_of_error; eauto.
Qed.
End CompilerCorrectness.

Section CompilerProperties.
Import VirtualMachine.

(** X2. Executing the code of an expression either pushes exactly the
    value the tree denotes in the current variables, leaving variables and
    output untouched, or raises the exception the direct evaluation raises
    (left operand first), again without touching variables or output. *)
Theorem X2_expression_code_computes_value (e : expr) (vm : t) :
  expr_ok e = true ->
  match value_of (variables vm) e with
  | Ok v =>
      execute (code_expr e) vm
      = (Ok tt, {| stack := v :: stack vm; variables := variables vm;
                   stdout := stdout vm |})
  | Raise err =>
      fst (execute (code_expr e) vm) = Raise err
      /\ variables (snd (execute (code_expr e) vm)) = variables vm
      /\ stdout (snd (execute (code_expr e) vm)) = stdout vm
  end.
Proof. intros Hok. now apply expr_exec. Qed.

Lemma X2_witness :
  let e := BinOp "-" (Ident "x") (BinOp "*" (Num 2) (Num 3)) in
  let vm := {| stack := [VNone]; variables := {[ "x" := VInt 10 ]};
               stdout := ["7"] |} in
  expr_ok e = true
  /\ execute ["LOAD x"; "PUSH 2"; "PUSH 3"; "OP *"; "OP -"] vm
     = (Ok tt, {| stack := [VInt 4; VNone]; variables := {[ "x" := VInt 10 ]};
                  stdout := ["7"] |}).
Proof.
  intros e vm. split; [reflexivity |].
  exact (X2_expression_code_computes_value e vm eq_refl).
Defined.

(** X5. A declaration cannot read the variable it declares: [ALLOC] resets
    the name before the initializer runs, so the code of
    [var s = s op e;] always raises, whatever [s] held before. *)
Theorem X5_declaration_cannot_read_itself
    (s o : string) (e : expr) (vm : t) :
  is_name s = true -> is_op o = true -> expr_ok e = true ->
  exists err,
    fst (execute (code_stmt (VarDecl s (BinOp o (Ident s) e))) vm) = Raise err
    /\ arithmetic_error err = true.
Proof.
  intros Hs Ho He.
  assert (Hok : stmt_ok (VarDecl s (BinOp o (Ident s) e)) = true)
    by (simpl; now rewrite Hs, Ho, He).
  destruct (stmt_exec _ Hok vm) as (Hr & _). rewrite Hr.
  cbn [interp_stmt value_of]. rewrite lookup_insert_eq. cbn [default].
  destruct (value_of _ e) as [v | err] eqn:Ev.
  - rewrite apply_op_none by auto. now exists TypeError.
  - exists err. split; [reflexivity |]. eapply value_of_error; eauto.
Qed.

Lemma X5_witness :
  let vm := {| stack := []; variables := {[ "x" := VInt 1 ]}; stdout := [] |} in
  is_name "x" = true /\ is_op "+" = true
  /\ exists err,
       fst (execute ["ALLOC x"; "LOAD x"; "PUSH 1"; "OP +"; "STORE x"] vm)
       = Raise err
       /\ arithmetic_error err = true.
Proof.
  intros vm. split; [reflexivity |]. split; [reflexivity |].
  exact (X5_declaration_cannot_read_itself "x" "+" (Num 1) vm
           eq_refl eq_refl eq_refl).
Defined.

Lemma value_of_ints vars (e : expr) :
  expr_ok e = true -> division_free e = true -> reads_ints vars e = true ->
  exists z, value_of vars e = Ok (VInt z).
Proof.
  induction e as [z | s | o l IHl r IHr]; cbn [expr_ok division_free reads_ints value_of].
  - eauto.
  - intros _ _ H. destruct (vars !! s) as [[| z |]|]; try discriminate. eauto.
  - intros [[Ho Hl]%andb_prop Hr]%andb_prop
           [[Hd Hdl]%andb_prop Hdr]%andb_prop [Hil Hir]%andb_prop.
    destruct (IHl Hl Hdl Hil) as [a ->], (IHr Hr Hdr Hir) as [b ->].
    apply negb_true_iff in Hd.
    destruct (is_op_cases o Ho) as [-> | [-> | [-> | ->]]];
      [eexists; reflexivity .. | discriminate].
Qed.

(** X6. An expression without division whose identifiers all hold ints
    always evaluates: its code pushes an int and raises nothing (ints do
    not overflow). *)
Theorem X6_integer_expressions_succeed (e : expr) (vm : t) :
  expr_ok e = true -> division_free e = true ->
  reads_ints (variables vm) e = true ->
  exists z,
    execute (code_expr e) vm
    = (Ok tt, {| stack := VInt z :: stack vm; variables := variables vm;
                 stdout := stdout vm |}).
Proof.
  intros Hok Hd Hi. destruct (value_of_ints _ e Hok Hd Hi) as [z Hz].
  exists z. pose proof (expr_exec e Hok vm) as H. now rewrite Hz in H.
Qed.

Lemma X6_witness :
  let e := BinOp "*" (Ident "x") (BinOp "-" (Num 2) (Num 5)) in
  let vm := {| stack := []; variables := {[ "x" := VInt 7 ]}; stdout := [] |} in
  expr_ok e = true /\ division_free e = true
  /\ reads_ints (variables vm) e = true
  /\ exists z,
       execute ["LOAD x"; "PUSH 2"; "PUSH 5"; "OP -"; "OP *"] vm
       = (Ok tt, {| stack := [VInt z]; variables := {[ "x" := VInt 7 ]};
                    stdout := [] |}).
Proof.
  intros e vm. split; [reflexivity |]. split; [reflexivity |].
  split; [reflexivity |].
  exact (X6_integer_expressions_succeed e vm eq_refl eq_refl eq_refl).
Defined.

Lemma interp_prints (p : list stmt) vm vm' :
  interp p vm = (Ok tt, vm') ->
  length (stdout vm') = length (stdout vm) + prints_of p.
Proof.
  revert vm. induction p as [|st p IH]; intros vm.
  - intros [= <-]. simpl. lia.
  - cbn [interp]. unfold bind.
    destruct (interp_stmt st vm) as [[[]|e1] vm1] eqn:E1; [| discriminate].
    intros H. apply IH in H. rewrite H. clear H.
    destruct st as [s e | e]; cbn [interp_stmt] in E1;
      destruct (value_of _ e); try discriminate; injection E1 as <-; simpl.
    + lia.
    + rewrite length_app. simpl. lia.
Qed.

(** X7. When the code of a program runs to its end, it has written one
    line per [print] statement, no more and no less. *)
Theorem X7_one_line_per_print (p : list stmt) (vm vm' : t) :
  forallb stmt_ok p = true ->
  execute (code_program p) vm = (Ok tt, vm') ->
  length (stdout vm') = length (stdout vm) + prints_of p.
Proof.
  intros Hok Hex. pose proof (program_exec p Hok vm) as H.
  apply same_run_Ok in H; [| now rewrite Hex].
  rewrite Hex in H. symmetry in H. now apply interp_prints in H.
Qed.

Lemma X7_witness :
  let p := [VarDecl "x" (Num 1); PrintStmt (Ident "x"); PrintStmt (Num 2)] in
  forallb stmt_ok p = true
  /\ exists vm', execute (code_program p) __init__ = (Ok tt, vm')
                 /\ length (stdout vm') = 2.
Proof.
  intros p. split; [reflexivity |].
  destruct (execute (code_program p) __init__) as [r vm'] eqn:E.
  assert (Hr : r = Ok tt) by (apply (f_equal fst) in E; exact (eq_sym E)).
  subst r. exists vm'. split; [reflexivity |].
  exact (X7_one_line_per_print p __init__ vm' eq_refl E).
Defined.
End CompilerProperties.

(** ** The machine on instructions the generator does not write *)

Section MachineEdges.
Import VirtualMachine.

Lemma int_error (s : string) (err : exn) : int s = Raise err -> err = ValueError.
Proof.
  unfold int. destruct (rstrip _ _) as [|c rest]; [intros [=]; congruence |].
  repeat match goal with
         | |- context [if ?b then _ else _] => destruct b
         | |- context [match digits_of ?x with _ => _ end] =>
             destruct (digits_of x)
         end; intros [=]; congruence.
Qed.

(** X8. An instruction with no word at all raises [IndexError]; one whose
    first word is none of the six opcodes is passed over: no error and no
    change of the machine. *)
Theorem X8_unrecognised_instruction (instruction : string) (vm : t) :
  match split instruction with
  | [] => execute_instruction instruction vm = (Raise IndexError, vm)
  | w :: _ =>
      is_opcode w = false -> execute_instruction instruction vm = (Ok tt, vm)
  end.
Proof.
  unfold execute_instruction, is_opcode.
  destruct (split instruction) as [|w rest]; [reflexivity |].
  intros H. repeat (apply orb_false_elim in H as [H ?]).
  unfold bind at 1. cbn [part lookup list_lookup ret].
  repeat match goal with E : String.eqb w _ = false |- _ => rewrite E; clear E end.
  reflexivity.
Qed.

Lemma X8_witness :
  execute_instruction "HALT now" __init__ = (Ok tt, __init__)
  /\ execute_instruction "   " __init__ = (Raise IndexError, __init__).
Proof.
  split.
  - exact (X8_unrecognised_instruction "HALT now" __init__ eq_refl).
  - exact (X8_unrecognised_instruction "   " __init__).
Defined.

(** X9. An opcode that takes an operand, written without one, raises
    [IndexError] before the machine is touched (also [STORE] and [OP],
    which read the operand before they pop); [PUSH] with an operand that
    is not an integer literal raises [ValueError], again with no change. *)
Theorem X9_malformed_operand (instruction w : string) (vm : t) :
  is_opcode w = true -> String.eqb w "PRINT" = false ->
  (split instruction = [w] ->
   execute_instruction instruction vm = (Raise IndexError, vm))
  /\ (forall text rest err,
        split instruction = "PUSH" :: text :: rest -> int text = Raise err ->
        execute_instruction instruction vm = (Raise ValueError, vm)).
Proof.
  intros Hw Hp. split.
  - intros Hs. unfold execute_instruction. rewrite Hs.
    unfold is_opcode in Hw.
    repeat (apply orb_prop in Hw as [Hw | Hw]);
      apply String.eqb_eq in Hw; subst w; try discriminate; reflexivity.
  - intros text rest err Hs Hi. unfold execute_instruction. rewrite Hs.
    unfold bind. cbn. rewrite Hi. cbn. now rewrite (int_error _ _ Hi).
Qed.

Lemma X9_witness :
  execute_instruction "STORE" __init__ = (Raise IndexError, __init__)
  /\ execute_instruction "PUSH 1.5" __init__ = (Raise ValueError, __init__).
Proof.
  split.
  - exact (proj1 (X9_malformed_operand "STORE" "STORE" __init__ eq_refl eq_refl)
             eq_refl).
  - exact (proj2 (X9_malformed_operand "PUSH 1.5" "PUSH" __init__ eq_refl eq_refl)
             "1.5" [] ValueError eq_refl eq_refl).
Defined.

(** X10. Only the first two words of an instruction count: surrounding
    whitespace and any further words change nothing. *)
Theorem X10_first_two_words (i j : string) (vm : t) :
  take 2 (split i) = take 2 (split j) ->
  execute_instruction i vm = execute_instruction j vm.
Proof.
  intros H. unfold execute_instruction, part.
  assert (H0 : split i !! 0 = split j !! 0).
  { rewrite <- (lookup_take_lt (split i) 2 0), <- (lookup_take_lt (split j) 2 0) by lia.
    now rewrite H. }
  assert (H1 : split i !! 1 = split j !! 1).
  { rewrite <- (lookup_take_lt (split i) 2 1), <- (lookup_take_lt (split j) 2 1) by lia.
    now rewrite H. }
  now rewrite H0, H1.
Qed.

Lemma X10_witness :
  take 2 (split "  PUSH   7 8 9 ") = take 2 (split "PUSH 7")
  /\ execute_instruction "  PUSH   7 8 9 " __init__
     = execute_instruction "PUSH 7" __init__.
Proof.
  split; [reflexivity |].
  exact (X10_first_two_words "  PUSH   7 8 9 " "PUSH 7" __init__ eq_refl).
Defined.

(** X11. [OP] with an operator other than [+ - * /] pops both operands
    and pushes nothing, without an error. *)
Theorem X11_unknown_operator_drops_operands
    (instruction o : string) (more : list string) (vm : t)
    (l r : value) (rest : list value) :
  split instruction = "OP" :: o :: more -> is_op o = false ->
  stack vm = r :: l :: rest ->
  execute_instruction instruction vm
  = (Ok tt, {| stack := rest; variables := variables vm; stdout := stdout vm |}).
Proof.
  intros Hs Ho Hst. unfold execute_instruction. rewrite Hs.
  unfold is_op in Ho. repeat (apply orb_false_elim in Ho as [Ho ?]).
  unfold bind, pop. cbn. rewrite Hst.
  repeat match goal with E : String.eqb o _ = false |- _ => rewrite E; clear E end.
  reflexivity.
Qed.

Lemma X11_witness :
  let vm := {| stack := [VInt 2; VInt 7]; variables := ∅; stdout := [] |} in
  split "OP %" = ["OP"; "%"] /\ is_op "%" = false
  /\ execute_instruction "OP %" vm
     = (Ok tt, {| stack := []; variables := ∅; stdout := [] |}).
Proof.
  intros vm. split; [reflexivity |]. split; [reflexivity |].
  exact (X11_unknown_operator_drops_operands "OP %" "%" [] vm (VInt 7) (VInt 2) []
           eq_refl eq_refl eq_refl).
Defined.

(** X12. Stack underflow: [STORE] and [PRINT] on an empty stack raise
    [IndexError] and change nothing; [OP] raises [IndexError] on fewer than
    two values, and a single value it found is gone. *)
Theorem X12_stack_underflow (n o : string) (vm : t) :
  is_name n = true -> is_name o = true ->
  (stack vm = [] ->
   execute_instruction ("STORE " +:+ n) vm = (Raise IndexError, vm)
   /\ execute_instruction "PRINT" vm = (Raise IndexError, vm)
   /\ execute_instruction ("OP " +:+ o) vm = (Raise IndexError, vm))
  /\ (forall v, stack vm = [v] ->
        execute_instruction ("OP " +:+ o) vm
        = (Raise IndexError,
           {| stack := []; variables := variables vm; stdout := stdout vm |})).
Proof.
  intros Hn Ho.
  assert (Hop : forall vm', execute_instruction ("OP " +:+ o) vm'
            = bind pop (fun right => bind pop (fun left =>
                if String.eqb o "+" then
                  bind (lift (arith Z.add (SFadd prec emax) left right)) push
                else if String.eqb o "-" then
                  bind (lift (arith Z.sub (SFsub prec emax) left right)) push
                else if String.eqb o "*" then
                  bind (lift (arith Z.mul (SFmul prec emax) left right)) push
                else if String.eqb o "/" then
                  bind (lift (truediv left right)) push
                else ret tt)) vm').
  { intros vm'. unfold execute_instruction.
    change ("OP " +:+ o) with ("OP" +:+ " " +:+ o).
    now rewrite split_two. }
  split.
  - intros Hs. rewrite exec_STORE, exec_PRINT, Hop by assumption.
    unfold bind, pop. now rewrite Hs.
  - intros v Hs. rewrite Hop. unfold bind, pop. now rewrite Hs.
Qed.

Lemma X12_witness :
  let vm := {| stack := [VInt 1]; variables := ∅; stdout := [] |} in
  is_name "x" = true /\ is_name "+" = true
  /\ execute_instruction "OP +" vm = (Raise IndexError, __init__).
Proof.
  intros vm. split; [reflexivity |]. split; [reflexivity |].
  exact (proj2 (X12_stack_underflow "x" "+" vm eq_refl eq_refl) (VInt 1) eq_refl).
Defined.

(** X13. Division by an int zero raises [ZeroDivisionError] for every
    int or float dividend, and so does a float dividend over a float
    zero of either sign; both operands have left the stack. *)
Theorem X13_division_by_zero (vm : t) (l r : value) (rest : list value) :
  stack vm = r :: l :: rest ->
  (r = VInt 0 /\ l <> VNone)
  \/ (exists s x, r = VFloat (S754_zero s) /\ l = VFloat x) ->
  execute_instruction "OP /" vm
  = (Raise ZeroDivisionError,
     {| stack := rest; variables := variables vm; stdout := stdout vm |}).
Proof.
  intros Hs H. rewrite (exec_OP "/") by reflexivity.
  unfold bind, pop. rewrite Hs. cbn.
  change (apply_op "/" l r) with (truediv l r).
  destruct H as [[-> Hl] | (s & x & -> & ->)]; [| reflexivity].
  destruct l as [| a | x]; [congruence | reflexivity | reflexivity].
Qed.

Lemma X13_witness :
  let vm := {| stack := [VInt 0; VInt 5]; variables := ∅; stdout := [] |} in
  stack vm = [VInt 0; VInt 5]
  /\ execute_instruction "OP /" vm = (Raise ZeroDivisionError, __init__).
Proof.
  intros vm. split; [reflexivity |].
  refine (X13_division_by_zero vm (VInt 5) (VInt 0) [] eq_refl _).
  left. split; [reflexivity | discriminate].
Defined.

(** X14. What [STORE] wrote, [LOAD] reads back; a [LOAD] of another name
    reads what it read before the [STORE]. *)
Theorem X14_store_then_load (n m : string) (vm : t) (v : value)
    (rest : list value) :
  is_name n = true -> is_name m = true -> stack vm = v :: rest ->
  execute ["STORE " +:+ n; "LOAD " +:+ m] vm
  = (Ok tt,
     {| stack := (if String.eqb n m then v
                  else default VNone (variables vm !! m)) :: rest;
        variables := <[n := v]> (variables vm);
        stdout := stdout vm |}).
Proof.
  intros Hn Hm Hs. cbn [execute]. unfold bind at 1.
  rewrite exec_STORE by assumption. unfold bind at 1, pop. rewrite Hs.
  unfold set_var. unfold bind. rewrite exec_LOAD by assumption.
  unfold push, ret. cbn.
  destruct (String.eqb_spec n m) as [-> | Hne].
  - now rewrite lookup_insert_eq.
  - now rewrite lookup_insert_ne.
Qed.

Lemma X14_witness :
  let vm := {| stack := [VInt 3]; variables := {[ "y" := VInt 9 ]};
               stdout := [] |} in
  is_name "x" = true /\ is_name "y" = true
  /\ execute ["STORE x"; "LOAD y"] vm
     = (Ok tt, {| stack := [VInt 9];
                  variables := <["x" := VInt 3]> {[ "y" := VInt 9 ]};
                  stdout := [] |}).
Proof.
  intros vm. split; [reflexivity |]. split; [reflexivity |].
  exact (X14_store_then_load "x" "y" vm (VInt 3) [] eq_refl eq_refl eq_refl).
Defined.

(** X15. Execution is sequential and stops at the first exception: a
    list of instructions followed by another runs the second from the
    machine the first left, and runs nothing of it when the first
    raised. *)
Theorem X15_execute_in_sequence (a b : list string) (vm : t) :
  execute (a ++ b) vm =
  match execute a vm with
  | (Ok _, vm1) => execute b vm1
  | (Raise err, vm1) => (Raise err, vm1)
  end.
Proof. rewrite execute_app. reflexivity. Qed.
End MachineEdges.

(** ** What [tokenize] returns *)

Section LexerOutcome.
Import Lexer.

Lemma span_keeps_exists p q (s : string) :
  string_existsb q (snd (span p s)) = true -> string_existsb q s = true.
Proof.
  induction s as [|c s IH]; simpl; [auto |].
  destruct (p c); [| auto].
  destruct (span p s) as [pre post]. simpl in *. intros H.
  rewrite (IH H). apply orb_true_r.
Qed.

Lemma lex_step_rest (c : ascii) (rest : string) q :
  match lex_step c rest with
  | Emit _ rest' | Skip rest' =>
      string_existsb q rest' = true -> string_existsb q rest = true
  | Stop _ => True
  end.
Proof.
  rewrite lex_step_spec.
  repeat (match goal with
          | |- context [if ?b then _ else _] => destruct b
          | |- context [match int ?s with _ => _ end] => destruct (int s)
          end; try apply span_keeps_exists; try exact I; auto).
Qed.

Lemma lex_step_stop (c : ascii) (rest : string) (e : exn) :
  lex_step c rest = Stop e ->
  e = SyntaxError ("Unexpected character: " +:+ str1 c) /\ unnamed c = true.
Proof.
  rewrite lex_step_spec. unfold unnamed, named_char, is_any.
  destruct (is_digit c) eqn:Hd.
  { destruct (int_digit_run c rest Hd) as [n ->]. discriminate. }
  repeat (match goal with
          | |- context [if ?b then _ else _] =>
              destruct b eqn:?; [discriminate |]
          end).
  destruct (code c =? 10)%N; [discriminate |].
  intros [= <-]. split; reflexivity.
Qed.

Lemma scan_raises (fuel : nat) (code : string) (toks toks' : list token)
    (e : exn) :
  scan fuel code toks = Some (Raise e, toks') ->
  exists c, e = SyntaxError ("Unexpected character: " +:+ str1 c)
            /\ unnamed c = true
            /\ string_existsb (Ascii.eqb c) code = true.
Proof.
  revert code toks. induction fuel as [|fuel IH]; intros code toks H;
    [discriminate |].
  destruct code as [|c rest]; [discriminate |].
  rewrite scan_step in H. pose proof (lex_step_rest c rest) as Hr.
  destruct (lex_step c rest) as [tk rest'| rest'| e'] eqn:E.
  - destruct (IH _ _ H) as (x & He & Hx & Hin). exists x.
    repeat split; auto. simpl. rewrite (Hr _ Hin). apply orb_true_r.
  - destruct (IH _ _ H) as (x & He & Hx & Hin). exists x.
    repeat split; auto. simpl. rewrite (Hr _ Hin). apply orb_true_r.
  - injection H as <- <-. apply lex_step_stop in E as [-> Hc].
    exists c. repeat split; auto. simpl. now rewrite Ascii.eqb_refl.
Qed.

Lemma nonneg_of_uint (d : uint) : (0 <= Z.of_int (Pos d))%Z.
Proof. simpl. unfold Z.of_uint. apply N2Z.is_nonneg. Qed.

Lemma int_digit_run_nonneg (c : ascii) (rest : string) (n : Z) :
  is_digit c = true ->
  int (String c (fst (span is_digit rest))) = Ok n -> (0 <= n)%Z.
Proof.
  intros Hc H.
  assert (Hs : string_forallb is_digit (String c (fst (span is_digit rest))) = true)
    by (simpl; now rewrite Hc, span_forallb).
  assert (Hne : String c (fst (span is_digit rest)) <> "") by discriminate.
  destruct (digits_of_digits _ Hne Hs) as [d Hd].
  rewrite (int_of_digits _ d Hs Hd) in H.
  assert (n = Z.of_int (Pos d)) as -> by congruence.
  apply nonneg_of_uint.
Qed.

Lemma char_of_code (c : ascii) (n : N) :
  (code c =? n)%N = true -> c = ascii_of_N n.
Proof.
  intros H%N.eqb_eq. unfold code in H. rewrite <- H.
  symmetry. apply ascii_N_embedding.
Qed.

Lemma operator_shape (c : ascii) :
  is_operator c = true -> is_op (str1 c) = true.
Proof. apply operator_is_op. Qed.

Lemma lex_step_shape (c : ascii) (rest rest' : string) (tk : token) :
  lex_step c rest = Emit tk rest' ->
  token_shape tk = true /\ is_eof tk = false.
Proof.
  rewrite lex_step_spec.
  destruct (is_digit c) eqn:Hd.
  { destruct (int _) as [n|e] eqn:Hn; intros [= <- _].
    split; [| reflexivity]. unfold token_shape. simpl.
    apply Z.leb_le. eapply int_digit_run_nonneg; eauto. }
  destruct (is_ident_start c) eqn:Hi.
  { intros [= <- _]. split; [| reflexivity]. unfold token_shape. simpl.
    now rewrite Hi, span_forallb. }
  repeat (match goal with
          | |- context [if ?b then _ else _] => destruct b eqn:?
          end; try discriminate);
    intros [= <- _]; (split; [| reflexivity]);
    try (match goal with
         | E : (code c =? _)%N = true |- _ =>
             apply char_of_code in E; subst c; reflexivity
         end).
  unfold token_shape. simpl.
  match goal with E : is_operator c = true |- _ =>
    rewrite (operator_is_op c E) end.
  reflexivity.
Qed.

Lemma lexes_to_front (code : string) (toks : list token) :
  lexes_to code toks ->
  exists front,
    toks = front ++ [("EOF", ONone)]
    /\ forallb (fun tk => negb (is_eof tk)) front = true
    /\ forallb token_shape front = true.
Proof.
  intros [lx H]. unfold tokenize in H.
  destruct (scan _ code _) as [[[u|e] front]|] eqn:E; [| discriminate ..].
  injection H as <- _. exists front. split; [reflexivity |].
  split; (eapply scan_tokens; [| | exact E]; [| reflexivity]);
    intros c rest rest' tk Hs; apply lex_step_shape in Hs as [Hshape Heof];
    [now rewrite Heof | exact Hshape].
Qed.

(** X17. The tokens a fresh lexer returns end with the EOF sentinel and
    hold no other EOF token. *)
Theorem X17_eof_exactly_at_the_end (code : string) (toks : list token) :
  lexes_to code toks ->
  exists front,
    toks = front ++ [("EOF", ONone)]
    /\ forallb (fun tk => negb (is_eof tk)) front = true.
Proof.
  intros (front & -> & Hf & _)%lexes_to_front. now exists front.
Qed.

Lemma X17_witness :
  lexes_to "x1 = 007;"
    [("IDENTIFIER", OStr "x1"); ("ASSIGN", OStr "="); ("NUMBER", OInt 7);
     ("SEMICOLON", OStr ";"); ("EOF", ONone)]
  /\ exists front,
       [("IDENTIFIER", OStr "x1"); ("ASSIGN", OStr "="); ("NUMBER", OInt 7);
        ("SEMICOLON", OStr ";"); ("EOF", ONone)] = front ++ [("EOF", ONone)]
       /\ forallb (fun tk => negb (is_eof tk)) front = true.
Proof.
  assert (H : lexes_to "x1 = 007;"
    [("IDENTIFIER", OStr "x1"); ("ASSIGN", OStr "="); ("NUMBER", OInt 7);
     ("SEMICOLON", OStr ";"); ("EOF", ONone)])
    by (eexists; vm_compute; reflexivity).
  split; [exact H |]. exact (X17_eof_exactly_at_the_end _ _ H).
Defined.

(** X18. Every token a fresh lexer returns has the value its kind
    promises: a NUMBER a non-negative int, an IDENTIFIER a string that
    starts with a letter or underscore and goes on with word characters,
    an OPERATOR one of [+ - * /], the punctuation kinds their own
    character, EOF [None]; no other kind occurs. *)
Theorem X18_token_values (code : string) (toks : list token) :
  lexes_to code toks -> forallb token_shape toks = true.
Proof.
  intros (front & -> & _ & Hf)%lexes_to_front.
  rewrite forallb_app, Hf. reflexivity.
Qed.

Lemma X18_witness :
  lexes_to "(a+1)" [("LPAREN", OStr "("); ("IDENTIFIER", OStr "a");
                    ("OPERATOR", OStr "+"); ("NUMBER", OInt 1);
                    ("RPAREN", OStr ")"); ("EOF", ONone)]
  /\ forallb token_shape
       [("LPAREN", OStr "("); ("IDENTIFIER", OStr "a");
        ("OPERATOR", OStr "+"); ("NUMBER", OInt 1);
        ("RPAREN", OStr ")"); ("EOF", ONone)] = true.
Proof.
  assert (H : lexes_to "(a+1)"
    [("LPAREN", OStr "("); ("IDENTIFIER", OStr "a");
     ("OPERATOR", OStr "+"); ("NUMBER", OInt 1);
     ("RPAREN", OStr ")"); ("EOF", ONone)])
    by (eexists; vm_compute; reflexivity).
  split; [exact H |]. exact (X18_token_values _ _ H).
Defined.
End LexerOutcome.

(** ** What [parse] reads *)

Section ParserReads.
Import Parser.

Lemma statement_mono (fuel fuel' : nat) s r :
  statement fuel s = Some r -> fuel <= fuel' -> statement fuel' s = Some r.
Proof.
  intros H Hle. destruct (fuel_mono fuel) as (He & _ & _).
  unfold statement in *. eapply bind_mono; [exact H | auto |].
  cbv beta. intros tk s1 r1 _ Hk.
  destruct (_ && _).
  { unfold variable_declaration in *.
    repeat (eapply bind_mono; [eassumption | eauto | cbv beta; intros]).
    assumption. }
  destruct (_ && _); [| assumption].
  unfold print_statement in *.
  repeat (eapply bind_mono; [eassumption | eauto | cbv beta; intros]).
  assumption.
Qed.

Lemma parse_loop_mono (fuel : nat) :
  forall fuel' statements s r,
    parse_loop fuel statements s = Some r -> fuel <= fuel' ->
    parse_loop fuel' statements s = Some r.
Proof.
  induction fuel as [|fuel IH]; intros fuel' statements s r H Hle;
    [discriminate |].
  destruct fuel' as [|fuel']; [lia |]. cbn [parse_loop] in *.
  eapply bind_mono; [exact H | auto |]. cbv beta. intros tk s1 r1 _ Hk.
  destruct (negb _); [| assumption].
  eapply bind_mono; [exact Hk | |]; cbv beta.
  - intros r2 H2. eapply statement_mono; [exact H2 | lia].
  - intros a s2 r2 _ H2. eapply IH; [exact H2 | lia].
Qed.

Lemma unread_ret {A} extra (a : A) : unread extra (ret a).
Proof. intros s r s' [= <- <-] _. reflexivity. Qed.

Lemma unread_throw {A} extra (e : exn) : unread extra (@throw A e).
Proof. intros s r s' [= <- <-] _. reflexivity. Qed.

Lemma unread_starved {A} extra : unread extra (@starved A).
Proof. intros s r s' [=]. Qed.

Lemma unread_peek extra : unread extra peek.
Proof.
  intros s r s' H Hr. unfold peek in *. cbn [tokens pos extended].
  destruct (tokens s !! pos s) as [tk|] eqn:E.
  - injection H as <- <-. now rewrite (lookup_app_l_Some _ _ _ _ E).
  - injection H as <- <-. congruence.
Qed.

Lemma unread_advance extra : unread extra advance.
Proof.
  intros s r s' H Hr. unfold advance in *. cbn [tokens pos extended].
  destruct (tokens s !! pos s) as [tk|] eqn:E.
  - injection H as <- <-. now rewrite (lookup_app_l_Some _ _ _ _ E).
  - injection H as <- <-. congruence.
Qed.

Lemma unread_bind {A B} extra (m : M A) (k : A -> M B) :
  unread extra m -> (forall a, unread extra (k a)) -> unread extra (bind m k).
Proof.
  intros Hm Hk s r s' H Hr.
  destruct (bind_Some _ _ _ _ _ H) as [(e & H1 & ->) | (a & s1 & H1 & H2)].
  - unfold bind. rewrite (Hm _ _ _ H1); [reflexivity | congruence].
  - unfold bind. rewrite (Hm _ _ _ H1 ltac:(discriminate)).
    now apply Hk.
Qed.

Lemma unread_expect extra ty : unread extra (expect ty).
Proof.
  unfold expect. apply unread_bind; [apply unread_peek |]. intros tk.
  destruct (String.eqb _ _); [apply unread_advance |].
  apply unread_bind; [apply unread_peek |]. intros tk'. apply unread_throw.
Qed.

Create HintDb unread.
#[local] Hint Resolve unread_ret unread_throw unread_starved unread_peek
  unread_advance unread_expect : unread.

Ltac unread_step :=
  first [ solve [auto with unread]
        | match goal with |- unread _ (if ?b then _ else _) => destruct b end
        | apply unread_bind; [| intros ?] ].

Lemma unread_methods extra (fuel : nat) :
  unread extra (expression fuel)
  /\ (forall left, unread extra (expression_loop fuel left))
  /\ unread extra (term fuel).
Proof.
  induction fuel as [|fuel (IHe & IHl & IHt)];
    [repeat split; intros; apply unread_starved |].
  repeat split; intros; cbn [expression expression_loop term];
    repeat unread_step.
Qed.

Lemma unread_statement extra (fuel : nat) : unread extra (statement fuel).
Proof.
  destruct (unread_methods extra fuel) as (He & _ & _).
  unfold statement, variable_declaration, print_statement.
  repeat unread_step.
Qed.

Lemma unread_parse_loop extra (fuel : nat) :
  forall statements, unread extra (parse_loop fuel statements).
Proof.
  induction fuel as [|fuel IH]; intros statements; [apply unread_starved |].
  cbn [parse_loop]. pose proof (unread_statement extra fuel).
  repeat unread_step.
Qed.

(** X19. Tokens that follow the token list are never looked at: unless
    [parse] runs off the end with [IndexError], it returns or raises the
    same with any tokens appended, and stops at the same position. *)
Theorem X19_parse_ignores_what_follows
    (extra : list token) (s s' : t) (r : result (list obj)) :
  parse s = Some (r, s') -> r <> Raise IndexError ->
  parse (extended extra s) = Some (r, extended extra s').
Proof.
  intros H Hr. unfold parse in *.
  eapply parse_loop_mono.
  - apply unread_parse_loop; [exact H | exact Hr].
  - unfold budget, extended. cbn [tokens]. rewrite length_app. lia.
Qed.

Lemma X19_witness :
  parse (extended [("RPAREN", OStr ")"); ("EOF", ONone)]
           (__init__ [("IDENTIFIER", OStr "print"); ("NUMBER", OInt 1);
                      ("SEMICOLON", OStr ";"); ("EOF", ONone)]))
  = Some (Ok [OTuple [OStr "print"; OTuple [OStr "NUMBER"; OInt 1]]],
          extended [("RPAREN", OStr ")"); ("EOF", ONone)]
            {| tokens := [("IDENTIFIER", OStr "print"); ("NUMBER", OInt 1);
                          ("SEMICOLON", OStr ";"); ("EOF", ONone)];
               pos := 3 |}).
Proof.
  apply (X19_parse_ignores_what_follows
           [("RPAREN", OStr ")"); ("EOF", ONone)]
           (__init__ [("IDENTIFIER", OStr "print"); ("NUMBER", OInt 1);
                      ("SEMICOLON", OStr ";"); ("EOF", ONone)])).
  - vm_compute. reflexivity.
  - discriminate.
Defined.

(** X20. Without an EOF token ahead [parse] cannot return: it raises. *)
Theorem X20_parse_needs_eof (s : t) :
  forallb (fun tk => negb (is_eof tk)) (tokens s) = true ->
  exists err s', parse s = Some (Raise err, s').
Proof.
  intros Hall. destruct (parse_terminates s) as [[[ast|err] s'] H]; [| eauto].
  exfalso. unfold parse in H.
  pose proof (post_parse_loop _ _ _ _ _ H) as [Htok _].
  destruct (parse_loop_at_eof _ _ _ _ _ H) as (tk & Hl & Hk).
  rewrite Htok in Hl. apply list_elem_of_lookup_2 in Hl.
  rewrite forallb_forall in Hall. apply list_elem_of_In in Hl.
  specialize (Hall _ Hl). unfold is_eof in Hall. rewrite Hk in Hall.
  discriminate.
Qed.

Lemma X20_witness :
  exists err s',
    parse (__init__ [("IDENTIFIER", OStr "print"); ("NUMBER", OInt 1);
                     ("SEMICOLON", OStr ";")])
    = Some (Raise err, s').
Proof.
  apply (X20_parse_needs_eof
           (__init__ [("IDENTIFIER", OStr "print"); ("NUMBER", OInt 1);
                      ("SEMICOLON", OStr ";")])).
  reflexivity.
Defined.
End ParserReads.

(** ** Statements and semicolons *)

Section ParserCounts.
Import Parser.

Lemma semicolons_app (a b : list token) :
  semicolons (a ++ b) = semicolons a + semicolons b.
Proof. induction a as [|tk a IH]; simpl; [reflexivity | rewrite IH; lia]. Qed.

Lemma spent_refl s : spent 0 s s.
Proof.
  unfold spent, consumed. rewrite Nat.sub_diag. repeat split; lia.
Qed.

Lemma spent_step s tk :
  tokens s !! pos s = Some tk ->
  spent (if is_semicolon tk then 1 else 0) s (stepped s).
Proof.
  intros Hl. unfold spent, consumed, stepped. cbn [tokens pos].
  repeat split; [lia |].
  replace (pos s + 1 - pos s) with 1 by lia.
  rewrite (drop_S _ _ _ Hl). simpl. lia.
Qed.

Lemma spent_trans n m s s1 s2 :
  spent n s s1 -> spent m s1 s2 -> spent (n + m) s s2.
Proof.
  unfold spent, consumed. intros (Ht1 & Hp1 & <-) (Ht2 & Hp2 & <-).
  repeat split; [congruence | lia |].
  rewrite Ht1, <- semicolons_app. f_equal.
  replace (pos s2 - pos s) with ((pos s1 - pos s) + (pos s2 - pos s1)) by lia.
  rewrite <- take_take_drop, drop_drop. do 3 f_equal. lia.
Qed.

Lemma spent_expect ty s tk s' :
  expect ty s = Some (Ok tk, s') ->
  spent (if String.eqb ty "SEMICOLON" then 1 else 0) s s'.
Proof.
  intros (-> & Hl & Hk)%expect_Ok_kind.
  pose proof (spent_step s tk Hl) as H. unfold is_semicolon in H.
  now rewrite Hk in H.
Qed.

Lemma spent_kind s tk k :
  tokens s !! pos s = Some tk -> String.eqb (fst tk) k = true ->
  String.eqb k "SEMICOLON" = false -> spent 0 s (stepped s).
Proof.
  intros Hl Hk%String.eqb_eq Hs.
  pose proof (spent_step s tk Hl) as H. unfold is_semicolon in H.
  now rewrite Hk, Hs in H.
Qed.

Lemma methods_spent (fuel : nat) :
  (forall s e s', expression fuel s = Some (Ok e, s') -> spent 0 s s')
  /\ (forall left s e s',
        expression_loop fuel left s = Some (Ok e, s') -> spent 0 s s')
  /\ (forall s e s', term fuel s = Some (Ok e, s') -> spent 0 s s').
Proof.
  induction fuel as [|fuel (IHe & IHl & IHt)];
    [repeat split; intros; discriminate |].
  refine (conj _ (conj _ _)).
  - intros s e s' H. cbn [expression] in H.
    apply bind_Some in H as [(err & _ & [=]) | (a & s1 & H1 & H2)].
    apply (spent_trans 0 0 s s1 s'); eauto.
  - intros left s e s' H. cbn [expression_loop] in H.
    apply bind_peek in H as [(_ & [=] & _) | (tk & Hl & H)].
    destruct (String.eqb (fst tk) "OPERATOR") eqn:Hk.
    + apply (bind_advance _ _ _ _ _ Hl) in H.
      apply bind_Some in H as [(err & _ & [=]) | (a & s1 & H1 & H2)].
      apply (spent_trans 0 0 s (stepped s) s');
        [eapply spent_kind; eauto |].
      apply (spent_trans 0 0 _ s1 s'); eauto.
    + injection H as _ <-. apply spent_refl.
  - intros s e s' H. cbn [term] in H.
    apply bind_peek in H as [(_ & [=] & _) | (tk & Hl & H)].
    destruct (String.eqb (fst tk) "NUMBER") eqn:Hn.
    { apply (bind_advance _ _ _ _ _ Hl) in H. injection H as _ <-.
      eapply spent_kind; eauto. }
    destruct (String.eqb (fst tk) "IDENTIFIER") eqn:Hi.
    { apply (bind_advance _ _ _ _ _ Hl) in H. injection H as _ <-.
      eapply spent_kind; eauto. }
    destruct (String.eqb (fst tk) "LPAREN") eqn:Hp; [| discriminate].
    apply (bind_advance _ _ _ _ _ Hl) in H.
    apply bind_Some in H as [(err & _ & [=]) | (a & s1 & H1 & H2)].
    apply bind_Some in H2 as [(err & _ & [=]) | (b & s2 & H2 & H3)].
    injection H3 as _ <-.
    apply (spent_trans 0 0 s (stepped s) s2); [eapply spent_kind; eauto |].
    apply (spent_trans 0 0 _ s1 s2); [eauto |].
    exact (spent_expect _ _ _ _ H2).
Qed.

Lemma statement_spent (fuel : nat) s st s' :
  statement fuel s = Some (Ok st, s') -> spent 1 s s'.
Proof.
  destruct (methods_spent fuel) as (He & _ & _).
  intros H. unfold statement in H.
  apply bind_peek in H as [(_ & [=] & _) | (tk & Hl & H)].
  destruct (_ && _).
  { unfold variable_declaration in H.
    apply bind_Some in H as [(err & _ & [=]) | (a1 & s1 & H1 & H)].
    apply bind_Some in H as [(err & _ & [=]) | (a2 & s2 & H2 & H)].
    apply bind_Some in H as [(err & _ & [=]) | (a3 & s3 & H3 & H)].
    apply bind_Some in H as [(err & _ & [=]) | (a4 & s4 & H4 & H)].
    apply bind_Some in H as [(err & _ & [=]) | (a5 & s5 & H5 & H)].
    injection H as _ <-.
    apply (spent_trans 0 1 s s1 s5); [exact (spent_expect _ _ _ _ H1) |].
    apply (spent_trans 0 1 s1 s2 s5); [exact (spent_expect _ _ _ _ H2) |].
    apply (spent_trans 0 1 s2 s3 s5); [exact (spent_expect _ _ _ _ H3) |].
    apply (spent_trans 0 1 s3 s4 s5); [eauto |].
    exact (spent_expect _ _ _ _ H5). }
  destruct (_ && _); [| discriminate].
  unfold print_statement in H.
  apply bind_Some in H as [(err & _ & [=]) | (a1 & s1 & H1 & H)].
  apply bind_Some in H as [(err & _ & [=]) | (a2 & s2 & H2 & H)].
  apply bind_Some in H as [(err & _ & [=]) | (a3 & s3 & H3 & H)].
  injection H as _ <-.
  apply (spent_trans 0 1 s s1 s3); [exact (spent_expect _ _ _ _ H1) |].
  apply (spent_trans 0 1 s1 s2 s3); [eauto |].
  exact (spent_expect _ _ _ _ H3).
Qed.

Lemma parse_loop_spent (fuel : nat) :
  forall statements s ast s',
    parse_loop fuel statements s = Some (Ok ast, s') ->
    exists n, spent n s s' /\ length ast = length statements + n.
Proof.
  induction fuel as [|fuel IH]; intros statements s ast s' H; [discriminate |].
  cbn [parse_loop] in H.
  apply bind_peek in H as [(_ & [=] & _) | (tk & Hl & H)].
  destruct (negb _).
  - apply bind_Some in H as [(err & _ & [=]) | (st & s1 & H1 & H2)].
    apply IH in H2 as (n & Hn & Hlen).
    exists (1 + n). split.
    + eapply spent_trans; [eapply statement_spent; eauto | exact Hn].
    + rewrite Hlen, length_app. simpl. lia.
  - injection H as <- <-. exists 0. split; [apply spent_refl | lia].
Qed.

Lemma parse_stops_at_front (front : list token) (ast : list obj) s' :
  forallb (fun tk => negb (is_eof tk)) front = true ->
  parse (__init__ (front ++ [("EOF", ONone)])) = Some (Ok ast, s') ->
  pos s' = length front.
Proof.
  intros Hall H. unfold parse in H.
  pose proof (post_parse_loop _ _ _ _ _ H) as [Htok _].
  destruct (parse_loop_at_eof _ _ _ _ _ H) as (tk & Hl & Hk).
  rewrite Htok in Hl. cbn [tokens __init__] in Hl.
  destruct (Nat.lt_ge_cases (pos s') (length front)) as [Hlt | Hge].
  - rewrite lookup_app_l in Hl by exact Hlt.
    apply list_elem_of_lookup_2, list_elem_of_In in Hl.
    rewrite forallb_forall in Hall. specialize (Hall _ Hl).
    unfold is_eof in Hall. rewrite Hk in Hall. discriminate.
  - apply lookup_lt_Some in Hl. rewrite length_app in Hl. simpl in Hl. lia.
Qed.

(** X21. A source text the parser accepts has exactly one statement per
    semicolon: the number of trees [parse] returns is the number of
    SEMICOLON tokens of the source. *)
Theorem X21_one_statement_per_semicolon
    (code : string) (toks : list token) (ast : list obj) (s' : t) :
  lexes_to code toks ->
  parse (__init__ toks) = Some (Ok ast, s') ->
  length ast = semicolons toks.
Proof.
  intros (front & -> & Hall & _)%lexes_to_front H.
  pose proof (parse_stops_at_front _ _ _ Hall H) as Hpos.
  unfold parse in H. apply parse_loop_spent in H as (n & (_ & _ & <-) & ->).
  unfold consumed. cbn [tokens pos __init__]. rewrite Hpos, Nat.sub_0_r.
  rewrite drop_0, take_app_length, semicolons_app. simpl. lia.
Qed.

Lemma X21_witness :
  lexes_to "var x = 1; print x;"
    [("IDENTIFIER", OStr "var"); ("IDENTIFIER", OStr "x"); ("ASSIGN", OStr "=");
     ("NUMBER", OInt 1); ("SEMICOLON", OStr ";");
     ("IDENTIFIER", OStr "print"); ("IDENTIFIER", OStr "x");
     ("SEMICOLON", OStr ";"); ("EOF", ONone)]
  /\ exists ast s',
       parse (__init__
         [("IDENTIFIER", OStr "var"); ("IDENTIFIER", OStr "x");
          ("ASSIGN", OStr "="); ("NUMBER", OInt 1); ("SEMICOLON", OStr ";");
          ("IDENTIFIER", OStr "print"); ("IDENTIFIER", OStr "x");
          ("SEMICOLON", OStr ";"); ("EOF", ONone)]) = Some (Ok ast, s')
       /\ length ast = 2.
Proof.
  assert (Hlex : lexes_to "var x = 1; print x;"
    [("IDENTIFIER", OStr "var"); ("IDENTIFIER", OStr "x"); ("ASSIGN", OStr "=");
     ("NUMBER", OInt 1); ("SEMICOLON", OStr ";");
     ("IDENTIFIER", OStr "print"); ("IDENTIFIER", OStr "x");
     ("SEMICOLON", OStr ";"); ("EOF", ONone)])
    by (eexists; vm_compute; reflexivity).
  split; [exact Hlex |].
  destruct (parse (__init__
         [("IDENTIFIER", OStr "var"); ("IDENTIFIER", OStr "x");
          ("ASSIGN", OStr "="); ("NUMBER", OInt 1); ("SEMICOLON", OStr ";");
          ("IDENTIFIER", OStr "print"); ("IDENTIFIER", OStr "x");
          ("SEMICOLON", OStr ";"); ("EOF", ONone)]))
    as [[[ast|e] s']|] eqn:E; [| vm_compute in E; discriminate ..].
  exists ast, s'. split; [reflexivity |].
  exact (X21_one_statement_per_semicolon _ _ ast s' Hlex E).
Defined.

Lemma lexed_program (code : string) (toks : list token) (ast : list obj) s' :
  lexes_to code toks ->
  parse (__init__ toks) = Some (Ok ast, s') ->
  exists p, ast = map stmt_obj p /\ forallb stmt_ok p = true.
Proof.
  intros Hlex H. apply wf_program_typed.
  eapply parse_loop_wf; [| | exact H].
  - simpl. now apply (tokenize_token_ok code).
  - constructor.
Qed.

End ParserCounts.

(** * The program under the limits of the interpreter *)

(** ** The lexer and the limit on the digits of a number *)

Section LimitedLexerFacts.
Import Lexer.

Lemma digit_count_digits (s : string) :
  string_forallb is_digit s = true -> Limits.digit_count s = String.length s.
Proof.
  induction s as [|c s IH]; [reflexivity |]. simpl.
  intros [-> Hs]%andb_prop. now rewrite IH.
Qed.

Lemma digit_runs_mono (s : string) :
  forall r r', r <= r' -> digit_runs r s <= digit_runs r' s.
Proof.
  induction s as [|c s IH]; intros r r' H; simpl; [exact H |].
  destruct (is_digit c); [apply IH; lia | lia].
Qed.

Lemma digit_runs_tail (r : nat) (c : ascii) (s : string) :
  digit_runs 0 s <= digit_runs r (String c s).
Proof.
  simpl. destruct (is_digit c); [apply digit_runs_mono; lia | lia].
Qed.

Lemma digit_runs_span p (s : string) :
  forall r, digit_runs 0 (snd (span p s)) <= digit_runs r s.
Proof.
  induction s as [|c s IH]; intros r; [simpl; lia |].
  rewrite span_snd_cons. destruct (p c).
  - etransitivity; [apply (IH 0) | apply digit_runs_tail].
  - apply digit_runs_mono. lia.
Qed.

Lemma digit_runs_number (s : string) :
  forall r, r + String.length (fst (span is_digit s)) <= digit_runs r s.
Proof.
  induction s as [|c s IH]; intros r; [simpl; lia |]. simpl.
  destruct (is_digit c) eqn:Hc.
  - destruct (span is_digit s) as [pre post] eqn:E. simpl in *.
    specialize (IH (S r)). lia.
  - simpl. lia.
Qed.

Lemma limited_int_digits (c : ascii) (rest : string) :
  is_digit c = true ->
  Limits.int (String c (fst (span is_digit rest)))
  = if (S (String.length (fst (span is_digit rest)))
        <=? Limits.int_max_str_digits)%nat
    then int (String c (fst (span is_digit rest)))
    else Raise ValueError.
Proof.
  intros Hc. unfold Limits.int.
  destruct (int_digit_run c rest Hc) as [n ->].
  rewrite digit_count_digits by (simpl; now rewrite Hc, span_forallb).
  reflexivity.
Qed.

(** One step of the scan under the limit: the step of the scan without
    it, unless a number of too many digits starts here. *)
Lemma limited_scan_step (fuel : nat) (c : ascii) (rest : string)
    (toks : list token) :
  LimitedLexer.scan (S fuel) (String c rest) toks =
  if is_digit c
     && negb (S (String.length (fst (span is_digit rest)))
              <=? Limits.int_max_str_digits)%nat
  then Some (Raise ValueError, toks)
  else
    match lex_step c rest with
    | Emit tk rest' => LimitedLexer.scan fuel rest' (toks ++ [tk])
    | Skip rest' => LimitedLexer.scan fuel rest' toks
    | Stop e => Some (Raise e, toks)
    end.
Proof.
  cbn [LimitedLexer.scan]. rewrite lex_step_spec, first_match_spec.
  destruct (is_digit c) eqn:Hd.
  { cbn [andb]. rewrite String.eqb_refl, (limited_int_digits c rest Hd).
    destruct (_ <=? _)%nat; [| reflexivity]. cbn [negb].
    now destruct (int _). }
  cbn [andb].
  repeat (match goal with
          | |- context [if ?b then _ else _] => destruct b; [reflexivity |]
          end).
  reflexivity.
Qed.

(** The scan under the limit is the scan without it, unless it stops with
    [ValueError] at a number of more digits than the limit. *)
Lemma limited_scan_cases (fuel : nat) :
  forall (code : string) (toks : list token),
    LimitedLexer.scan fuel code toks = scan fuel code toks
    \/ (exists toks',
          LimitedLexer.scan fuel code toks = Some (Raise ValueError, toks'))
       /\ Limits.int_max_str_digits < longest_number code.
Proof.
  induction fuel as [|fuel IH]; intros code toks; [now left |].
  destruct code as [|c rest]; [now left |].
  rewrite limited_scan_step, scan_step.
  destruct (is_digit c) eqn:Hd; cbn [andb].
  - destruct (Nat.leb_spec (S (String.length (fst (span is_digit rest))))
                Limits.int_max_str_digits) as [Hle | Hgt]; cbn [negb].
    + rewrite lex_step_spec, Hd.
      destruct (int _) as [n | e]; [| now left].
      destruct (IH (snd (span is_digit rest)) (toks ++ [("NUMBER", OInt n)]))
        as [-> | [Hv Hl]]; [now left | right]. split; [exact Hv |].
      pose proof (digit_runs_span is_digit rest 0).
      pose proof (digit_runs_tail 0 c rest). unfold longest_number in *. lia.
    + right. split; [eauto |].
      pose proof (digit_runs_number rest 1). unfold longest_number.
      simpl. rewrite Hd. lia.
  - assert (Hspan : forall p, longest_number (snd (span p rest))
                              <= longest_number (String c rest)).
    { intros p. pose proof (digit_runs_span p rest 0).
      pose proof (digit_runs_tail 0 c rest). unfold longest_number. lia. }
    assert (Htail : longest_number rest <= longest_number (String c rest))
      by apply digit_runs_tail.
    assert (Hgo : forall r t,
              longest_number r <= longest_number (String c rest) ->
              LimitedLexer.scan fuel r t = scan fuel r t
              \/ (exists toks',
                    LimitedLexer.scan fuel r t = Some (Raise ValueError, toks'))
                 /\ Limits.int_max_str_digits < longest_number (String c rest)).
    { intros r t Hr. destruct (IH r t) as [-> | [Hv Hl]]; [now left | right].
      split; [exact Hv | lia]. }
    rewrite lex_step_spec, Hd.
    repeat (match goal with
            | |- context [if ?b then _ else _] => destruct b
            end;
            [first [now left | apply Hgo; first [apply Hspan | exact Htail]] |]).
    apply Hgo, Htail.
Qed.

Lemma limited_scan_short (fuel : nat) (code : string) (toks : list token) :
  longest_number code <= Limits.int_max_str_digits ->
  LimitedLexer.scan fuel code toks = scan fuel code toks.
Proof.
  intros H. destruct (limited_scan_cases fuel code toks) as [E | [_ Hl]];
    [exact E | lia].
Qed.

Lemma limited_tokenize_short (self : t) (code : string) :
  longest_number code <= Limits.int_max_str_digits ->
  LimitedLexer.tokenize self code = tokenize self code.
Proof.
  intros H. unfold LimitedLexer.tokenize, tokenize.
  now rewrite limited_scan_short.
Qed.

Lemma limited_tokenize_cases (self : t) (code : string) :
  LimitedLexer.tokenize self code = tokenize self code
  \/ (exists self',
        LimitedLexer.tokenize self code = Some (Raise ValueError, self'))
     /\ Limits.int_max_str_digits < longest_number code.
Proof.
  unfold LimitedLexer.tokenize, tokenize.
  destruct (limited_scan_cases (S (String.length code)) code (tokens self))
    as [-> | [[toks' ->] Hl]]; [now left | right]. eauto.
Qed.

Lemma accepts_lexes (code : string) (toks : list token) :
  accepts code toks -> lexes_to code toks.
Proof.
  intros [lx H]. exists lx.
  destruct (limited_tokenize_cases __init__ code) as [E | [[self' E] _]];
    [now rewrite <- E | rewrite E in H; discriminate].
Qed.
End LimitedLexerFacts.

Section LimitedLexerErrors.
Import Lexer.


















End LimitedLexerErrors.

Section LimitedLexerClaims.
Import Lexer.

Lemma tokenize_outcome (self : t) (code : string) :
  exists r self',
    tokenize self code = Some (r, self')
    /\ ((exists toks, r = Ok toks)
        \/ (exists c, r = Raise (SyntaxError ("Unexpected character: " +:+ str1 c))
                      /\ unnamed c = true
                      /\ string_existsb (Ascii.eqb c) code = true)).
Proof.
  unfold tokenize.
  destruct (scan_terminates (S (String.length code)) code (tokens self))
    as [[[u|e] toks] E]; [lia | |]; rewrite E.
  - eauto 10.
  - apply scan_raises in E as (c & -> & Hc & Hin). eauto 10.
Qed.



(** X16. [tokenize] always comes back, in one of three ways: with tokens;
    with the [SyntaxError] that names an offending character, which occurs
    in the source and starts none of the rules; or with the [ValueError]
    of [int] on a number of more than 4300 digits, and then the source
    holds such a run of digits. When no run of digits is that long,
    [tokenize] is what it is without the limit. *)
Theorem X16_tokenize_outcome (self : t) (code : string) :
  (exists r self',
     LimitedLexer.tokenize self code = Some (r, self')
     /\ ((exists toks, r = Ok toks)
         \/ (exists c,
               r = Raise (SyntaxError ("Unexpected character: " +:+ str1 c))
               /\ unnamed c = true
               /\ string_existsb (Ascii.eqb c) code = true)
         \/ (r = Raise ValueError
             /\ Limits.int_max_str_digits < longest_number code)))
  /\ ((longest_number code <=? Limits.int_max_str_digits)%nat = true ->
      LimitedLexer.tokenize self code = tokenize self code).
Proof.
  split; [| intros H%Nat.leb_le; now apply limited_tokenize_short].
  destruct (limited_tokenize_cases self code) as [-> | [[self' ->] Hl]].
  - destruct (tokenize_outcome self code) as (r & self' & H & [Hr | Hr]);
      exists r, self'; auto.
  - exists (Raise ValueError), self'. auto.
Qed.

Lemma X16_witness :
  LimitedLexer.tokenize __init__ "12 + x" = tokenize __init__ "12 + x".
Proof.
  exact (proj2 (X16_tokenize_outcome __init__ "12 + x") eq_refl).
Defined.
End LimitedLexerClaims.

(** ** The parser and the recursion limit *)

Section LimitedParserFacts.
Import Parser.

Lemma tracks_refl {A} (m : M A) : tracks m m.
Proof. intros s. now left. Qed.

Lemma tracks_bind {A B} (ml m : M A) (kl k : A -> M B) :
  tracks ml m -> (forall a, tracks (kl a) (k a)) ->
  tracks (bind ml kl) (bind m k).
Proof.
  intros Hm Hk s. unfold bind.
  destruct (Hm s) as [-> | (s' & ->)]; [| right; eauto].
  destruct (m s) as [[[a|e] s1]|]; [apply Hk | now left ..].
Qed.

Lemma tracks_call {A} (frames : nat) (method : nat -> M A) (m : M A) :
  (forall frames', tracks (method frames') m) ->
  tracks (LimitedParser.call frames method) m.
Proof.
  intros H. destruct frames as [|frames]; [| apply H].
  intros s. right. now exists s.
Qed.

Lemma tracks_if {A} (b : bool) (ml1 ml2 m1 m2 : M A) :
  tracks ml1 m1 -> tracks ml2 m2 ->
  tracks (if b then ml1 else ml2) (if b then m1 else m2).
Proof. now destruct b. Qed.

Lemma tracks_peek frames : tracks (LimitedParser.peek frames) peek.
Proof. apply tracks_call. intros _. apply tracks_refl. Qed.

Lemma tracks_advance frames : tracks (LimitedParser.advance frames) advance.
Proof. apply tracks_call. intros _. apply tracks_refl. Qed.

Create HintDb tracks.
#[local] Hint Resolve tracks_refl tracks_peek tracks_advance : tracks.

Ltac tracks_step :=
  first [ solve [auto with tracks]
        | apply tracks_call; intros ?
        | apply tracks_if
        | apply tracks_bind; [| intros ?] ].

Lemma tracks_expect ty frames :
  tracks (LimitedParser.expect ty frames) (expect ty).
Proof. unfold LimitedParser.expect, expect. repeat tracks_step. Qed.

#[local] Hint Resolve tracks_expect : tracks.

Lemma tracks_methods (fuel : nat) :
  (forall frames, tracks (LimitedParser.expression fuel frames) (expression fuel))
  /\ (forall frames left,
        tracks (LimitedParser.expression_loop fuel frames left)
               (expression_loop fuel left))
  /\ (forall frames, tracks (LimitedParser.term fuel frames) (term fuel)).
Proof.
  induction fuel as [|fuel (IHe & IHl & IHt)];
    [repeat split; intros; apply tracks_refl |].
  refine (conj _ (conj _ _)); intros;
    cbn [LimitedParser.expression LimitedParser.expression_loop
         LimitedParser.term expression expression_loop term];
    repeat tracks_step.
Qed.

Lemma tracks_statement fuel frames :
  tracks (LimitedParser.statement fuel frames) (statement fuel).
Proof.
  destruct (tracks_methods fuel) as (He & _ & _).
  unfold LimitedParser.statement, statement,
    LimitedParser.variable_declaration, variable_declaration,
    LimitedParser.print_statement, print_statement.
  repeat tracks_step.
Qed.

Lemma tracks_parse_loop (fuel : nat) :
  forall frames statements,
    tracks (LimitedParser.parse_loop fuel frames statements)
           (parse_loop fuel statements).
Proof.
  induction fuel as [|fuel IH]; intros frames statements;
    [apply tracks_refl |].
  cbn [LimitedParser.parse_loop parse_loop].
  pose proof (tracks_statement fuel frames).
  repeat tracks_step.
Qed.

Lemma tracks_parse frames : tracks (LimitedParser.parse frames) parse.
Proof.
  unfold LimitedParser.parse. apply tracks_call. intros frames' s.
  apply tracks_parse_loop.
Qed.

(** What came back and is not [RecursionError] is what the method comes
    back with when nothing limits it. *)
Lemma tracks_result {A} (ml m : M A) s (r : result A) s' :
  tracks ml m -> ml s = Some (r, s') -> r <> Raise RecursionError ->
  m s = Some (r, s').
Proof.
  intros H E Hr. destruct (H s) as [<- | (s1 & E1)]; [exact E |].
  rewrite E1 in E. congruence.
Qed.
End LimitedParserFacts.

Section EnoughFrames.
Import Parser.















End EnoughFrames.




(** ** The generator under the limits *)

Section LimitedGeneratorFacts.
Import CodeGenerator.

#[local] Abbreviation gen := LimitedCodeGenerator.generate_expression.
#[local] Abbreviation append_formatted := LimitedCodeGenerator.append_formatted.
#[local] Abbreviation gen_statement := LimitedCodeGenerator.generate_statement.

Lemma limit_error_mono {A} (b b' : bool) (r : result A) :
  (b = false -> b' = false) -> limit_error b r -> limit_error b' r.
Proof. intros Hb [H | [H Hf]]; [now left | right; auto]. Qed.

Lemma bind_limit {A B} (b : bool) (m : M A) (k : A -> M B) (self : t) :
  limit_error b (fst (m self)) -> limit_error b (fst (bind m k self)).
Proof.
  unfold bind. destruct (m self) as [[a|e] s1]; cbn [fst].
  - intros [H | [H _]]; discriminate.
  - intros [[= ->] | [[= ->] Hb]]; [now left | now right].
Qed.

Lemma bind_Ok {A B} (m : M A) (k : A -> M B) (self : t) (a : A) (s1 : t) :
  m self = (Ok a, s1) -> bind m k self = k a s1.
Proof. unfold bind. now intros ->. Qed.

Lemma gen_num (z : Z) (frames : nat) (self : t) :
  gen (expr_obj (Num z)) (S frames) self
  = append_formatted "PUSH" (OInt z) frames self.
Proof. reflexivity. Qed.

Lemma gen_ident (s : string) (frames : nat) (self : t) :
  gen (expr_obj (Ident s)) (S frames) self
  = append_formatted "LOAD" (OStr s) frames self.
Proof. reflexivity. Qed.

Lemma gen_bin_op (o : string) (l r : expr) (frames : nat) (self : t) :
  gen (expr_obj (BinOp o l r)) (S frames) self
  = bind (gen (expr_obj l) frames)
      (fun _ => bind (gen (expr_obj r) frames)
         (fun _ => append_formatted "OP" (OStr o) frames)) self.
Proof. reflexivity. Qed.

Lemma append_name (opcode s : string) (frames : nat) (self : t) :
  append_formatted opcode (OStr s) (S frames) self
  = (Ok tt, {| instructions := instructions self ++ [opcode +:+ " " +:+ s] |}).
Proof. reflexivity. Qed.

Lemma append_number (z : Z) (frames : nat) (self : t) :
  convertible z = true ->
  append_formatted "PUSH" (OInt z) (S frames) self
  = (Ok tt, {| instructions := instructions self ++ ["PUSH " +:+ str_int z] |}).
Proof.
  intros H. unfold LimitedCodeGenerator.append_formatted, Limits.str.
  cbn [Limits.within]. unfold convertible in H. rewrite H. reflexivity.
Qed.

Lemma append_cases (opcode : string) (x : obj) (frames : nat) (self : t) :
  append_formatted opcode x frames self
  = (Ok tt, {| instructions := instructions self ++ [opcode +:+ " " +:+ str x] |})
  \/ limit_error (Limits.within x) (fst (append_formatted opcode x frames self)).
Proof.
  unfold LimitedCodeGenerator.append_formatted, Limits.str, limit_error.
  destruct (Limits.within x); [| right; right; now split].
  destruct frames; [right; now left | now left].
Qed.

Lemma gen_enough (e : expr) :
  forall frames self,
    literals_within e = true -> height e + 1 <= frames ->
    gen (expr_obj e) frames self
    = (Ok tt, {| instructions := instructions self ++ code_expr e |}).
Proof.
  induction e as [z | s | o l IHl r IHr]; intros [|[|frames]] self Hw Hh;
    cbn [height] in Hh; try lia.
  - rewrite gen_num. now apply append_number.
  - now rewrite gen_ident.
  - cbn [literals_within] in Hw. apply andb_prop in Hw as [Hl Hr].
    rewrite gen_bin_op. unfold bind.
    rewrite IHl, IHr by (assumption || lia). rewrite append_name.
    cbn. now rewrite <- !app_assoc.
Qed.

Lemma gen_cases (e : expr) :
  forall frames self,
    gen (expr_obj e) frames self
    = (Ok tt, {| instructions := instructions self ++ code_expr e |})
    \/ limit_error (literals_within e) (fst (gen (expr_obj e) frames self)).
Proof.
  induction e as [z | s | o l IHl r IHr]; intros [|frames] self;
    try (right; now left).
  - rewrite gen_num. apply append_cases.
  - rewrite gen_ident. apply append_cases.
  - rewrite gen_bin_op. cbn [literals_within].
    destruct (IHl frames self) as [El | H];
      [| right; apply bind_limit; revert H; apply limit_error_mono;
         now intros ->].
    rewrite (bind_Ok _ _ _ _ _ El).
    match goal with
    | |- context [bind _ _ ?s1] =>
        destruct (IHr frames s1) as [Er | H];
          [| right; apply bind_limit; revert H; apply limit_error_mono;
             intros ->; apply andb_false_r];
        rewrite (bind_Ok _ _ _ _ _ Er)
    end.
    match goal with
    | |- context [append_formatted _ _ _ ?s] =>
        destruct (append_cases "OP" (OStr o) frames s) as [-> | H];
          [left | right; revert H; apply limit_error_mono; discriminate]
    end.
    cbn. now rewrite <- !app_assoc.
Qed.

Lemma gen_var_decl (s : string) (e : expr) (frames : nat) (self : t) :
  gen_statement (stmt_obj (VarDecl s e)) (S frames) self
  = bind (append_formatted "ALLOC" (OStr s) frames)
      (fun _ => bind (gen (expr_obj e) frames)
         (fun _ => append_formatted "STORE" (OStr s) frames)) self.
Proof. reflexivity. Qed.

Lemma gen_print (e : expr) (frames : nat) (self : t) :
  gen_statement (stmt_obj (PrintStmt e)) (S frames) self
  = bind (gen (expr_obj e) frames)
      (fun _ => LimitedCodeGenerator.call frames (fun _ => emit "PRINT")) self.
Proof. reflexivity. Qed.

Lemma gen_statement_enough (st : stmt) (frames : nat) (self : t) :
  stmt_within st = true -> stmt_height st + 2 <= frames ->
  gen_statement (stmt_obj st) frames self
  = (Ok tt, {| instructions := instructions self ++ code_stmt st |}).
Proof.
  intros Hw Hh. destruct frames as [|[|frames]]; [lia | lia |].
  destruct st as [s e | e]; cbn [stmt_within stmt_height] in *.
  - rewrite gen_var_decl. unfold bind. rewrite append_name.
    rewrite gen_enough by (assumption || lia). rewrite append_name.
    cbn. now rewrite <- !app_assoc.
  - rewrite gen_print. unfold bind.
    rewrite gen_enough by (assumption || lia).
    unfold LimitedCodeGenerator.call, emit. cbn [instructions code_stmt].
    now rewrite <- !app_assoc.
Qed.

Lemma gen_statement_cases (st : stmt) (frames : nat) (self : t) :
  gen_statement (stmt_obj st) frames self
  = (Ok tt, {| instructions := instructions self ++ code_stmt st |})
  \/ limit_error (stmt_within st) (fst (gen_statement (stmt_obj st) frames self)).
Proof.
  destruct frames as [|frames]; [right; now left |].
  destruct st as [s e | e]; cbn [stmt_within].
  - rewrite gen_var_decl.
    destruct frames as [|frames]; [right; now left |].
    rewrite (bind_Ok _ _ _ _ _ (append_name "ALLOC" s frames self)).
    match goal with
    | |- context [bind _ _ ?s1] =>
        destruct (gen_cases e (S frames) s1) as [Ee | H];
          [| right; now apply bind_limit];
        rewrite (bind_Ok _ _ _ _ _ Ee)
    end.
    rewrite append_name. left. cbn. now rewrite <- !app_assoc.
  - rewrite gen_print.
    destruct (gen_cases e frames self) as [Ee | H];
      [| right; now apply bind_limit].
    rewrite (bind_Ok _ _ _ _ _ Ee).
    destruct frames as [|frames]; [right; now left | left].
    unfold LimitedCodeGenerator.call, emit. cbn [instructions code_stmt].
    now rewrite <- !app_assoc.
Qed.

Lemma gen_loop_enough (p : list stmt) :
  forall frames self,
    forallb stmt_within p = true -> program_height p + 2 <= frames ->
    LimitedCodeGenerator.generate_loop (map stmt_obj p) frames self
    = (Ok tt, {| instructions := instructions self ++ code_program p |}).
Proof.
  induction p as [|st p IH]; intros frames [ins] Hw Hh.
  - cbn. now rewrite app_nil_r.
  - cbn [forallb] in Hw. apply andb_prop in Hw as [Hst Hp].
    cbn [program_height] in Hh.
    cbn [map LimitedCodeGenerator.generate_loop]. unfold bind.
    rewrite gen_statement_enough by (assumption || lia).
    rewrite IH by (assumption || lia). cbn. now rewrite <- app_assoc.
Qed.

Lemma gen_loop_cases (p : list stmt) :
  forall frames self,
    LimitedCodeGenerator.generate_loop (map stmt_obj p) frames self
    = (Ok tt, {| instructions := instructions self ++ code_program p |})
    \/ limit_error (forallb stmt_within p)
         (fst (LimitedCodeGenerator.generate_loop (map stmt_obj p) frames self)).
Proof.
  induction p as [|st p IH]; intros frames [ins].
  - left. cbn. now rewrite app_nil_r.
  - cbn [map LimitedCodeGenerator.generate_loop forallb].
    destruct (gen_statement_cases st frames {| instructions := ins |})
      as [Es | H];
      [| right; apply bind_limit; revert H; apply limit_error_mono;
         now intros ->].
    rewrite (bind_Ok _ _ _ _ _ Es).
    match goal with
    | |- context [LimitedCodeGenerator.generate_loop _ _ ?s1] =>
        destruct (IH frames s1) as [-> | H];
          [left | right; revert H; apply limit_error_mono;
                  intros ->; apply andb_false_r]
    end.
    cbn. now rewrite <- app_assoc.
Qed.

Lemma generate_enough (p : list stmt) (frames : nat) :
  forallb stmt_within p = true -> program_height p + 3 <= frames ->
  LimitedCodeGenerator.generate (map stmt_obj p) frames __init__
  = (Ok (code_program p), {| instructions := code_program p |}).
Proof.
  intros Hw Hh. destruct frames as [|frames]; [lia |].
  unfold LimitedCodeGenerator.generate. cbn [LimitedCodeGenerator.call].
  unfold bind. now rewrite gen_loop_enough by (assumption || lia).
Qed.

Lemma generate_cases (p : list stmt) (frames : nat) :
  LimitedCodeGenerator.generate (map stmt_obj p) frames __init__
  = (Ok (code_program p), {| instructions := code_program p |})
  \/ limit_error (forallb stmt_within p)
       (fst (LimitedCodeGenerator.generate (map stmt_obj p) frames __init__)).
Proof.
  destruct frames as [|frames]; [right; now left |].
  unfold LimitedCodeGenerator.generate. cbn [LimitedCodeGenerator.call].
  destruct (gen_loop_cases p frames __init__) as [E | H];
    [left; unfold bind; now rewrite E | right; now apply bind_limit].
Qed.
End LimitedGeneratorFacts.

(** ** The machine under the limit on conversions *)

Section LimitedMachineFacts.
Import VirtualMachine.

#[local] Abbreviation lexecute_instruction :=
  LimitedVirtualMachine.execute_instruction.
#[local] Abbreviation lexecute := LimitedVirtualMachine.execute.

Lemma bind_part_head {B} (op : string) (rest : list string)
    (k : string -> M B) (vm : t) :
  bind (part (op :: rest) 0) k vm = k op vm.
Proof. reflexivity. Qed.

Lemma bind_part_next {B} (op text : string) (rest : list string)
    (k : string -> M B) (vm : t) :
  bind (part (op :: text :: rest) 1) k vm = k text vm.
Proof. reflexivity. Qed.

(** An instruction under the limit does what it does without it, unless
    it is a [PUSH] of a literal of too many digits or the [PRINT] of an
    int of too many digits: these raise [ValueError]. *)
Lemma limited_instruction_cases (i : string) (vm : t) :
  lexecute_instruction i vm = execute_instruction i vm
  \/ (fst (lexecute_instruction i vm) = Raise ValueError
      /\ ((exists text rest,
             split i = "PUSH" :: text :: rest
             /\ Limits.int_max_str_digits < Limits.digit_count text)
          \/ (exists rest z st,
                split i = "PRINT" :: rest
                /\ stack vm = VInt z :: st /\ convertible z = false))).
Proof.
  unfold LimitedVirtualMachine.execute_instruction, execute_instruction.
  cbv zeta. destruct (split i) as [|op rest]; [left; reflexivity |].
  rewrite !bind_part_head.
  destruct (String.eqb op "ALLOC"); [now left |].
  destruct (String.eqb_spec op "PUSH") as [-> | _].
  { destruct rest as [|text rest]; [left; reflexivity |].
    rewrite !bind_part_next. unfold bind, lift. unfold Limits.int.
    destruct (int text) as [z | e]; [| now left].
    destruct (Nat.leb_spec (Limits.digit_count text) Limits.int_max_str_digits);
      [now left | right]. split; [reflexivity |]. left. eauto. }
  destruct (String.eqb op "LOAD"); [now left |].
  destruct (String.eqb op "STORE"); [now left |].
  destruct (String.eqb op "OP"); [now left |].
  destruct (String.eqb_spec op "PRINT") as [-> | _]; [| now left].
  unfold bind, pop. destruct (stack vm) as [|v st] eqn:Hst; [now left |].
  destruct v as [| z |f]; [now left | | now left].
  unfold LimitedVirtualMachine.print, print. cbn [LimitedVirtualMachine.str_value].
  unfold Limits.str_int. cbn [stack variables stdout str_value].
  destruct (Limits.digit_count (str_int z) <=? Limits.int_max_str_digits)%nat eqn:E;
    [now left | right].
  split; [reflexivity |]. right. exists rest, z, st. auto.
Qed.

Lemma limited_execute_app (a b : list string) (vm : t) :
  lexecute (a ++ b) vm = bind (lexecute a) (fun _ => lexecute b) vm.
Proof.
  revert vm. induction a as [|i a IH]; intros vm; [reflexivity |].
  cbn [app LimitedVirtualMachine.execute]. unfold bind.
  destruct (lexecute_instruction i vm) as [[[]|e] vm1]; [| reflexivity].
  apply IH.
Qed.

Lemma limited_execute_cases (ins : list string) :
  forall vm,
    lexecute ins vm = execute ins vm
    \/ fst (lexecute ins vm) = Raise ValueError.
Proof.
  induction ins as [|i ins IH]; intros vm; [now left |].
  cbn [LimitedVirtualMachine.execute execute]. unfold bind.
  destruct (limited_instruction_cases i vm) as [-> | [H _]].
  - destruct (execute_instruction i vm) as [[[]|e] vm1]; [apply IH | now left].
  - right. destruct (lexecute_instruction i vm) as [[[]|e] vm1];
      [discriminate | exact H].
Qed.

(** A list of instructions without [PRINT] whose [PUSH] literals are
    within the limit. *)
Lemma limited_execute_quiet (ins : list string) :
  Forall (fun i => forall w rest, split i = w :: rest ->
            w <> "PRINT"
            /\ (w = "PUSH" -> forall text more, rest = text :: more ->
                  Limits.digit_count text <= Limits.int_max_str_digits)) ins ->
  forall vm, lexecute ins vm = execute ins vm.
Proof.
  induction 1 as [|i ins Hi _ IH]; intros vm; [reflexivity |].
  cbn [LimitedVirtualMachine.execute execute]. unfold bind.
  destruct (limited_instruction_cases i vm)
    as [-> | [_ [(text & rest & Hs & Hl) | (rest & z & st & Hs & _)]]].
  - destruct (execute_instruction i vm) as [[[]|e] vm1]; [apply IH | reflexivity].
  - destruct (Hi _ _ Hs) as [_ Hp]. specialize (Hp eq_refl _ _ eq_refl). lia.
  - destruct (Hi _ _ Hs) as [Hp _]. congruence.
Qed.

Lemma expr_code_quiet (e : expr) :
  expr_ok e = true -> literals_within e = true ->
  Forall (fun i => forall w rest, split i = w :: rest ->
            w <> "PRINT"
            /\ (w = "PUSH" -> forall text more, rest = text :: more ->
                  Limits.digit_count text <= Limits.int_max_str_digits))
    (code_expr e).
Proof.
  induction e as [z | s | o l IHl r IHr]; cbn [expr_ok literals_within code_expr].
  - intros _ Hz. constructor; [| constructor]. intros w rest Hs.
    change ("PUSH " +:+ str_int z) with ("PUSH" +:+ " " +:+ str_int z) in Hs.
    rewrite split_two in Hs by (reflexivity || apply str_int_name).
    injection Hs as <- <-. split; [discriminate |].
    intros _ text more [= <- <-]. now apply Nat.leb_le.
  - intros Hs _. constructor; [| constructor]. intros w rest Hsp.
    change ("LOAD " +:+ s) with ("LOAD" +:+ " " +:+ s) in Hsp.
    rewrite split_two in Hsp by (reflexivity || assumption).
    injection Hsp as <- <-. split; discriminate.
  - intros [[Ho Hl]%andb_prop Hr]%andb_prop [Hwl Hwr]%andb_prop.
    apply Forall_app. split; [auto |]. apply Forall_app. split; [auto |].
    constructor; [| constructor]. intros w rest Hsp.
    change ("OP " +:+ o) with ("OP" +:+ " " +:+ o) in Hsp.
    rewrite split_two in Hsp by (reflexivity || now apply is_op_name).
    injection Hsp as <- <-. split; discriminate.
Qed.

Lemma limited_expr_exec (e : expr) (vm : t) :
  expr_ok e = true -> literals_within e = true ->
  lexecute (code_expr e) vm = execute (code_expr e) vm.
Proof. intros Hok Hw. now apply limited_execute_quiet, expr_code_quiet. Qed.
End LimitedMachineFacts.

Section LimitedCompilerProperties.
Import VirtualMachine.

#[local] Abbreviation lexecute := LimitedVirtualMachine.execute.

Lemma limited_decl_exec (s : string) (e : expr) (vm : t) :
  is_name s = true -> expr_ok e = true -> literals_within e = true ->
  lexecute (code_stmt (VarDecl s e)) vm = execute (code_stmt (VarDecl s e)) vm.
Proof.
  intros Hs Hok Hw. apply limited_execute_quiet. cbn [code_stmt].
  apply Forall_app. split; [| apply Forall_app; split];
    [| now apply expr_code_quiet |];
    (constructor; [| constructor]); intros w rest Hsp.
  - change ("ALLOC " +:+ s) with ("ALLOC" +:+ " " +:+ s) in Hsp.
    rewrite split_two in Hsp by (reflexivity || assumption).
    injection Hsp as <- <-. split; discriminate.
  - change ("STORE " +:+ s) with ("STORE" +:+ " " +:+ s) in Hsp.
    rewrite split_two in Hsp by (reflexivity || assumption).
    injection Hsp as <- <-. split; discriminate.
Qed.

Lemma limited_print_exec (e : expr) (vm : t) :
  expr_ok e = true -> literals_within e = true ->
  (forall v, value_of (variables vm) e = Ok v ->
     line_within (str_value v) = true) ->
  lexecute (code_stmt (PrintStmt e)) vm = execute (code_stmt (PrintStmt e)) vm.
Proof.
  intros Hok Hw Hline. cbn [code_stmt].
  rewrite limited_execute_app, execute_app. unfold bind.
  rewrite limited_expr_exec by assumption.
  pose proof (expr_exec e Hok vm) as Hex.
  destruct (execute (code_expr e) vm) as [[[]|err] vm1] eqn:E; [| reflexivity].
  destruct (value_of (variables vm) e) as [v | err] eqn:Ev;
    [| destruct Hex as [Hex _]; discriminate].
  injection Hex as ->. specialize (Hline v eq_refl).
  cbn [LimitedVirtualMachine.execute execute]. unfold bind.
  destruct (limited_instruction_cases "PRINT"
              {| stack := v :: stack vm; variables := variables vm;
                 stdout := stdout vm |})
    as [-> | [_ [(text & rest & Hs & _) | (rest & z & st & _ & Hst & Hz)]]];
    [reflexivity | discriminate |].
  cbn [stack] in Hst. injection Hst as -> _.
  unfold line_within in Hline. cbn [str_value] in Hline.
  unfold convertible in Hz. congruence.
Qed.

Lemma interp_stmt_stdout (st : stmt) (vm : t) :
  exists more, stdout (snd (interp_stmt st vm)) = stdout vm ++ more.
Proof.
  destruct st as [s e | e]; cbn [interp_stmt];
    destruct (value_of _ e); cbn [snd stdout];
    first [ now exists [] ; rewrite app_nil_r | eauto ];
    exists []; now rewrite app_nil_r.
Qed.

Lemma interp_stdout (p : list stmt) :
  forall vm, exists more, stdout (snd (interp p vm)) = stdout vm ++ more.
Proof.
  induction p as [|st p IH]; intros vm;
    [exists []; cbn; now rewrite app_nil_r |].
  cbn [interp]. unfold bind.
  destruct (interp_stmt_stdout st vm) as [m1 H1].
  destruct (interp_stmt st vm) as [[[]|err] vm1]; cbn [snd] in *.
  - destruct (IH vm1) as [m2 H2]. exists (m1 ++ m2).
    now rewrite H2, H1, app_assoc.
  - eauto.
Qed.

Lemma limited_program_exec (p : list stmt) :
  forall vm,
    forallb stmt_ok p = true -> forallb stmt_within p = true ->
    forallb line_within (stdout (snd (interp p vm))) = true ->
    lexecute (code_program p) vm = execute (code_program p) vm.
Proof.
  induction p as [|st p IH]; intros vm Hok Hw Hlines; [reflexivity |].
  cbn [forallb] in Hok, Hw.
  apply andb_prop in Hok as [Hst Hp]. apply andb_prop in Hw as [Hwst Hwp].
  change (code_program (st :: p)) with (code_stmt st ++ code_program p).
  rewrite limited_execute_app, execute_app. unfold bind.
  cbn [interp] in Hlines. unfold bind in Hlines.
  assert (E : lexecute (code_stmt st) vm = execute (code_stmt st) vm).
  { destruct st as [s e | e]; cbn [stmt_ok stmt_within] in *.
    - apply andb_prop in Hst as [Hs He]. now apply limited_decl_exec.
    - apply limited_print_exec; [assumption .. |]. intros v Hv.
      cbn [interp_stmt] in Hlines. rewrite Hv in Hlines.
      match type of Hlines with
      | context [interp p ?vm1] =>
          destruct (interp_stdout p vm1) as [more Hm]; rewrite Hm in Hlines
      end.
      cbn [stdout] in Hlines. rewrite !forallb_app in Hlines.
      apply andb_prop in Hlines as [[_ Hl]%andb_prop _].
      cbn [forallb] in Hl. now apply andb_prop in Hl as [Hl _]. }
  rewrite E. pose proof (stmt_exec st Hst vm) as Hrun.
  destruct (execute (code_stmt st) vm) as [[[]|err] vm1] eqn:Ex; [| reflexivity].
  apply same_run_Ok in Hrun; [| reflexivity]. rewrite <- Hrun in Hlines.
  now apply IH.
Qed.

(** X3. As long as no literal and no line written holds more than 4300
    digits, executing the code of a program agrees with running its
    statements directly on the variables and the output: same outcome,
    same variables and same output, also when an exception stops the run
    (what was printed before stays printed), and the same stack when the
    run finishes. *)
Theorem X3_program_code_runs_statements (p : list stmt) (vm : t) :
  forallb stmt_ok p = true ->
  forallb stmt_within p = true ->
  forallb line_within (stdout (snd (interp p vm))) = true ->
  same_run (lexecute (code_program p) vm) (interp p vm).
Proof.
  intros Hok Hw Hlines. rewrite limited_program_exec by assumption.
  now apply program_exec.
Qed.

Lemma X3_witness :
  let p := [PrintStmt (Num 1); VarDecl "x" (BinOp "/" (Num 1) (Num 0));
            PrintStmt (Num 2)] in
  forallb stmt_ok p = true
  /\ forallb stmt_within p = true
  /\ forallb line_within (stdout (snd (interp p __init__))) = true
  /\ fst (lexecute (code_program p) __init__) = Raise ZeroDivisionError
  /\ stdout (snd (lexecute (code_program p) __init__)) = ["1"]
  /\ variables (snd (lexecute (code_program p) __init__)) = {[ "x" := VNone ]}.
Proof.
  intros p.
  destruct (X3_program_code_runs_statements p __init__ eq_refl eq_refl eq_refl)
    as (Hr & Hv & Ho & _).
  split; [reflexivity |]. split; [reflexivity |]. split; [reflexivity |].
  split; [| split].
  - exact (eq_trans Hr eq_refl).
  - exact (eq_trans Ho eq_refl).
  - exact (eq_trans Hv eq_refl).
Defined.

Lemma compiled_code_raises (p : list stmt) (vm : t) (err : exn) :
  forallb stmt_ok p = true ->
  fst (lexecute (code_program p) vm) = Raise err ->
  arithmetic_error err = true \/ err = ValueError.
Proof.
  intros Hok Herr.
  destruct (limited_execute_cases (code_program p) vm) as [E | E];
    [left | right; congruence].
  rewrite E in Herr. destruct (program_exec p Hok vm) as (Hr & _).
  rewrite Herr in Hr. destruct (interp p vm) as [r vm'] eqn:Ei.
  simpl in Hr. subst r. eapply interp_error; eauto.
Qed.

(** X4. From any machine state, the code of a well-formed program can
    only fail with an arithmetic exception ([TypeError] on [None],
    [ZeroDivisionError], [OverflowError]) or with the [ValueError] of the
    limit on conversions: it never underflows the stack and never meets
    an instruction it cannot read. When no literal and no line written
    holds more than 4300 digits, only the arithmetic exceptions remain. *)
Theorem X4_compiled_code_errors (p : list stmt) (vm : t) (err : exn) :
  forallb stmt_ok p = true ->
  fst (lexecute (code_program p) vm) = Raise err ->
  (arithmetic_error err = true \/ err = ValueError)
  /\ (forallb stmt_within p = true ->
      forallb line_within (stdout (snd (interp p vm))) = true ->
      arithmetic_error err = true).
Proof.
  intros Hok Herr.
  assert (Harith : fst (execute (code_program p) vm) = Raise err ->
                   arithmetic_error err = true).
  { intros H. destruct (program_exec p Hok vm) as (Hr & _).
    rewrite H in Hr. destruct (interp p vm) as [r vm'] eqn:E.
    simpl in Hr. subst r. eapply interp_error; eauto. }
  split.
  - destruct (limited_execute_cases (code_program p) vm) as [E | E].
    + left. apply Harith. now rewrite <- E.
    + right. congruence.
  - intros Hw Hlines. apply Harith.
    now rewrite <- limited_program_exec by assumption.
Qed.

Lemma X4_witness :
  let p := [VarDecl "x" (BinOp "+" (Ident "y") (Num 1))] in
  forallb stmt_ok p = true
  /\ fst (lexecute (code_program p) __init__) = Raise TypeError
  /\ arithmetic_error TypeError = true.
Proof.
  intros p. split; [reflexivity |]. split; [reflexivity |].
  exact (proj2 (X4_compiled_code_errors p __init__ TypeError eq_refl eq_refl)
           eq_refl eq_refl).
Defined.

(** X1. For a program of numbers, identifiers and binary operations,
    [generate] on a fresh generator either returns the post-order
    instruction text (operands before their operator, left before right,
    [ALLOC] and [STORE] around a declaration, [PRINT] after a print) or
    raises one of the exceptions of the limits: [RecursionError], or
    [ValueError] when some literal has more than 4300 digits. It returns
    when every literal converts to text and the calls that may nest are
    five more than the height of the highest tree. *)
Theorem X1_generate_postorder (p : list stmt) (frames : nat) :
  (fst (LimitedCodeGenerator.generate (map stmt_obj p) frames
          CodeGenerator.__init__) = Ok (code_program p)
   \/ limit_error (forallb stmt_within p)
        (fst (LimitedCodeGenerator.generate (map stmt_obj p) frames
                CodeGenerator.__init__)))
  /\ (forallb stmt_within p = true ->
      (program_height p + 5 <=? frames)%nat = true ->
      LimitedCodeGenerator.generate (map stmt_obj p) frames
        CodeGenerator.__init__
      = (Ok (code_program p),
         {| CodeGenerator.instructions := code_program p |})).
Proof.
  split.
  - destruct (generate_cases p frames) as [-> | H]; [now left | now right].
  - intros Hw Hf%Nat.leb_le. apply generate_enough; [exact Hw | lia].
Qed.

Lemma X1_witness :
  LimitedCodeGenerator.generate
    (map stmt_obj [VarDecl "x" (BinOp "+" (Num 1) (Ident "y"))]) 7
    CodeGenerator.__init__
  = (Ok ["ALLOC x"; "PUSH 1"; "LOAD y"; "OP +"; "STORE x"],
     {| CodeGenerator.instructions :=
          ["ALLOC x"; "PUSH 1"; "LOAD y"; "OP +"; "STORE x"] |}).
Proof.
  exact (proj2 (X1_generate_postorder
                  [VarDecl "x" (BinOp "+" (Num 1) (Ident "y"))] 7)
           eq_refl eq_refl).
Defined.
End LimitedCompilerProperties.

(** ** What the lexer accepts, the generator can write *)

Section LiteralsWithin.
Import Lexer.

Lemma uint_of_char_nb (c : ascii) (d d' : uint) :
  uint_of_char c (Some d) = Some d' -> nb_digits d' = S (nb_digits d).
Proof.
  intros H. apply uint_of_char_spec in H.
  repeat (destruct H as [[_ ->] | H]; [reflexivity |]).
  destruct H as [_ ->]. reflexivity.
Qed.

Lemma uint_of_char_none (c : ascii) : uint_of_char c None = None.
Proof. destruct c as [[] [] [] [] [] [] [] []]; reflexivity. Qed.

Lemma digits_of_length (s : string) :
  forall d, string_forallb is_digit s = true -> digits_of s = Some d ->
            nb_digits d = String.length s.
Proof.
  induction s as [|c s IH]; intros d Hs H; [discriminate |].
  cbn [string_forallb] in Hs. apply andb_prop in Hs as [Hc Hs].
  destruct s as [|u s'].
  - cbn [digits_of] in H. now rewrite (uint_of_char_nb _ _ _ H).
  - assert (Hu : (code u =? 95)%N = false).
    { cbn [string_forallb] in Hs. apply andb_prop in Hs as [Hu _].
      now apply digit_not_underscore. }
    change (digits_of (String c (String u s')))
      with (if (code u =? 95)%N then uint_of_char c (digits_of s')
            else uint_of_char c (digits_of (String u s'))) in H.
    rewrite Hu in H.
    destruct (digits_of (String u s')) as [d0|] eqn:E;
      [| now rewrite uint_of_char_none in H].
    rewrite (uint_of_char_nb _ _ _ H), (IH d0 Hs eq_refl). reflexivity.
Qed.

Lemma digit_count_uint (d : uint) :
  Limits.digit_count (NilEmpty.string_of_uint d) = nb_digits d.
Proof.
  induction d as [|d IH|d IH|d IH|d IH|d IH|d IH|d IH|d IH|d IH|d IH];
    [reflexivity | ..];
    cbn [NilEmpty.string_of_uint Limits.digit_count nb_digits];
    rewrite IH; reflexivity.
Qed.

Lemma digit_count_unorm (d : uint) :
  d <> Nil ->
  Limits.digit_count (NilZero.string_of_uint (unorm d)) <= nb_digits d.
Proof.
  intros Hd. pose proof (unorm_nonnil d) as Hn.
  pose proof (nb_digits_unorm d Hd) as Hle.
  unfold NilZero.string_of_uint.
  destruct (unorm d) eqn:E; [congruence | ..];
    rewrite digit_count_uint; exact Hle.
Qed.

(** The int of a run of digits has no more digits than the run. *)
Lemma number_convertible (s : string) (n : Z) :
  s <> "" -> string_forallb is_digit s = true ->
  String.length s <= Limits.int_max_str_digits ->
  int s = Ok n -> convertible n = true.
Proof.
  intros Hne Hs Hlen H.
  destruct (digits_of_digits s Hne Hs) as [d Hd].
  rewrite (int_of_digits s d Hs Hd) in H.
  assert (n = Z.of_int (Pos d)) as -> by congruence.
  unfold convertible, str_int. rewrite DecimalZ.to_of. cbn [norm].
  cbn [NilZero.string_of_int]. apply Nat.leb_le.
  assert (Hnil : d <> Nil).
  { intros ->. pose proof (digits_of_length s Nil Hs Hd) as Hl.
    destruct s; [congruence | discriminate]. }
  pose proof (digit_count_unorm d Hnil).
  pose proof (digits_of_length s d Hs Hd). lia.
Qed.

Lemma limited_scan_within (fuel : nat) :
  forall (code : string) (toks toks' : list token) r,
    forallb (fun tk => Limits.within (snd tk)) toks = true ->
    LimitedLexer.scan fuel code toks = Some (r, toks') ->
    forallb (fun tk => Limits.within (snd tk)) toks' = true.
Proof.
  induction fuel as [|fuel IH]; intros code toks toks' r Hall H;
    [discriminate |].
  destruct code as [|c rest]; [now injection H as _ <- |].
  rewrite limited_scan_step in H.
  destruct (is_digit c) eqn:Hd; cbn [andb] in H.
  - destruct (Nat.leb_spec (S (String.length (fst (span is_digit rest))))
                Limits.int_max_str_digits) as [Hle | _]; cbn [negb] in H;
      [| now injection H as _ <-].
    rewrite lex_step_spec, Hd in H.
    destruct (int _) as [n | e] eqn:Hn; [| now injection H as _ <-].
    eapply IH; [| exact H]. rewrite forallb_app, Hall. cbn.
    rewrite andb_true_r. fold (convertible n).
    eapply number_convertible; [| | | exact Hn];
      [discriminate | simpl; now rewrite Hd, span_forallb | exact Hle].
  - rewrite lex_step_spec, Hd in H.
    repeat (match type of H with
            | context [if ?b then _ else _] => destruct b
            end;
            [first [ now injection H as _ <-
                   | eapply IH; [| exact H];
                     first [exact Hall | now rewrite forallb_app, Hall] ] |]).
    eapply IH; [exact Hall | exact H].
Qed.

Lemma accepts_within (code : string) (toks : list token) :
  accepts code toks ->
  forallb (fun tk => Limits.within (snd tk)) toks = true.
Proof.
  intros [lx H]. unfold LimitedLexer.tokenize in H.
  destruct (LimitedLexer.scan _ code _) as [[[u|e] front]|] eqn:E;
    [| discriminate ..].
  injection H as <- _. rewrite forallb_app.
  cbn [tokens __init__] in E.
  now rewrite (limited_scan_within _ code [] front (Ok u) eq_refl E).
Qed.
End LiteralsWithin.

Section ParserKeepsLiterals.
Import Parser.

Lemma lookup_within (s : t) (tk : token) :
  forallb (fun tk => Limits.within (snd tk)) (tokens s) = true ->
  tokens s !! pos s = Some tk -> Limits.within (snd tk) = true.
Proof.
  intros Hall Hl. rewrite forallb_forall in Hall.
  apply (Hall tk), list_elem_of_In. eapply list_elem_of_lookup_2. exact Hl.
Qed.

Lemma within_tok_obj (tk : token) :
  Limits.within (snd tk) = true -> Limits.within (tok_obj tk) = true.
Proof. intros H. unfold tok_obj. cbn. now rewrite H. Qed.

Lemma methods_within (fuel : nat) :
  (forall s e s',
     forallb (fun tk => Limits.within (snd tk)) (tokens s) = true ->
     expression fuel s = Some (Ok e, s') -> Limits.within e = true)
  /\ (forall left s e s',
        forallb (fun tk => Limits.within (snd tk)) (tokens s) = true ->
        Limits.within left = true ->
        expression_loop fuel left s = Some (Ok e, s') ->
        Limits.within e = true)
  /\ (forall s e s',
        forallb (fun tk => Limits.within (snd tk)) (tokens s) = true ->
        term fuel s = Some (Ok e, s') -> Limits.within e = true).
Proof.
  induction fuel as [|fuel (IHe & IHl & IHt)];
    [repeat split; intros; discriminate |].
  destruct (post_methods fuel) as (_ & _ & Pt).
  refine (conj _ (conj _ _)).
  - intros s e s' Hall H. cbn [expression] in H.
    apply bind_Some in H as [(? & _ & [=]) | (left & s1 & Ht & H)].
    pose proof (proj1 (Pt _ _ _ Ht)) as Hs.
    eapply IHl; [| | exact H]; [congruence | eauto].
  - intros left s e s' Hall Hleft H. cbn [expression_loop] in H.
    apply bind_peek in H as [(_ & [=] & _) | (tk & Hl & H)].
    destruct (String.eqb (fst tk) "OPERATOR");
      [| now injection H as <- <-].
    apply (bind_advance _ _ tk) in H; [| exact Hl].
    apply bind_Some in H as [(? & _ & [=]) | (right & s1 & Ht & H)].
    pose proof (proj1 (Pt _ _ _ Ht)) as Hs.
    eapply IHl; [| | exact H]; [simpl in Hs; congruence |].
    cbn. rewrite (lookup_within s tk Hall Hl), Hleft.
    now rewrite (IHt (stepped s) _ _ Hall Ht).
  - intros s e s' Hall H. cbn [term] in H.
    apply bind_peek in H as [(_ & [=] & _) | (tk & Hl & H)].
    pose proof (lookup_within s tk Hall Hl) as Hok.
    destruct (String.eqb (fst tk) "NUMBER");
      [| destruct (String.eqb (fst tk) "IDENTIFIER");
         [| destruct (String.eqb (fst tk) "LPAREN")]].
    + apply (bind_advance _ _ tk) in H; [| exact Hl]. injection H as <- <-.
      now apply within_tok_obj.
    + apply (bind_advance _ _ tk) in H; [| exact Hl]. injection H as <- <-.
      now apply within_tok_obj.
    + apply (bind_advance _ _ tk) in H; [| exact Hl].
      apply bind_Some in H as [(? & _ & [=]) | (expr & s1 & He & H)].
      apply bind_Some in H as [(? & _ & [=]) | (a & s2 & _ & H)].
      injection H as <- <-. eapply IHe; [| exact He]. exact Hall.
    + discriminate.
Qed.

Lemma statement_within (fuel : nat) s e s' :
  forallb (fun tk => Limits.within (snd tk)) (tokens s) = true ->
  statement fuel s = Some (Ok e, s') -> Limits.within e = true.
Proof.
  intros Hall H. unfold statement in H.
  apply bind_peek in H as [(_ & [=] & _) | (tk & Hl & H)].
  destruct (_ && _) in H; [| destruct (_ && _) in H; [| discriminate]].
  - unfold variable_declaration in H.
    apply bind_Some in H as [(? & _ & [=]) | (a1 & s1 & (-> & _)%expect_Ok_kind & H)].
    apply bind_Some in H as [(? & _ & [=]) | (name & s2 & (-> & Hn & Hk)%expect_Ok_kind & H)].
    apply bind_Some in H as [(? & _ & [=]) | (a3 & s3 & (-> & _)%expect_Ok_kind & H)].
    apply bind_Some in H as [(? & _ & [=]) | (value & s4 & He & H)].
    apply bind_Some in H as [(? & _ & [=]) | (a5 & s5 & _ & H)].
    injection H as <- <-. cbn.
    rewrite (lookup_within (stepped s) name Hall Hn).
    now rewrite (proj1 (methods_within _) (stepped (stepped (stepped s))) _ _ Hall He).
  - unfold print_statement in H.
    apply bind_Some in H as [(? & _ & [=]) | (a1 & s1 & (-> & _)%expect_Ok_kind & H)].
    apply bind_Some in H as [(? & _ & [=]) | (value & s4 & He & H)].
    apply bind_Some in H as [(? & _ & [=]) | (a5 & s5 & _ & H)].
    injection H as <- <-. cbn.
    now rewrite (proj1 (methods_within _) (stepped s) _ _ Hall He).
Qed.

Lemma parse_loop_within (fuel : nat) :
  forall statements s ast s',
    forallb (fun tk => Limits.within (snd tk)) (tokens s) = true ->
    forallb Limits.within statements = true ->
    parse_loop fuel statements s = Some (Ok ast, s') ->
    forallb Limits.within ast = true.
Proof.
  induction fuel as [|fuel IH]; intros statements s ast s' Hall Hst H;
    [discriminate |].
  cbn [parse_loop] in H.
  apply bind_peek in H as [(_ & [=] & _) | (tk & Hl & H)].
  destruct (negb _) in H; [| now injection H as <- <-].
  apply bind_Some in H as [(? & _ & [=]) | (st & s1 & Hs & H)].
  pose proof (proj1 (post_statement _ _ _ _ Hs)) as Ht.
  eapply IH; [| | exact H]; [congruence |].
  rewrite forallb_app, Hst. cbn.
  now rewrite (statement_within _ _ _ _ Hall Hs).
Qed.

Lemma within_expr_obj (e : expr) :
  Limits.within (expr_obj e) = literals_within e.
Proof.
  induction e as [z | s | o l IHl r IHr]; cbn [expr_obj literals_within].
  - cbn. now rewrite andb_true_r.
  - reflexivity.
  - change (Limits.within (OTuple [OStr "bin_op"; OStr o; expr_obj l; expr_obj r]))
      with (Limits.within (expr_obj l) && (Limits.within (expr_obj r) && true)).
    now rewrite IHl, IHr, andb_true_r.
Qed.

Lemma within_program (p : list stmt) :
  forallb Limits.within (map stmt_obj p) = forallb stmt_within p.
Proof.
  induction p as [|st p IH]; [reflexivity |]. cbn [map forallb]. rewrite IH.
  f_equal. destruct st as [s e | e]; cbn [stmt_obj stmt_within].
  - change (Limits.within (OTuple [OStr "var_decl"; OStr s; expr_obj e]))
      with (Limits.within (expr_obj e) && true).
    now rewrite within_expr_obj, andb_true_r.
  - change (Limits.within (OTuple [OStr "print"; expr_obj e]))
      with (Limits.within (expr_obj e) && true).
    now rewrite within_expr_obj, andb_true_r.
Qed.
End ParserKeepsLiterals.

(** ** The four stages in a row, under the limits *)

Section LimitedRun.

Lemma limited_parsed_program (code : string) (toks : list token)
    (ast : list obj) (s' : Parser.t) (frames : nat) :
  accepts code toks ->
  LimitedParser.parse frames (Parser.__init__ toks) = Some (Ok ast, s') ->
  exists p, ast = map stmt_obj p
            /\ forallb stmt_ok p = true /\ forallb stmt_within p = true.
Proof.
  intros Hacc Hp.
  apply (tracks_result _ _ _ _ _ (tracks_parse frames)) in Hp;
    [| discriminate].
  destruct (lexed_program code toks ast s' (accepts_lexes _ _ Hacc) Hp)
    as (p & -> & Hok).
  exists p. repeat split; [exact Hok |].
  rewrite <- within_program. unfold Parser.parse in Hp.
  eapply parse_loop_within; [| | exact Hp]; [| reflexivity].
  cbn [Parser.tokens Parser.__init__]. now apply (accepts_within code).
Qed.

(** X22. What the parser returns for the tokens of a source text is a
    list of [var_decl] and [print] tuples over NUMBER and IDENTIFIER
    leaves and [bin_op] nodes, with names that hold no whitespace,
    operators among [+ - * /] and literals of at most 4300 digits. The
    generator turns it into the post-order code of these trees, or raises
    [RecursionError]; it does not when the calls that may nest are five
    more than the height of the highest tree. *)
Theorem X22_parsed_source_is_a_program
    (code : string) (toks : list token) (ast : list obj) (s' : Parser.t)
    (frames frames' : nat) :
  accepts code toks ->
  LimitedParser.parse frames (Parser.__init__ toks) = Some (Ok ast, s') ->
  exists p,
    ast = map stmt_obj p
    /\ forallb stmt_ok p = true
    /\ forallb stmt_within p = true
    /\ (fst (LimitedCodeGenerator.generate ast frames' CodeGenerator.__init__)
        = Ok (code_program p)
        \/ fst (LimitedCodeGenerator.generate ast frames' CodeGenerator.__init__)
           = Raise RecursionError)
    /\ ((program_height p + 5 <=? frames')%nat = true ->
        fst (LimitedCodeGenerator.generate ast frames' CodeGenerator.__init__)
        = Ok (code_program p)).
Proof.
  intros Hacc Hp.
  destruct (limited_parsed_program _ _ _ _ _ Hacc Hp) as (p & -> & Hok & Hw).
  exists p. refine (conj eq_refl (conj Hok (conj Hw (conj _ _)))).
  - destruct (generate_cases p frames') as [-> | [H | [_ H]]];
      [now left | now right | congruence].
  - intros Hf%Nat.leb_le. rewrite generate_enough; [reflexivity | exact Hw | lia].
Qed.

Lemma X22_witness :
  exists p,
    [OTuple [OStr "print";
             OTuple [OStr "bin_op"; OStr "+";
                     OTuple [OStr "IDENTIFIER"; OStr "x"];
                     OTuple [OStr "NUMBER"; OInt 1]]]] = map stmt_obj p
    /\ forallb stmt_ok p = true
    /\ forallb stmt_within p = true.
Proof.
  destruct (X22_parsed_source_is_a_program "print x + 1;"
              [("IDENTIFIER", OStr "print"); ("IDENTIFIER", OStr "x");
               ("OPERATOR", OStr "+"); ("NUMBER", OInt 1);
               ("SEMICOLON", OStr ";"); ("EOF", ONone)]
              [OTuple [OStr "print";
                       OTuple [OStr "bin_op"; OStr "+";
                               OTuple [OStr "IDENTIFIER"; OStr "x"];
                               OTuple [OStr "NUMBER"; OInt 1]]]]
              {| Parser.tokens :=
                   [("IDENTIFIER", OStr "print"); ("IDENTIFIER", OStr "x");
                    ("OPERATOR", OStr "+"); ("NUMBER", OInt 1);
                    ("SEMICOLON", OStr ";"); ("EOF", ONone)];
                 Parser.pos := 5 |} 20 20)
    as (p & Hp & Hok & Hw & _).
  - eexists. vm_compute. reflexivity.
  - vm_compute. reflexivity.
  - exists p. auto.
Defined.

(** X23. Running a source text through the four stages on fresh objects,
    with the calls the main block leaves to nest, always comes to an end,
    and can fail in these ways only: the lexer with [SyntaxError] on an
    unexpected character or with [ValueError] on a number of more than
    4300 digits; the parser with [SyntaxError] or [RecursionError]; the
    generator with [RecursionError]; the machine with an arithmetic
    exception ([TypeError], [ZeroDivisionError] or [OverflowError]) or
    with [ValueError]. The parser never runs off the tokens with
    [IndexError]. *)
Theorem X23_run_outcomes (code : string) :
  match limited_run code with
  | Finished _ => True
  | Failed stage e =>
      (stage = "tokenize"
       /\ ((exists c, e = SyntaxError ("Unexpected character: " +:+ str1 c))
           \/ (e = ValueError
               /\ Limits.int_max_str_digits < longest_number code)))
      \/ (stage = "parse"
          /\ ((exists msg, e = SyntaxError msg) \/ e = RecursionError))
      \/ (stage = "generate" /\ e = RecursionError)
      \/ (stage = "execute"
          /\ (arithmetic_error e = true \/ e = ValueError))
  | Starved => False
  end.
Proof.
  unfold limited_run. generalize (Limits.recursion_limit - 1). intros frames.
  destruct (limited_tokenize_cases Lexer.__init__ code)
    as [E | [[self' E] Hl]]; rewrite E; [| left; auto].
  pose proof E as Elim.
  destruct (tokenize_outcome Lexer.__init__ code)
    as (r & lx & Hlex & [[toks ->] | (c & -> & _)]); rewrite Hlex in *;
    [| left; split; [reflexivity | left; now exists c]].
  assert (Hacc : accepts code toks) by (now exists lx).
  destruct (LimitedParser.parse frames (Parser.__init__ toks))
    as [[[ast|e] s']|] eqn:Hp.
  - destruct (limited_parsed_program _ _ _ _ _ Hacc Hp) as (p & -> & Hok & Hw).
    destruct (generate_cases p frames) as [-> | H].
    + destruct (LimitedVirtualMachine.execute (code_program p)
                  VirtualMachine.__init__) as [[[]|e] vm] eqn:Hex; [exact I |].
      do 3 right. split; [reflexivity |].
      apply (compiled_code_raises p VirtualMachine.__init__ e Hok).
      now rewrite Hex.
    + destruct (LimitedCodeGenerator.generate _ _ _) as [[ins|e] g];
        cbn [fst] in H; destruct H as [H | [_ H]]; try congruence.
      injection H as ->. right. right. left. auto.
  - right. left. split; [reflexivity |].
    destruct (tracks_parse frames (Parser.__init__ toks)) as [Ep | (s1 & Ep)];
      [| rewrite Ep in Hp; injection Hp as -> _; now right].
    rewrite Ep in Hp.
    destruct (lexes_to_front _ _ (accepts_lexes _ _ Hacc)) as (front & -> & _).
    destruct (parse_outcome (front ++ [("EOF", ONone)]))
      as ((r & s2 & Hr & [[st ->] | [msg ->]]) & _);
      [now exists front, ONone | congruence | left; exists msg; congruence].
  - destruct (tracks_parse frames (Parser.__init__ toks)) as [Ep | (s1 & Ep)];
      [| rewrite Ep in Hp; discriminate].
    rewrite Ep in Hp.
    destruct (parse_terminates (Parser.__init__ toks)) as [x Hx]. congruence.
Qed.
End LimitedRun.
